(** * LingoVibe: narrated-text playback, PCM decoding, sentence segmentation
      and the story collection

    A shallow embedding of
      - [splitSentences]            (src/components/VocabularyList.tsx:168-173)
      - [decodeAudioData]           (src/utils/translations.ts:125-147)
      - the playback handlers       (src/components/VocabularyList.tsx:175-261)
      - the story collection        (src/App.tsx:49-64)
    together with the properties the specification states about them, and
    of the code around them:
      - the story reader            (src/components/VocabularyList.tsx:264-347)
      - the vocabulary and groups   (src/App.tsx:37-47,
                                     src/components/VocabularyList.tsx:62-107,
                                     src/components/WordSearch.tsx:50-129)
      - drafts and library          (src/components/VocabularyList.tsx:73-74,
                                     110-165; generateStoryFromWords)
      - the practice sessions       (src/components/PracticeMode.tsx:62-156)
      - the speaker buttons         (generateSpeech, decodeBase64, playAudio)
    with properties read off the code. *)

From Stdlib Require Import String Ascii.
From Stdlib.Strings Require Import Byte.
From Stdlib Require Import List Bool Arith NArith ZArith QArith Lia.
From Stdlib Require Import Permutation Sorted.
Import ListNotations.
Close Scope Q_scope.

Set Implicit Arguments.

(* ================================================================== *)
(** ** JavaScript strings *)

(** A JavaScript string is a sequence of UTF-16 code units. *)
Definition jsstring : Type := list N.

(** Literals in examples: the code units of an ASCII string. *)
Fixpoint js (s : string) : jsstring :=
  match s with
  | EmptyString => []
  | String c s' => N_of_ascii c :: js s'
  end.

Module Segmenter.

(** The class [[.!?]] of the expression at line 172. *)
Definition terminal (c : N) : bool :=
  ((c =? 46) || (c =? 33) || (c =? 63))%N.

(** The class [[^.!?]]; a negated class also matches line terminators. *)
Definition nonterminal (c : N) : bool := negb (terminal c).

(** [\s], and the characters removed by [String.prototype.trim]:
    WhiteSpace and LineTerminator of ECMAScript (the same set for both). *)
Definition whitespace (c : N) : bool :=
  ((c =? 9) || (c =? 10) || (c =? 11) || (c =? 12) || (c =? 13) ||
   (c =? 32) || (c =? 160) || (c =? 5760) ||
   ((8192 <=? c) && (c <=? 8202)) ||
   (c =? 8232) || (c =? 8233) || (c =? 8239) || (c =? 8287) ||
   (c =? 12288) || (c =? 65279))%N.

(** The fragment of regular expressions the source uses. *)
Inductive regex : Type :=
| Cls (p : N -> bool)            (* one character of a class *)
| ClsPlus (p : N -> bool)        (* class+, greedy *)
| Eoi                            (* $ without the m flag *)
| Cat (r1 r2 : regex)
| Alt (r1 r2 : regex).

(** Backtracking matcher in continuation-passing style: [k] is what has to
    match after the current sub-expression, the result is the input left
    after the whole match. *)
Section Matcher.

Variable k : jsstring -> option jsstring.

(** Greedy [class+]: take as many characters as possible, give them back
    one at a time while the continuation fails. *)
Fixpoint plus_run (p : N -> bool) (s : jsstring) : option jsstring :=
  match s with
  | [] => None
  | c :: s' =>
      if p c then
        match plus_run p s' with
        | Some r => Some r
        | None => k s'
        end
      else None
  end.

End Matcher.

Fixpoint rmatch (r : regex) (s : jsstring)
         (k : jsstring -> option jsstring) : option jsstring :=
  match r with
  | Cls p =>
      match s with
      | c :: s' => if p c then k s' else None
      | [] => None
      end
  | ClsPlus p => plus_run k p s
  | Eoi => match s with [] => k [] | _ :: _ => None end
  | Cat r1 r2 => rmatch r1 s (fun s' => rmatch r2 s' k)
  | Alt r1 r2 =>
      match rmatch r1 s k with
      | Some rest => Some rest
      | None => rmatch r2 s k
      end
  end.

(** [/[^.!?]+[.!?]+(\s|$)|[^.!?]+$/] *)
Definition sentenceRe : regex :=
  Alt (Cat (ClsPlus nonterminal)
           (Cat (ClsPlus terminal) (Alt (Cls whitespace) Eoi)))
      (Cat (ClsPlus nonterminal) Eoi).

(** One attempt at the current position: the input after the match. *)
Definition exec_here (r : regex) (s : jsstring) : option jsstring :=
  rmatch r s Some.

(** [String.prototype.match] with the [g] flag: the matches from left to
    right; after a match the search resumes where it ended (one character
    further after an empty match), after a failure at a position it moves
    to the next position.  Every round consumes a character, so
    [S (length s)] rounds are enough (see [scan_fuel]). *)
Fixpoint scan (r : regex) (fuel : nat) (s : jsstring) : list jsstring :=
  match fuel with
  | O => []
  | S fuel' =>
      match exec_here r s with
      | Some rest =>
          let n := (length s - length rest)%nat in
          firstn n s ::
            match n, s with
            | O, [] => []
            | O, _ :: s' => scan r fuel' s'
            | S _, _ => scan r fuel' rest
            end
      | None =>
          match s with
          | [] => []
          | _ :: s' => scan r fuel' s'
          end
      end
  end.

(** [text.match(re)]: [null] when nothing matches. *)
Definition match_g (r : regex) (text : jsstring) : option (list jsstring) :=
  match scan r (S (length text)) text with
  | [] => None
  | ms => Some ms
  end.

Fixpoint trimStart (s : jsstring) : jsstring :=
  match s with
  | c :: s' => if whitespace c then trimStart s' else s
  | [] => []
  end.

Definition trimEnd (s : jsstring) : jsstring := rev (trimStart (rev s)).

Definition trim (s : jsstring) : jsstring := trimEnd (trimStart s).

(** [Boolean(s)] for a string. *)
Definition truthy (s : jsstring) : bool :=
  match s with [] => false | _ :: _ => true end.

(** VocabularyList.tsx:168-173
<<
  const splitSentences = (text: string) => {
      if(!text) return [];
      return text.match(/[^.!?]+[.!?]+(\s|$)|[^.!?]+$/g)
                 ?.map(s => s.trim()).filter(Boolean) || [text];
  };
>>
    An array, even an empty one, is truthy: [|| [text]] applies only when
    [match] returned [null]. *)
Definition splitSentences (text : jsstring) : list jsstring :=
  if truthy text then
    match match_g sentenceRe text with
    | Some ms => filter truthy (map trim ms)
    | None => [text]
    end
  else [].

(** The text with its whitespace removed. *)
Definition nonWhitespace (s : jsstring) : jsstring :=
  filter (fun c => negb (whitespace c)) s.

Definition hasTerminal (s : jsstring) : bool := existsb terminal s.

(** Text that the expression reads without a gap: sentences made of
    characters other than terminal marks, then terminal marks, then one
    whitespace character or the end; possibly a last fragment without
    terminal mark. *)
Inductive Punctuated : jsstring -> Prop :=
| P_empty : Punctuated []
| P_fragment n :
    n <> [] -> forallb nonterminal n = true -> Punctuated n
| P_last n p :
    n <> [] -> forallb nonterminal n = true ->
    p <> [] -> forallb terminal p = true ->
    Punctuated (n ++ p)
| P_sentence n p w rest :
    n <> [] -> forallb nonterminal n = true ->
    p <> [] -> forallb terminal p = true ->
    whitespace w = true ->
    Punctuated rest ->
    Punctuated (n ++ p ++ w :: rest).

End Segmenter.

(* ================================================================== *)
(** ** PCM decoder (utils/audioUtils, translations.ts:109-147) *)

Module Pcm.

(** Exceptions raised by the platform calls the decoder makes. *)
Inductive exn : Type :=
| RangeError                (* new Int16Array over an odd byte length *)
| NotSupportedError         (* createBuffer outside its nominal range *)
| InvalidCharacterError.    (* atob on a malformed payload *)

(** A call that either returns or throws; for an [async] function, a
    promise that is fulfilled or rejected. *)
Inductive result (A : Type) : Type :=
| Ok (a : A)
| Throw (e : exn).
Arguments Ok {A} a.
Arguments Throw {A} e.

Definition bind {A B} (r : result A) (f : A -> result B) : result B :=
  match r with
  | Ok a => f a
  | Throw e => Throw e
  end.

Notation "x <- r ;; k" := (bind r (fun x => k))
  (at level 61, r at next level, right associativity).

(** Numbers stored in a [Float32Array].  An int16 divided by 32768 has at
    most 16 significant bits, so the quotient is exact in binary64 and in
    binary32: finite values are kept as rationals. *)
Inductive float : Type :=
| Num (q : Q)
| NaN.

(** One element of an [Int16Array] on a little-endian platform: the two
    bytes read as a two's-complement 16-bit integer. *)
Definition int16_le (lo hi : byte) : Z :=
  let u := (Z.of_N (Byte.to_N lo) + 256 * Z.of_N (Byte.to_N hi))%Z in
  if (u <? 32768)%Z then u else (u - 65536)%Z.

Fixpoint int16_view (buffer : list byte) : list Z :=
  match buffer with
  | lo :: hi :: rest => int16_le lo hi :: int16_view rest
  | _ => []
  end.

(** [new Int16Array(data.buffer)]: a RangeError unless the byte length of
    the buffer is a multiple of 2.  [data] is a view of all of its buffer,
    as [decodeBase64] builds it. *)
Definition newInt16Array (buffer : list byte) : result (list Z) :=
  if Nat.even (length buffer) then Ok (int16_view buffer)
  else Throw RangeError.

Record AudioBuffer : Type := {
  numberOfChannels : Z;
  frames : nat;                      (* AudioBuffer.length *)
  sampleRate : Z;
  channels : list (list float)       (* getChannelData(c), c = 0, 1, ... *)
}.

(** What [createBuffer] accepts besides a positive length is fixed by the
    implementation: the nominal ranges of the number of channels and of
    the sample rate.  A context stands for these limits.  The rates are
    whole numbers of Hz; [createBuffer] takes a rate as a [float], which
    keeps the whole numbers of the range every implementation supports.
    The memory that a buffer takes is not bounded. *)
Record Limits : Type := {
  maxChannels : Z;
  minSampleRate : Z;
  maxSampleRate : Z
}.

(** Every implementation of the Web Audio API supports at least 32
    channels and at least the rates from 8000 to 96000 Hz. *)
Definition conforming (ctx : Limits) : bool :=
  ((32 <=? maxChannels ctx) && (minSampleRate ctx <=? 8000)
   && (96000 <=? maxSampleRate ctx))%Z.

(** The least that an implementation supports. *)
Definition required : Limits :=
  {| maxChannels := 32; minSampleRate := 8000; maxSampleRate := 96000 |}.

(** The channel counts and rates inside the nominal ranges. *)
Definition supports (ctx : Limits) (numberOfChannels sampleRate : Z) : bool :=
  ((1 <=? numberOfChannels) && (numberOfChannels <=? maxChannels ctx)
   && (1 <=? sampleRate)
   && (minSampleRate ctx <=? sampleRate)
   && (sampleRate <=? maxSampleRate ctx))%Z.

(** [ctx.createBuffer(numberOfChannels, length, sampleRate)] of the Web
    Audio API (BaseAudioContext.createBuffer): a NotSupportedError is
    thrown if any of the arguments is negative, zero, or outside its
    nominal range; otherwise the result is a silent buffer.  The [length]
    argument is an [unsigned long]: a fractional number is truncated. *)
Definition createBuffer (ctx : Limits) (numberOfChannels : Z) (length : Z)
           (sampleRate : Z) : result AudioBuffer :=
  if (negb (supports ctx numberOfChannels sampleRate) || (length <? 1))%Z
  then Throw NotSupportedError
  else
    Ok {| numberOfChannels := numberOfChannels;
          frames := Z.to_nat length;
          sampleRate := sampleRate;
          channels := repeat (repeat (Num 0%Q) (Z.to_nat length))
                             (Z.to_nat numberOfChannels) |}.

(** [a[i] = x] on a typed array: ignored when [i] is out of range. *)
Fixpoint store (a : list float) (i : nat) (x : float) : list float :=
  match a, i with
  | [], _ => []
  | _ :: a', O => x :: a'
  | y :: a', S i' => y :: store a' i' x
  end.

(** [dataInt16[j] / 32768.0]; reading past the end gives [undefined],
    and [undefined / 32768.0] is NaN. *)
Definition scaled (dataInt16 : list Z) (j : nat) : float :=
  match nth_error dataInt16 j with
  | Some v => Num (v # 32768)%Q
  | None => NaN
  end.

(** The inner loop, lines 141-144, for one channel: [i] runs over the
    naturals below [frameCount], of which there are [iters]. *)
Definition fillChannel (dataInt16 : list Z) (numChannels channel iters : nat)
           (channelData : list float) : list float :=
  fold_left
    (fun cd i => store cd i (scaled dataInt16 (i * numChannels + channel)))
    (seq 0 iters) channelData.

(** translations.ts:125-147
<<
  const dataInt16 = new Int16Array(data.buffer);
  const frameCount = dataInt16.length / numChannels;
  const buffer = ctx.createBuffer(numChannels, frameCount, sampleRate);
  for (let channel = 0; channel < numChannels; channel++) {
    const channelData = buffer.getChannelData(channel);
    for (let i = 0; i < frameCount; i++) {
      channelData[i] = dataInt16[i * numChannels + channel] / 32768.0;
    }
  }
  return buffer;
>>
    [frameCount] is the quotient [len / numChannels] as a number, possibly
    fractional: [createBuffer] receives its integer part, and the loop
    test [i < frameCount] holds for the [ceil (len / numChannels)] first
    naturals.  For [numChannels < 1] the quotient is infinite, NaN or
    negative and [createBuffer] throws on the channel count already. *)
Definition decodeAudioData (data : list byte) (ctx : Limits)
           (sampleRate numChannels : Z) : result AudioBuffer :=
  dataInt16 <- newInt16Array data ;;
  let len := Z.of_nat (length dataInt16) in
  buffer <- createBuffer ctx numChannels (len / numChannels)%Z sampleRate ;;
  let iters := Z.to_nat ((len + numChannels - 1) / numChannels)%Z in
  Ok {| numberOfChannels := numberOfChannels buffer;
        frames := frames buffer;
        sampleRate := Pcm.sampleRate buffer;
        channels :=
          map (fun '(channel, channelData) =>
                 fillChannel dataInt16 (Z.to_nat numChannels) channel iters
                             channelData)
              (combine (seq 0 (Z.to_nat numChannels)) (channels buffer)) |}.

(** The defaults of the declaration: [sampleRate = 24000],
    [numChannels = 1]; the call at VocabularyList.tsx:239 uses both.  One
    channel at 24000 Hz is within what every implementation supports, so
    the result is the same on each of them, and [required] stands for the
    context of the call. *)
Definition decodeAudioData_default (data : list byte) : result AudioBuffer :=
  decodeAudioData data required 24000 1.

Definition failed {A} (r : result A) : bool :=
  match r with Ok _ => false | Throw _ => true end.

End Pcm.

(* ================================================================== *)
(** ** Playback controller (VocabularyList.tsx:34-38, 175-261) *)

(** The handlers are [async] functions over shared state: the React state
    [playbackState] and [currentSentenceIdx], and the refs [audioCtxRef]
    and [stopPlaybackFlag].  The embedding is a machine whose state holds
    these, together with the calls that are suspended at an [await].

    - A handler runs without interruption from its call, or from the
      resolution of what it awaits, to its next [await] or its end.
    - While a call is suspended any event may come first.  The browser
      runs the continuation of an already settled promise (lines 239 and
      243) before any click or timer; the machine does not enforce this,
      so it has every interleaving of the browser and some more.
    - [playbackState] is read when a handler is called: the handlers are
      created anew at each render.
    - The state of the context changes when the promise of [suspend()] or
      [resume()] resolves.
    - The component stays mounted: only the cleanup at line 56 closes the
      context, so the state [closed] is tested (line 217) but never
      arises. *)

Module Playback.

Import Segmenter Pcm.

(** [playbackState], line 35. *)
Inductive PlaybackState : Type := idle | playing | paused.

(** [AudioContext.state]. *)
Inductive ContextState : Type := running | suspended | closed.

(** How the promise of [generateSpeech(cleanText)] settles.  The service
    is external; a payload is given by what [decodeBase64] makes of it
    ([atob] throws on a malformed string). *)
Inductive Speech : Type :=
| NoAudio                                 (* fulfilled with a falsy value *)
| Payload (bytes : result (list byte))    (* fulfilled with a base64 string *)
| Rejected.                               (* rejected *)

(** The [await]s of the handlers: where a call is suspended, with the
    local variables it needs when it continues. *)
Inductive Await : Type :=
| PlayStop (text : jsstring) (suspending : bool)        (* 207 (and 178) *)
| PlayGrace (text : jsstring)                           (* 209 *)
| PlayResume (text : jsstring)                          (* 220 *)
| LoopSpeech (sentences : list jsstring) (i : nat)      (* 233 *)
| LoopDecode (sentences : list jsstring) (i : nat)
             (buffer : result AudioBuffer)              (* 239 *)
| LoopEnded (sentences : list jsstring) (i : nat)       (* 241, 250-251 *)
| LoopResolved (sentences : list jsstring) (i : nat)    (* 241, 243 *)
| StopSuspend                                           (* 178 *)
| PauseSuspend                                          (* 186 *)
| ResumeResume.                                         (* 193 *)

(** What a run does that can be observed from outside, newest first in
    [log].  The first component is the call of the handler it belongs to. *)
Inductive Obs : Type :=
| Request (id i : nat) (cleanText : jsstring)   (* generateSpeech called *)
| Decoded (id i : nat)                          (* decodeAudioData returned *)
| Started (id i : nat)                          (* source.start() *)
| Finished (id i : nat)                         (* onended *)
| Skipped (id i : nat)                          (* continue / resolve at 243 *)
| ConsoleError (id i : nat)                     (* console.error, line 255 *)
| Uncaught (id : nat)                     (* the handler's promise rejects *)
| DeviceCreated
| DeviceSuspended
| DeviceResumed.

(** The component: its state variables and refs, the platform, the
    suspended calls and the observations so far. *)
Record Machine : Type := {
  playbackState : PlaybackState;              (* line 35 *)
  currentSentenceIdx : Z;                     (* line 36 *)
  audioCtxRef : option ContextState;          (* line 37; None is null *)
  stopPlaybackFlag : bool;                    (* line 38 *)
  deviceAvailable : bool;        (* does [new AudioContext(...)] succeed *)
  pending : list (nat * Await);
  nextId : nat;
  log : list Obs
}.

Definition init (device : bool) : Machine :=
  {| playbackState := idle; currentSentenceIdx := (-1)%Z;
     audioCtxRef := None; stopPlaybackFlag := false;
     deviceAvailable := device; pending := []; nextId := 0; log := [] |}.

Definition setPlaybackState (v : PlaybackState) (m : Machine) : Machine :=
  {| playbackState := v; currentSentenceIdx := currentSentenceIdx m;
     audioCtxRef := audioCtxRef m; stopPlaybackFlag := stopPlaybackFlag m;
     deviceAvailable := deviceAvailable m; pending := pending m;
     nextId := nextId m; log := log m |}.

Definition setCurrentSentenceIdx (v : Z) (m : Machine) : Machine :=
  {| playbackState := playbackState m; currentSentenceIdx := v;
     audioCtxRef := audioCtxRef m; stopPlaybackFlag := stopPlaybackFlag m;
     deviceAvailable := deviceAvailable m; pending := pending m;
     nextId := nextId m; log := log m |}.

Definition setContext (v : ContextState) (m : Machine) : Machine :=
  {| playbackState := playbackState m;
     currentSentenceIdx := currentSentenceIdx m;
     audioCtxRef := Some v; stopPlaybackFlag := stopPlaybackFlag m;
     deviceAvailable := deviceAvailable m; pending := pending m;
     nextId := nextId m; log := log m |}.

Definition setStopFlag (v : bool) (m : Machine) : Machine :=
  {| playbackState := playbackState m;
     currentSentenceIdx := currentSentenceIdx m;
     audioCtxRef := audioCtxRef m; stopPlaybackFlag := v;
     deviceAvailable := deviceAvailable m; pending := pending m;
     nextId := nextId m; log := log m |}.

Definition setPending (v : list (nat * Await)) (m : Machine) : Machine :=
  {| playbackState := playbackState m;
     currentSentenceIdx := currentSentenceIdx m;
     audioCtxRef := audioCtxRef m; stopPlaybackFlag := stopPlaybackFlag m;
     deviceAvailable := deviceAvailable m; pending := v;
     nextId := nextId m; log := log m |}.

Definition freshId (m : Machine) : Machine :=
  {| playbackState := playbackState m;
     currentSentenceIdx := currentSentenceIdx m;
     audioCtxRef := audioCtxRef m; stopPlaybackFlag := stopPlaybackFlag m;
     deviceAvailable := deviceAvailable m; pending := pending m;
     nextId := S (nextId m); log := log m |}.

Definition observe (o : Obs) (m : Machine) : Machine :=
  {| playbackState := playbackState m;
     currentSentenceIdx := currentSentenceIdx m;
     audioCtxRef := audioCtxRef m; stopPlaybackFlag := stopPlaybackFlag m;
     deviceAvailable := deviceAvailable m; pending := pending m;
     nextId := nextId m; log := o :: log m |}.

(** Suspend the call [id] at an await. *)
Definition suspend (id : nat) (a : Await) (m : Machine) : Machine :=
  setPending ((id, a) :: pending m) m.

(** Take the suspended call [id] out of the pool. *)
Fixpoint take (id : nat) (p : list (nat * Await))
  : option (Await * list (nat * Await)) :=
  match p with
  | [] => None
  | (id', a) :: p' =>
      if Nat.eqb id id' then Some (a, p')
      else match take id p' with
           | Some (b, q) => Some (b, (id', a) :: q)
           | None => None
           end
  end.

(** Lines 259-260, after the loop:
<<
  setPlaybackState('idle');
  setCurrentSentenceIdx(-1);
>> *)
Definition handlePlayStory_end (m : Machine) : Machine :=
  setCurrentSentenceIdx (-1) (setPlaybackState idle m).

(** [sentences[i].replace(/[\[\]]/g, '')], line 232. *)
Definition cleanText (sentence : jsstring) : jsstring :=
  filter (fun c => negb ((c =? 91) || (c =? 93))%N) sentence.

(** The loop from its test at index [i] (line 225) to the first await of
    the body (line 233), or out of the loop to lines 259-260:
<<
  for (let i = 0; i < sentences.length; i++) {
      if (stopPlaybackFlag.current) break;
      setCurrentSentenceIdx(i);
      try {
          const cleanText = sentences[i].replace(/[\[\]]/g, '');
          const audioBase64 = await generateSpeech(cleanText);
>> *)
Definition handlePlayStory_loop (id : nat) (sentences : list jsstring)
           (i : nat) (m : Machine) : Machine :=
  match nth_error sentences i with
  | None => handlePlayStory_end m                     (* i >= length *)
  | Some sentence =>
      if stopPlaybackFlag m then handlePlayStory_end m   (* 226: break *)
      else
        suspend id (LoopSpeech sentences i)
          (observe (Request id i (cleanText sentence))
             (setCurrentSentenceIdx (Z.of_nat i) m))     (* 228, 232-233 *)
  end.

(** Lines 212-223 and the entry of the loop:
<<
  setPlaybackState('playing');
  stopPlaybackFlag.current = false;
  setCurrentSentenceIdx(-1);
  if (!audioCtxRef.current || audioCtxRef.current.state === 'closed') {
      audioCtxRef.current = new (window.AudioContext || ...)(...);
  } else if (audioCtxRef.current.state === 'suspended') {
      await audioCtxRef.current.resume();
  }
  const sentences = splitSentences(text);
>>
    A context built by the constructor inside the click handler is taken
    to be running.  When the constructor throws, the exception leaves
    the handler: nothing around it catches. *)
Definition handlePlayStory_start (id : nat) (text : jsstring) (m : Machine)
  : Machine :=
  let m1 :=
    setCurrentSentenceIdx (-1)
      (setStopFlag false (setPlaybackState playing m)) in   (* 212-214 *)
  match audioCtxRef m1 with
  | None | Some closed =>                                   (* 217-218 *)
      if deviceAvailable m1 then
        handlePlayStory_loop id (splitSentences text) 0
          (observe DeviceCreated (setContext running m1))
      else observe (Uncaught id) m1
  | Some suspended => suspend id (PlayResume text) m1       (* 219-220 *)
  | Some running => handlePlayStory_loop id (splitSentences text) 0 m1
  end.

(** [handleStopPlayback] up to its await (176-178):
<<
  stopPlaybackFlag.current = true;
  if (audioCtxRef.current) {
      await audioCtxRef.current.suspend();
>>
    The result tells whether the call is now waiting for [suspend()]; on
    a closed context [suspend()] rejects and the handler ends there. *)
Definition handleStopPlayback (id : nat) (m : Machine)
  : Machine * option bool :=
  let m1 := setStopFlag true m in
  match audioCtxRef m1 with
  | None => (m1, Some false)
  | Some closed => (observe (Uncaught id) m1, None)
  | Some _ => (m1, Some true)
  end.

(** [handleStopPlayback] after its await (179-180):
<<
      setPlaybackState('idle');
      setCurrentSentenceIdx(-1);
>>
    The context reports [suspended] once [suspend()] has resolved. *)
Definition handleStopPlayback_done (m : Machine) : Machine :=
  setCurrentSentenceIdx (-1)
    (setPlaybackState idle
       (observe DeviceSuspended (setContext suspended m))).

(** [handleResumePlayback] up to its await (192-193). *)
Definition handleResumePlayback (id : nat) (m : Machine) : Machine :=
  match audioCtxRef m with
  | Some suspended => suspend id ResumeResume m
  | _ => m
  end.

(** [handlePausePlayback] up to its await (185-186). *)
Definition handlePausePlayback (id : nat) (m : Machine) : Machine :=
  match audioCtxRef m with
  | Some running => suspend id PauseSuspend m
  | _ => m
  end.

(** [handlePlayStory] from its entry to its first await (198-210):
<<
  if (playbackState === 'paused') { handleResumePlayback(); return; }
  if (playbackState === 'playing') {
      await handleStopPlayback();
      await new Promise(r => setTimeout(r, 50));
  }
>> *)
Definition handlePlayStory (id : nat) (text : jsstring) (m : Machine)
  : Machine :=
  match playbackState m with
  | paused => handleResumePlayback id m                     (* 200-203 *)
  | playing =>                                              (* 206-207 *)
      match handleStopPlayback id m with
      | (m1, Some suspending) => suspend id (PlayStop text suspending) m1
      | (m1, None) => m1
      end
  | idle => handlePlayStory_start id text m
  end.

(** The continuation of a call whose awaited promise or timer resolved.
    For the decoder (239-252):
<<
  const buffer = await decodeAudioData(bytes, audioCtxRef.current);
  await new Promise<void>((resolve) => {
      if (stopPlaybackFlag.current || !audioCtxRef.current) {
          resolve();
          return;
      }
      const source = audioCtxRef.current.createBufferSource();
      ...
      source.onended = () => resolve();
      source.start();
  });
>> *)
Definition wake (id : nat) (a : Await) (m : Machine) : option Machine :=
  match a with
  | PlayStop text suspending =>                             (* 179-180, 209 *)
      Some (suspend id (PlayGrace text)
              (if suspending then handleStopPlayback_done m else m))
  | PlayGrace text => Some (handlePlayStory_start id text m)
  | PlayResume text =>                                      (* 220, 223 *)
      Some (handlePlayStory_loop id (splitSentences text) 0
              (observe DeviceResumed (setContext running m)))
  | LoopDecode sentences i (Throw _) =>                     (* 254-256 *)
      Some (handlePlayStory_loop id sentences (S i)
              (observe (ConsoleError id i) m))
  | LoopDecode sentences i (Ok _) =>                        (* 241-252 *)
      if stopPlaybackFlag m
         || match audioCtxRef m with Some _ => false | None => true end
      then Some (suspend id (LoopResolved sentences i)
                   (observe (Skipped id i) m))
      else Some (suspend id (LoopEnded sentences i)
                   (observe (Started id i) m))
  | LoopResolved sentences i =>
      Some (handlePlayStory_loop id sentences (S i) m)
  | StopSuspend => Some (handleStopPlayback_done m)
  | PauseSuspend =>                                         (* 187 *)
      Some (setPlaybackState paused
              (observe DeviceSuspended (setContext suspended m)))
  | ResumeResume =>                                         (* 194 *)
      Some (setPlaybackState playing
              (observe DeviceResumed (setContext running m)))
  | LoopSpeech _ _ | LoopEnded _ _ => None
  end.

(** The continuation of the loop body when [generateSpeech] settles
    (233-239, 254-256):
<<
          const audioBase64 = await generateSpeech(cleanText);
          if (stopPlaybackFlag.current) break;
          if (!audioBase64) continue;
          const bytes = decodeBase64(audioBase64);
          const buffer = await decodeAudioData(bytes, audioCtxRef.current);
          ...
      } catch (e) {
          console.error("Playback error", e);
      }
>> *)
Definition handlePlayStory_speech (id : nat) (sentences : list jsstring)
           (i : nat) (o : Speech) (m : Machine) : Machine :=
  match o with
  | Rejected =>                                             (* 254-256 *)
      handlePlayStory_loop id sentences (S i)
        (observe (ConsoleError id i) m)
  | NoAudio =>
      if stopPlaybackFlag m then handlePlayStory_end m      (* 235 *)
      else handlePlayStory_loop id sentences (S i)
             (observe (Skipped id i) m)                     (* 236 *)
  | Payload bytes =>
      if stopPlaybackFlag m then handlePlayStory_end m      (* 235 *)
      else
        match bytes with
        | Throw _ =>                                        (* 238 throws *)
            handlePlayStory_loop id sentences (S i)
              (observe (ConsoleError id i) m)
        | Ok data =>                                        (* 239 *)
            let buffer := decodeAudioData_default data in
            suspend id (LoopDecode sentences i buffer)
              (if failed buffer then m else observe (Decoded id i) m)
        end
  end.

(** What happens to the component: the user's clicks, and the platform
    resuming a suspended call. *)
Inductive Event : Type :=
| Play (text : jsstring)           (* handlePlayStory(text) *)
| Stop                             (* handleStopPlayback() *)
| Pause                            (* handlePausePlayback() *)
| Resume                           (* handleResumePlayback() *)
| Settle (id : nat) (o : Speech)   (* generateSpeech of call id settles *)
| Wake (id : nat)                  (* its promise or timer resolves *)
| Ended (id : nat).                (* onended of the source of call id *)

(** One turn of the event loop; [None] when the event cannot happen in
    this state.  A source ends only while the context is running. *)
Definition step (m : Machine) (e : Event) : option Machine :=
  match e with
  | Play text => Some (handlePlayStory (nextId m) text (freshId m))
  | Stop =>
      let id := nextId m in
      match handleStopPlayback id (freshId m) with
      | (m1, Some true) => Some (suspend id StopSuspend m1)
      | (m1, _) => Some m1
      end
  | Pause => Some (handlePausePlayback (nextId m) (freshId m))
  | Resume => Some (handleResumePlayback (nextId m) (freshId m))
  | Settle id o =>
      match take id (pending m) with
      | Some (LoopSpeech sentences i, rest) =>
          Some (handlePlayStory_speech id sentences i o (setPending rest m))
      | _ => None
      end
  | Wake id =>
      match take id (pending m) with
      | Some (a, rest) => wake id a (setPending rest m)
      | None => None
      end
  | Ended id =>
      match take id (pending m), audioCtxRef m with
      | Some (LoopEnded sentences i, rest), Some running =>
          Some (handlePlayStory_loop id sentences (S i)
                  (observe (Finished id i) (setPending rest m)))
      | _, _ => None
      end
  end.

Fixpoint run (m : Machine) (es : list Event) : option Machine :=
  match es with
  | [] => Some m
  | e :: es' =>
      match step m e with
      | Some m' => run m' es'
      | None => None
      end
  end.

Definition reachable (m : Machine) : Prop :=
  exists device es, run (init device) es = Some m.


(** *** A session left alone

    The events of a session that nobody interrupts are fixed by how the
    speech requests are answered: one outcome per sentence. *)

(** The platform events of one sentence, in order. *)
Definition outcomeEvents (id : nat) (o : Speech) : list Event :=
  Settle id o ::
    match o with
    | Payload (Ok data) =>
        Wake id ::
          (if failed (decodeAudioData_default data) then [] else [Ended id])
    | _ => []
    end.

Definition schedule (id : nat) (os : list Speech) : list Event :=
  flat_map (outcomeEvents id) os.

(** A [play] in state [m] and the events of its session: when the context
    is suspended the session first waits for [resume()] (line 220). *)
Definition session (m : Machine) (text : jsstring) (os : list Speech)
  : list Event :=
  Play text ::
    match audioCtxRef m with
    | Some suspended => [Wake (nextId m)]
    | _ => []
    end ++ schedule (nextId m) os.

(** What is observed of one sentence after its request, oldest first. *)
Definition outcomeObs (id i : nat) (o : Speech) : list Obs :=
  match o with
  | NoAudio => [Skipped id i]
  | Rejected => [ConsoleError id i]
  | Payload (Throw _) => [ConsoleError id i]
  | Payload (Ok data) =>
      if failed (decodeAudioData_default data) then [ConsoleError id i]
      else [Decoded id i; Started id i; Finished id i]
  end.

(** What is observed of the sentences from index [i] on, oldest first. *)
Fixpoint narration (id : nat) (sentences : list jsstring) (i : nat)
         (os : list Speech) : list Obs :=
  match os with
  | [] => []
  | o :: os' =>
      match nth_error sentences i with
      | Some sentence =>
          Request id i (cleanText sentence)
            :: outcomeObs id i o ++ narration id sentences (S i) os'
      | None => []
      end
  end.

(** *** The pipeline of a session, read off the log *)

(** The stages of the pipeline of one sentence. *)
Inductive Stage : Type :=
| Requested | DecodedOk | Playing | PlayedOut | SkippedOver | Errored.

(** The call and the sentence an observation is about, with its stage. *)
Definition about (o : Obs) : option (nat * (nat * Stage)) :=
  match o with
  | Request id i _ => Some (id, (i, Requested))
  | Decoded id i => Some (id, (i, DecodedOk))
  | Started id i => Some (id, (i, Playing))
  | Finished id i => Some (id, (i, PlayedOut))
  | Skipped id i => Some (id, (i, SkippedOver))
  | ConsoleError id i => Some (id, (i, Errored))
  | Uncaught _ | DeviceCreated | DeviceSuspended | DeviceResumed => None
  end.

(** The observations about the sentences of call [id], newest first. *)
Fixpoint history (id : nat) (l : list Obs) : list (nat * Stage) :=
  match l with
  | [] => []
  | o :: l' =>
      match about o with
      | Some (id', t) =>
          if Nat.eqb id' id then t :: history id l' else history id l'
      | None => history id l'
      end
  end.

(** A sentence is over once it was played out, skipped, or failed. *)
Definition over (st : Stage) : bool :=
  match st with
  | PlayedOut | SkippedOver | Errored => true
  | Requested | DecodedOk | Playing => false
  end.

(** [follows a b]: in one session, [b] may be the observation after [a]. *)
Definition follows (a b : nat * Stage) : bool :=
  match b, snd a with
  | (j, Requested), st => Nat.eqb j (S (fst a)) && over st
  | (j, DecodedOk), Requested => Nat.eqb j (fst a)
  | (j, Playing), DecodedOk => Nat.eqb j (fst a)
  | (j, PlayedOut), Playing => Nat.eqb j (fst a)
  | (j, SkippedOver), (Requested | DecodedOk) => Nat.eqb j (fst a)
  | (j, Errored), Requested => Nat.eqb j (fst a)
  | _, _ => false
  end.

Definition opening (b : nat * Stage) : bool :=
  match b with
  | (O, Requested) => true
  | _ => false
  end.

(** A history (newest first) that starts with the request of sentence 0
    and in which every observation may follow the one before. *)
Fixpoint pipeline (h : list (nat * Stage)) : bool :=
  match h with
  | [] => true
  | b :: h' =>
      match h' with
      | [] => opening b
      | a :: _ => follows a b
      end && pipeline h'
  end.

(** The stage a suspended call has reached, as its history must show. *)
Definition agrees (a : Await) (h : list (nat * Stage)) : bool :=
  match a, h with
  | LoopSpeech _ i, (j, Requested) :: _ => Nat.eqb i j
  | LoopDecode _ i (Ok _), (j, DecodedOk) :: _ => Nat.eqb i j
  | LoopDecode _ i (Throw _), (j, Requested) :: _ => Nat.eqb i j
  | LoopEnded _ i, (j, Playing) :: _ => Nat.eqb i j
  | LoopResolved _ i, (j, SkippedOver) :: _ => Nat.eqb i j
  | (PlayStop _ _ | PlayGrace _ | PlayResume _
     | StopSuspend | PauseSuspend | ResumeResume), [] => true
  | _, _ => false
  end.

(** Where the history of a call stands when it reaches the test of the
    loop at index [i]. *)
Definition readyFor (i : nat) (h : list (nat * Stage)) : Prop :=
  match i with
  | O => h = []
  | S j => exists st h', h = (j, st) :: h' /\ over st = true
  end.

(** Calls suspended on an operation of the context. *)
Definition needsContext (a : Await) : bool :=
  match a with
  | PlayStop _ suspending => suspending
  | PlayGrace _ => false
  | _ => true
  end.

(** The suspension points of a session: the awaits of the loop, and the
    [resume()] before it. *)
Definition loopPoint (a : Await) : bool :=
  match a with
  | PlayResume _ | LoopSpeech _ _ | LoopDecode _ _ _
  | LoopEnded _ _ | LoopResolved _ _ => true
  | PlayStop _ _ | PlayGrace _ | StopSuspend | PauseSuspend | ResumeResume =>
      false
  end.

(** What holds of every state the component can be in. *)
Record Inv (m : Machine) : Prop := {
  inv_ids : forall id a, In (id, a) (pending m) -> id < nextId m;
  inv_nodup : NoDup (map fst (pending m));
  inv_open : audioCtxRef m <> Some closed;
  inv_ctx : forall id a, In (id, a) (pending m) ->
                         needsContext a = true -> audioCtxRef m <> None;
  inv_pipeline : forall id, pipeline (history id (log m)) = true;
  inv_agrees : forall id a, In (id, a) (pending m) ->
                            agrees a (history id (log m)) = true;
  inv_fresh : forall id, nextId m <= id -> history id (log m) = []
}.

(** The same while call [id] is running: it is not in the pool. *)
Definition InvRunning (id : nat) (m : Machine) : Prop :=
  Inv m /\ id < nextId m /\ ~ In id (map fst (pending m)).


(** An outcome is an error when the request is rejected, the payload is
    not base64, or the decoder throws on it. *)
Definition erroneous (o : Speech) : bool :=
  match o with
  | NoAudio => false
  | Rejected => true
  | Payload (Throw _) => true
  | Payload (Ok data) => failed (decodeAudioData_default data)
  end.

(** *** Data for the examples *)

(** Two samples of PCM16: -32768 and 32767. *)
Definition pcm2 : list byte := [x00; x80; xff; x7f].

Definition audio : Speech := Payload (Ok pcm2).

Definition afterRun (device : bool) (es : list Event) : Machine :=
  match run (init device) es with
  | Some m => m
  | None => init device
  end.

(** The text of the scenarios of the specification. *)
Definition greeting : jsstring := js "Hello world. How are you?"%string.

(** Sentence 0 of [greeting] is being played. *)
Definition playingFirst : Machine :=
  afterRun true [Play greeting; Settle 0 audio; Wake 0].

(** Sentence 0 was played out and sentence 1 is requested. *)
Definition requestedSecond : Machine :=
  afterRun true [Play greeting; Settle 0 audio; Wake 0; Ended 0].

(** A session of [greeting] stopped while its first request was in
    flight: the controller is idle and the context suspended. *)
Definition stoppedEarly : Machine :=
  afterRun true [Play greeting; Stop; Wake 1; Settle 0 audio].

(** Sentence 0 had no audio and sentence 1, the last, is being played. *)
Definition playingLast : Machine :=
  afterRun true [Play greeting; Settle 0 NoAudio; Settle 0 audio; Wake 0].

End Playback.

(* ================================================================== *)
(** ** Story collection (App.tsx:13, 49-64; types.ts) *)

Module Stories.

Inductive Difficulty : Type := Beginner | Intermediate | Advanced.

(** [interface Story]; [isSaved] is optional. *)
Record Story : Type := {
  id : jsstring;
  title : jsstring;
  contentLearning : jsstring;
  contentNative : jsstring;
  wordsUsed : list jsstring;
  createdAt : Z;
  difficulty : Difficulty;
  isSaved : option bool
}.

(** [Partial<Story>]: every key may be absent. *)
Record Updates : Type := {
  u_id : option jsstring;
  u_title : option jsstring;
  u_contentLearning : option jsstring;
  u_contentNative : option jsstring;
  u_wordsUsed : option (list jsstring);
  u_createdAt : option Z;
  u_difficulty : option Difficulty;
  u_isSaved : option bool
}.

Definition override {A} (old : A) (new : option A) : A :=
  match new with Some v => v | None => old end.

(** [{ ...s, ...updates }] *)
Definition spread (s : Story) (u : Updates) : Story :=
  {| id := override (id s) (u_id u);
     title := override (title s) (u_title u);
     contentLearning := override (contentLearning s) (u_contentLearning u);
     contentNative := override (contentNative s) (u_contentNative u);
     wordsUsed := override (wordsUsed s) (u_wordsUsed u);
     createdAt := override (createdAt s) (u_createdAt u);
     difficulty := override (difficulty s) (u_difficulty u);
     isSaved := match u_isSaved u with
                | Some b => Some b
                | None => isSaved s
                end |}.

(** The truthiness of [s.isSaved]: absent counts as false. *)
Definition saved (s : Story) : bool :=
  match isSaved s with Some b => b | None => false end.

Definition draft (s : Story) : bool := negb (saved s).

(** [a === b] on strings. *)
Fixpoint str_eqb (a b : jsstring) : bool :=
  match a, b with
  | [], [] => true
  | x :: a', y :: b' => N.eqb x y && str_eqb a' b'
  | _, _ => false
  end.

(** App.tsx:49-56 *)
Definition handleAddStory (story : Story) (prev : list Story) : list Story :=
  if negb (saved story) then story :: filter saved prev
  else story :: prev.

(** App.tsx:58-60 *)
Definition handleUpdateStory (i : jsstring) (updates : Updates)
           (prev : list Story) : list Story :=
  map (fun s => if str_eqb (id s) i then spread s updates else s) prev.

(** App.tsx:62-64 *)
Definition handleRemoveStory (i : jsstring) (prev : list Story) : list Story :=
  filter (fun s => negb (str_eqb (id s) i)) prev.

(** The calls the views make: [onAddStory(newStory)],
    [onUpdateStory(storyId, { isSaved: true })] (VocabularyList.tsx:159)
    and [onRemoveStory(story.id)]. *)
Inductive Op : Type :=
| AddStory (story : Story)
| MarkSaved (i : jsstring)
| RemoveStory (i : jsstring).

Definition markSaved : Updates :=
  {| u_id := None; u_title := None; u_contentLearning := None;
     u_contentNative := None; u_wordsUsed := None; u_createdAt := None;
     u_difficulty := None; u_isSaved := Some true |}.

Definition apply (stories : list Story) (op : Op) : list Story :=
  match op with
  | AddStory story => handleAddStory story stories
  | MarkSaved i => handleUpdateStory i markSaved stories
  | RemoveStory i => handleRemoveStory i stories
  end.

Definition applyAll (stories : list Story) (ops : list Op) : list Story :=
  fold_left apply ops stories.

Definition drafts (stories : list Story) : list Story := filter draft stories.

(** A story for the examples. *)
Definition story (i : string) (s : option bool) : Story :=
  {| id := js i; title := js "t"%string;
     contentLearning := js "A [cat]. B."%string;
     contentNative := js "n"%string; wordsUsed := [js "w1"%string];
     createdAt := 0; difficulty := Beginner; isSaved := s |}.

End Stories.

(* ================================================================== *)
(** ** Story reader (VocabularyList.tsx:264-347) *)

Module Reader.

Import Segmenter Playback.

(** The class [[\s\[\]]] of the expression at line 323. *)
Definition separator (c : N) : bool :=
  (whitespace c || (c =? 91) || (c =? 93))%N.

(** [/([\s\[\]]+)/]: one capturing group around the whole expression. *)
Definition chunkRe : regex := ClsPlus separator.

(** [String.prototype.split] with a regular expression (the loop of
    RegExp.prototype[@@split]): [piece] is the text since the end of the
    last separator, [s] the text from the current position.  Where the
    expression matches, the piece and then the capture are pushed; as the
    expression is one group, the capture is the text matched.  A match
    that is empty and starts where the last one ended is passed over. *)
Fixpoint splitLoop (r : regex) (fuel : nat) (piece s : jsstring)
  : list jsstring :=
  match fuel with
  | O => [piece ++ s]
  | S fuel' =>
      match s with
      | [] => [piece]
      | c :: s' =>
          match exec_here r s with
          | None => splitLoop r fuel' (piece ++ [c]) s'
          | Some rest =>
              let n := (length s - length rest)%nat in
              match n, piece with
              | O, [] => splitLoop r fuel' [c] s'
              | _, _ => piece :: firstn n s :: splitLoop r fuel' [] rest
              end
          end
      end
  end.

(** [s.split(r)]; on the empty string the result is [[""]] unless the
    expression matches it.  Two rounds for each character are enough. *)
Definition split (r : regex) (s : jsstring) : list jsstring :=
  match s with
  | [] => match exec_here r [] with Some _ => [] | None => [[]] end
  | _ :: _ => splitLoop r (S (2 * length s)) [] s
  end.

(** What is rendered for a chunk, lines 324-341. *)
Inductive Span : Type :=
| Blank (chunk : jsstring)              (* <span>{chunk}</span> *)
| Clickable (isSeedWord : bool) (displayWord : jsstring).

(** [chunk.startsWith(c)] and [chunk.endsWith(c)] for a one-character
    string [c]. *)
Definition startsWith (c : N) (chunk : jsstring) : bool :=
  match chunk with
  | x :: _ => N.eqb x c
  | [] => false
  end.

Definition endsWith (c : N) (chunk : jsstring) : bool :=
  startsWith c (rev chunk).

(** Lines 324-327:
<<
  if (!chunk.trim()) return <span key={cIdx}>{chunk}</span>;
  const isSeedWord = chunk.startsWith('[') && chunk.endsWith(']');
  const displayWord = chunk.replace(/[\[\]]/g, '');
>> *)
Definition renderChunk (chunk : jsstring) : Span :=
  if truthy (trim chunk) then
    Clickable (startsWith 91 chunk && endsWith 93 chunk) (cleanText chunk)
  else Blank chunk.

Definition renderSentence (sentence : jsstring) : list Span :=
  map renderChunk (split chunkRe sentence).

(** Lines 313-347: for each sentence, whether it is highlighted
    ([playbackState !== 'idle' && currentSentenceIdx === sIdx]) and its
    spans. *)
Definition renderStoryContent (state : PlaybackState) (current : Z)
           (text : jsstring) : list (bool * list Span) :=
  map (fun '(sIdx, sentence) =>
         (match state with
          | idle => false
          | _ => (current =? Z.of_nat sIdx)%Z
          end,
          renderSentence sentence))
      (combine (seq 0 (length (splitSentences text))) (splitSentences text)).

(** The class [[\[\].,!?]] of the expression at line 266. *)
Definition stripped (c : N) : bool :=
  ((c =? 91) || (c =? 93) || (c =? 46) || (c =? 44) || (c =? 33)
   || (c =? 63))%N.

(** Line 266: [text.replace(/[\[\].,!?]/g, '').trim()], the text that
    [handleWordClick] looks up; nothing is looked up when it is empty
    (line 267). *)
Definition lookupText (text : jsstring) : jsstring :=
  trim (filter (fun c => negb (stripped c)) text).

(** A chunk that is a run of separators, or has no separator. *)
Definition uniform (chunk : jsstring) : Prop :=
  forallb separator chunk = true
  \/ forallb (fun c => negb (separator c)) chunk = true.

End Reader.

(* ================================================================== *)
(** ** The audio device of the playback controller *)

Module Device.

Import Playback.

(** How many times [new AudioContext(...)] succeeded (line 218). *)
Fixpoint created (l : list Obs) : nat :=
  match l with
  | [] => 0
  | DeviceCreated :: l' => S (created l')
  | _ :: l' => created l'
  end.

(** The constructor has run once exactly when the ref holds a context. *)
Definition OneContext (m : Machine) : Prop :=
  created (log m) = match audioCtxRef m with Some _ => 1 | None => 0 end.

End Device.

(* ================================================================== *)
(** ** Vocabulary (App.tsx:12, 37-47; types.ts; VocabularyList.tsx:62-107,
       264-310; WordSearch.tsx:50-129) *)

Module Words.

Import Segmenter Reader.

(** [interface WordMeaning] *)
Record WordMeaning : Type := {
  m_partOfSpeech : jsstring;
  m_definitionNative : jsstring;
  m_definitionLearning : jsstring;
  m_definitionEnglish : jsstring;
  m_exampleSentenceLearning : jsstring;
  m_exampleSentenceNative : jsstring;
  m_vibeCheck : jsstring
}.

(** [interface Word]; [partOfSpeech], [meanings] and [groups] are
    optional, [imageUrl] is a string or [null]. *)
Record Word : Type := {
  id : jsstring;
  text : jsstring;
  nativeLang : jsstring;
  learningLang : jsstring;
  pronunciation : jsstring;
  partOfSpeech : option jsstring;
  definitionNative : jsstring;
  definitionLearning : jsstring;
  definitionEnglish : jsstring;
  exampleSentenceLearning : jsstring;
  exampleSentenceNative : jsstring;
  vibeCheck : jsstring;
  imageUrl : option jsstring;
  createdAt : Z;
  meanings : option (list WordMeaning);
  groups : option (list jsstring)
}.

(** [Partial<Word>]: every key may be absent. *)
Record Updates : Type := {
  u_id : option jsstring;
  u_text : option jsstring;
  u_nativeLang : option jsstring;
  u_learningLang : option jsstring;
  u_pronunciation : option jsstring;
  u_partOfSpeech : option jsstring;
  u_definitionNative : option jsstring;
  u_definitionLearning : option jsstring;
  u_definitionEnglish : option jsstring;
  u_exampleSentenceLearning : option jsstring;
  u_exampleSentenceNative : option jsstring;
  u_vibeCheck : option jsstring;
  u_imageUrl : option (option jsstring);
  u_createdAt : option Z;
  u_meanings : option (list WordMeaning);
  u_groups : option (list jsstring)
}.

Definition override {A} (old : A) (new : option A) : A :=
  match new with Some v => v | None => old end.

(** A key that is optional in [Word]: present once the update has it. *)
Definition overrideOptional {A} (old : option A) (new : option A) : option A :=
  match new with Some v => Some v | None => old end.

(** [{ ...w, ...updates }] *)
Definition spread (w : Word) (u : Updates) : Word :=
  {| id := override (id w) (u_id u);
     text := override (text w) (u_text u);
     nativeLang := override (nativeLang w) (u_nativeLang u);
     learningLang := override (learningLang w) (u_learningLang u);
     pronunciation := override (pronunciation w) (u_pronunciation u);
     partOfSpeech := overrideOptional (partOfSpeech w) (u_partOfSpeech u);
     definitionNative := override (definitionNative w) (u_definitionNative u);
     definitionLearning :=
       override (definitionLearning w) (u_definitionLearning u);
     definitionEnglish :=
       override (definitionEnglish w) (u_definitionEnglish u);
     exampleSentenceLearning :=
       override (exampleSentenceLearning w) (u_exampleSentenceLearning u);
     exampleSentenceNative :=
       override (exampleSentenceNative w) (u_exampleSentenceNative u);
     vibeCheck := override (vibeCheck w) (u_vibeCheck u);
     imageUrl := override (imageUrl w) (u_imageUrl u);
     createdAt := override (createdAt w) (u_createdAt u);
     meanings := overrideOptional (meanings w) (u_meanings u);
     groups := overrideOptional (groups w) (u_groups u) |}.

(** [a === b] on strings. *)
Definition str_eqb : jsstring -> jsstring -> bool := Stories.str_eqb.

(** App.tsx:37-39 *)
Definition handleAddWord (word : Word) (prev : list Word) : list Word :=
  word :: prev.

(** App.tsx:41-43 *)
Definition handleUpdateWord (i : jsstring) (updates : Updates)
           (prev : list Word) : list Word :=
  map (fun w => if str_eqb (id w) i then spread w updates else w) prev.

(** App.tsx:45-47 *)
Definition handleRemoveWord (i : jsstring) (prev : list Word) : list Word :=
  filter (fun w => negb (str_eqb (id w) i)) prev.

(** *** Groups (VocabularyList.tsx:62-107) *)

(** [{ groups: g }] *)
Definition groupsUpdate (g : list jsstring) : Updates :=
  {| u_id := None; u_text := None; u_nativeLang := None;
     u_learningLang := None; u_pronunciation := None; u_partOfSpeech := None;
     u_definitionNative := None; u_definitionLearning := None;
     u_definitionEnglish := None; u_exampleSentenceLearning := None;
     u_exampleSentenceNative := None; u_vibeCheck := None;
     u_imageUrl := None; u_createdAt := None; u_meanings := None;
     u_groups := Some g |}.

(** [array.includes(x)], and [set.has(x)] for a [Set] kept as the list of
    its elements in insertion order. *)
Definition includes (x : jsstring) (l : list jsstring) : bool :=
  existsb (str_eqb x) l.

(** [word.groups || []] *)
Definition groupsOf (w : Word) : list jsstring :=
  match groups w with Some g => g | None => [] end.

(** [w.groups?.includes(g)] as a condition. *)
Definition inGroup (g : jsstring) (w : Word) : bool :=
  match groups w with Some gs => includes g gs | None => false end.

(** [set.add(x)] *)
Definition add (x : jsstring) (set : list jsstring) : list jsstring :=
  if includes x set then set else set ++ [x].

(** [a < b] on strings: the order of the code units. *)
Fixpoint str_ltb (a b : jsstring) : bool :=
  match a, b with
  | _, [] => false
  | [], _ :: _ => true
  | x :: a', y :: b' => (x <? y)%N || ((x =? y)%N && str_ltb a' b')
  end.

(** [Array.prototype.sort()] without a comparison function, on strings:
    ascending in the order of the code units.  The elements sorted here
    are those of a [Set], no two equal, so the result does not depend on
    the algorithm; insertion is used. *)
Fixpoint insert (g : jsstring) (sorted : list jsstring) : list jsstring :=
  match sorted with
  | [] => [g]
  | h :: rest => if str_ltb g h then g :: sorted else h :: insert g rest
  end.

Definition sort (l : list jsstring) : list jsstring :=
  fold_right insert [] l.

(** Lines 62-66 (and PracticeMode.tsx:48-52):
<<
  const groups = new Set<string>();
  words.forEach(w => w.groups?.forEach(g => groups.add(g)));
  return Array.from(groups).sort();
>> *)
Definition groupSet (words : list Word) : list jsstring :=
  fold_left (fun set w => fold_left (fun s g => add g s) (groupsOf w) set)
            words [].

Definition allGroups (words : list Word) : list jsstring :=
  sort (groupSet words).

(** Lines 68-71 (the same test at PracticeMode.tsx:63 and 160):
<<
  if (activeGroupFilter === 'All') return words;
  return words.filter(w => w.groups?.includes(activeGroupFilter));
>> *)
Definition filteredWords (activeGroupFilter : jsstring) (words : list Word)
  : list Word :=
  if str_eqb activeGroupFilter (js "All") then words
  else filter (inGroup activeGroupFilter) words.

(** Lines 76-81, [selectedWords] being a [Set]. *)
Definition toggleSelection (i : jsstring) (selectedWords : list jsstring)
  : list jsstring :=
  if includes i selectedWords
  then filter (fun x => negb (str_eqb x i)) selectedWords
  else selectedWords ++ [i].

(** The body of the [forEach] at lines 87-95, for one selected id.  The
    word is looked up in [words], the list the component was rendered
    with; [onUpdateWord] acts on the state of the application, [prev]. *)
Definition addToGroup (words : list Word) (newGroupName : jsstring)
           (prev : list Word) (wordId : jsstring) : list Word :=
  match find (fun w => str_eqb (id w) wordId) words with
  | Some word =>
      let currentGroups := groupsOf word in
      if includes newGroupName currentGroups then prev
      else handleUpdateWord wordId
             (groupsUpdate (currentGroups ++ [newGroupName])) prev
  | None => prev
  end.

(** Lines 84-99: the vocabulary after [handleAddToGroup]. *)
Definition handleAddToGroup (newGroupName : jsstring)
           (selectedWords : list jsstring) (words : list Word) : list Word :=
  if truthy (trim newGroupName)
  then fold_left (addToGroup words newGroupName) selectedWords words
  else words.

(** Lines 101-107: the vocabulary after [handleRemoveFromGroup]. *)
Definition handleRemoveFromGroup (wordId group : jsstring)
           (words : list Word) : list Word :=
  match find (fun w => str_eqb (id w) wordId) words with
  | Some word =>
      match groups word with
      | Some gs =>
          handleUpdateWord wordId
            (groupsUpdate (filter (fun g => negb (str_eqb g group)) gs)) words
      | None => words
      end
  | None => words
  end.

(** What one call of [handleAddToGroup] does to a word. *)
Definition grouped (newGroupName : jsstring) (selectedWords : list jsstring)
           (w : Word) : Word :=
  if includes (id w) selectedWords && negb (includes newGroupName (groupsOf w))
  then spread w (groupsUpdate (groupsOf w ++ [newGroupName]))
  else w.

(** *** Adding words (WordSearch.tsx:50-129, VocabularyList.tsx:264-310) *)

(** [Omit<Word, 'id' | 'imageUrl' | 'createdAt'>], what
    [lookupWordDetails] resolves to. *)
Record WordDetails : Type := {
  d_text : jsstring;
  d_nativeLang : jsstring;
  d_learningLang : jsstring;
  d_pronunciation : jsstring;
  d_partOfSpeech : option jsstring;
  d_definitionNative : jsstring;
  d_definitionLearning : jsstring;
  d_definitionEnglish : jsstring;
  d_exampleSentenceLearning : jsstring;
  d_exampleSentenceNative : jsstring;
  d_vibeCheck : jsstring;
  d_meanings : option (list WordMeaning);
  d_groups : option (list jsstring)
}.

(** WordSearch.tsx:60-65, the word shown as the result of a search:
<<
  const newWord: Word = {
    id: crypto.randomUUID(), imageUrl: null, createdAt: Date.now(),
    ...details
  };
>> *)
Definition searchResult (uuid : jsstring) (now : Z) (details : WordDetails)
  : Word :=
  {| id := uuid; imageUrl := None; createdAt := now;
     text := d_text details; nativeLang := d_nativeLang details;
     learningLang := d_learningLang details;
     pronunciation := d_pronunciation details;
     partOfSpeech := d_partOfSpeech details;
     definitionNative := d_definitionNative details;
     definitionLearning := d_definitionLearning details;
     definitionEnglish := d_definitionEnglish details;
     exampleSentenceLearning := d_exampleSentenceLearning details;
     exampleSentenceNative := d_exampleSentenceNative details;
     vibeCheck := d_vibeCheck details;
     meanings := d_meanings details; groups := d_groups details |}.

(** The object parsed from the answer of the model to a look-up.  It is
    taken to follow the response schema of the request: the keys it has
    hold strings. *)
Record LookupData : Type := {
  data_pronunciation : jsstring;
  data_meanings : option (list WordMeaning)
}.

Definition unknownMeaning : WordMeaning :=
  {| m_partOfSpeech := js "?"; m_definitionNative := js "?";
     m_definitionLearning := js "?"; m_definitionEnglish := js "?";
     m_exampleSentenceLearning := js "?"; m_exampleSentenceNative := js "?";
     m_vibeCheck := js "?" |}.

(** What [lookupWordDetails] returns for an answer (services/
    geminiService, src/App.tsx:196-282):
<<
  const primaryMeaning = data.meanings?.[0] || { partOfSpeech: '?', ... };
  return {
    text: term, nativeLang, learningLang,
    pronunciation: data.pronunciation,
    partOfSpeech: primaryMeaning.partOfSpeech, ...
    meanings: data.meanings || [primaryMeaning]
  };
>> *)
Definition lookupWordDetails (term nativeLang learningLang : jsstring)
           (data : LookupData) : WordDetails :=
  let primaryMeaning :=
    match data_meanings data with
    | Some (m :: _) => m
    | _ => unknownMeaning
    end in
  {| d_text := term; d_nativeLang := nativeLang;
     d_learningLang := learningLang;
     d_pronunciation := data_pronunciation data;
     d_partOfSpeech := Some (m_partOfSpeech primaryMeaning);
     d_definitionNative := m_definitionNative primaryMeaning;
     d_definitionLearning := m_definitionLearning primaryMeaning;
     d_definitionEnglish := m_definitionEnglish primaryMeaning;
     d_exampleSentenceLearning := m_exampleSentenceLearning primaryMeaning;
     d_exampleSentenceNative := m_exampleSentenceNative primaryMeaning;
     d_vibeCheck := m_vibeCheck primaryMeaning;
     d_meanings := Some (match data_meanings data with
                         | Some ms => ms
                         | None => [primaryMeaning]
                         end);
     d_groups := None |}.

(** WordSearch.tsx:50-79: [result] after [handleSearch], before the
    image asked for at line 70 arrives; [answer] is [None] when the
    look-up throws. *)
Definition handleSearch (uuid : jsstring) (now : Z)
           (nativeLang learningLang searchTerm : jsstring)
           (answer : option LookupData) (result : option Word)
  : option Word :=
  if truthy (trim searchTerm) then
    match answer with
    | Some data =>
        Some (searchResult uuid now
                (lookupWordDetails searchTerm nativeLang learningLang data))
    | None => None
    end
  else result.

(** The values [lookedUpWord] has while the button that saves it is
    rendered (lines 714-744): the word of the vocabulary found at line
    269, set at line 272, or [{ ...details, id: i }], set at line 283.
    The third value, [{ text: cleanText }] (line 279), is held only
    while [isLookingUp] is true, when the button is not rendered. *)
Inductive LookedUp : Type :=
| Existing (word : Word)
| Found (i : jsstring) (details : WordDetails).

Definition lookedUpText (l : LookedUp) : jsstring :=
  match l with
  | Existing word => text word
  | Found _ details => d_text details
  end.

(** [s || ''] *)
Definition orEmpty (s : jsstring) : jsstring :=
  if truthy s then s else [].

(** Lines 295-307:
<<
  const newWord: Word = {
      id: crypto.randomUUID(),
      imageUrl: null,
      createdAt: Date.now(),
      ...lookedUpWord as Omit<Word, 'id' | 'createdAt' | 'imageUrl'>,
      definitionNative: lookedUpWord.definitionNative || '',
      ...
  };
>>
    The keys of [lookedUpWord] come after [id], [imageUrl] and
    [createdAt] and replace them where it has them, as it has [id]: the
    cast changes the type, not the object. *)
Definition newWord (uuid : jsstring) (now : Z) (l : LookedUp) : Word :=
  match l with
  | Existing word =>
      {| id := id word; imageUrl := imageUrl word;
         createdAt := createdAt word;
         text := text word; nativeLang := nativeLang word;
         learningLang := learningLang word;
         partOfSpeech := partOfSpeech word;
         meanings := meanings word; groups := groups word;
         definitionNative := orEmpty (definitionNative word);
         definitionLearning := orEmpty (definitionLearning word);
         definitionEnglish := orEmpty (definitionEnglish word);
         exampleSentenceLearning := orEmpty (exampleSentenceLearning word);
         exampleSentenceNative := orEmpty (exampleSentenceNative word);
         pronunciation := orEmpty (pronunciation word);
         vibeCheck := orEmpty (vibeCheck word) |}
  | Found i details =>
      {| id := i; imageUrl := None; createdAt := now;
         text := d_text details; nativeLang := d_nativeLang details;
         learningLang := d_learningLang details;
         partOfSpeech := d_partOfSpeech details;
         meanings := d_meanings details; groups := d_groups details;
         definitionNative := orEmpty (d_definitionNative details);
         definitionLearning := orEmpty (d_definitionLearning details);
         definitionEnglish := orEmpty (d_definitionEnglish details);
         exampleSentenceLearning :=
           orEmpty (d_exampleSentenceLearning details);
         exampleSentenceNative := orEmpty (d_exampleSentenceNative details);
         pronunciation := orEmpty (d_pronunciation details);
         vibeCheck := orEmpty (d_vibeCheck details) |}
  end.

Section CaseFolding.

(** [String.prototype.toLowerCase] *)
Variable toLowerCase : jsstring -> jsstring.

(** [words.some(w => w.text.toLowerCase() === t.toLowerCase())] *)
Definition known (t : jsstring) (words : list Word) : bool :=
  existsb (fun w => str_eqb (toLowerCase (text w)) (toLowerCase t)) words.

(** VocabularyList.tsx:264-291: [lookedUpWord] once [handleWordClick]
    is over; [answer] is [None] when the look-up throws.
<<
  const cleanText = text.replace(/[\[\].,!?]/g, '').trim();
  if (!cleanText) return;
  const existingWord = words.find(w =>
      w.text.toLowerCase() === cleanText.toLowerCase());
  if (existingWord) { setLookedUpWord(existingWord); ...; return; }
  ...
  try {
      const details = await lookupWordDetails(cleanText, ...);
      setLookedUpWord({ ...details, id: 'temp' });
  } catch (err) { ...; setLookedUpWord(null); ... }
>> *)
Definition handleWordClick (nativeLang learningLang clicked : jsstring)
           (words : list Word) (answer : option LookupData)
           (lookedUpWord : option LookedUp) : option LookedUp :=
  let cleanText := lookupText clicked in
  if truthy cleanText then
    match find (fun w => str_eqb (toLowerCase (text w))
                                 (toLowerCase cleanText)) words with
    | Some existingWord => Some (Existing existingWord)
    | None =>
        match answer with
        | Some data =>
            Some (Found (js "temp")
                    (lookupWordDetails cleanText nativeLang learningLang
                                       data))
        | None => None
        end
    end
  else lookedUpWord.

(** WordSearch.tsx:118-129: the vocabulary after [handleAdd], [result]
    being the word on display. *)
Definition handleAdd (result : option Word) (existingWords : list Word)
  : list Word :=
  match result with
  | Some word =>
      if known (text word) existingWords then existingWords
      else handleAddWord word existingWords
  | None => existingWords
  end.

(** VocabularyList.tsx:293-310: the vocabulary after
    [handleSaveLookedUpWord]. *)
Definition handleSaveLookedUpWord (uuid : jsstring) (now : Z)
           (lookedUpWord : option LookedUp) (words : list Word) : list Word :=
  match lookedUpWord with
  | Some l =>
      if truthy (lookedUpText l) && negb (known (lookedUpText l) words)
      then handleAddWord (newWord uuid now l) words
      else words
  | None => words
  end.

(** What the views do to the vocabulary. *)
Inductive Op : Type :=
| SearchAdd (result : option Word)
| LookupSave (uuid : jsstring) (now : Z) (lookedUpWord : option LookedUp)
| Remove (i : jsstring)
| AddToGroup (newGroupName : jsstring) (selectedWords : list jsstring)
| RemoveFromGroup (wordId group : jsstring).

Definition apply (words : list Word) (op : Op) : list Word :=
  match op with
  | SearchAdd result => handleAdd result words
  | LookupSave uuid now l => handleSaveLookedUpWord uuid now l words
  | Remove i => handleRemoveWord i words
  | AddToGroup g sel => handleAddToGroup g sel words
  | RemoveFromGroup i g => handleRemoveFromGroup i g words
  end.

Definition applyAll (words : list Word) (ops : list Op) : list Word :=
  fold_left apply ops words.

(** The texts of the vocabulary as the guards compare them. *)
Definition keys (words : list Word) : list jsstring :=
  map (fun w => toLowerCase (text w)) words.

End CaseFolding.

(** A case folding for the examples: the letters A-Z only. *)
Definition asciiLower (s : jsstring) : jsstring :=
  map (fun c => if ((65 <=? c) && (c <=? 90))%N then (c + 32)%N else c) s.

(** Data for the examples. *)
Definition details (t : string) : WordDetails :=
  {| d_text := js t; d_nativeLang := js "Chinese"%string;
     d_learningLang := js "English"%string; d_pronunciation := js "p"%string;
     d_partOfSpeech := Some (js "n."%string);
     d_definitionNative := js "dn"%string;
     d_definitionLearning := js "dl"%string;
     d_definitionEnglish := js "de"%string;
     d_exampleSentenceLearning := js "el"%string;
     d_exampleSentenceNative := js "en"%string;
     d_vibeCheck := js "v"%string;
     d_meanings := None; d_groups := None |}.

Definition word (i t : string) (g : option (list jsstring)) : Word :=
  spread (searchResult (js i) 0 (details t))
         {| u_id := None; u_text := None; u_nativeLang := None;
            u_learningLang := None; u_pronunciation := None;
            u_partOfSpeech := None; u_definitionNative := None;
            u_definitionLearning := None; u_definitionEnglish := None;
            u_exampleSentenceLearning := None;
            u_exampleSentenceNative := None; u_vibeCheck := None;
            u_imageUrl := None; u_createdAt := None; u_meanings := None;
            u_groups := g |}.

End Words.

(* ================================================================== *)
(** ** Drafts and library (VocabularyList.tsx:73-74, 110-165;
       generateStoryFromWords of services/geminiService,
       src/App.tsx:380-421) *)

Module Library.

Import Segmenter Stories.

(** Line 73: [stories.find(s => !s.isSaved)] *)
Definition currentDraftStory (stories : list Story) : option Story :=
  find draft stories.

(** [Array.prototype.sort] with [(a, b) => b.createdAt - a.createdAt]:
    newest first.  The sort is stable, so its result is determined; here
    by insertion, an element going in front of the first one that is not
    newer than it. *)
Fixpoint insertStory (s : Story) (sorted : list Story) : list Story :=
  match sorted with
  | [] => [s]
  | h :: rest =>
      if (createdAt s <? createdAt h)%Z then h :: insertStory s rest
      else s :: sorted
  end.

Definition newestFirst (l : list Story) : list Story :=
  fold_right insertStory [] l.

(** Line 74: [stories.filter(s => s.isSaved).sort(...)] *)
Definition savedStories (stories : list Story) : list Story :=
  newestFirst (filter saved stories).

(** Lines 158-165: the collection after [handleSaveStory], and the story
    handed to the reader, which is looked up in the list the component
    was rendered with:
<<
  onUpdateStory(storyId, { isSaved: true });
  setStoryTab('library');
  setViewingStory(stories.find(s => s.id === storyId) || null);
>> *)
Definition handleSaveStory (storyId : jsstring) (stories : list Story)
  : list Story * option Story :=
  (handleUpdateStory storyId markSaved stories,
   find (fun s => str_eqb (id s) storyId) stories).

(** The object parsed from the answer of the model: each key may be
    missing. *)
Record StoryData : Type := {
  data_title : option jsstring;
  data_contentLearning : option jsstring;
  data_contentNative : option jsstring
}.

(** [Omit<Story, 'id' | 'createdAt'>] as [generateStoryFromWords] returns
    it: no [isSaved]. *)
Record StoryText : Type := {
  t_title : jsstring;
  t_contentLearning : jsstring;
  t_contentNative : jsstring;
  t_wordsUsed : list jsstring;
  t_difficulty : Difficulty
}.

(** [v || d] for a string that may be missing. *)
Definition orElse (v : option jsstring) (d : jsstring) : jsstring :=
  match v with
  | Some s => if truthy s then s else d
  | None => d
  end.

(** The result of [generateStoryFromWords] from what the model answered:
<<
  return {
    title: data.title || "New Story",
    contentLearning: data.contentLearning || "",
    contentNative: data.contentNative || "",
    wordsUsed: words.map(w => w.id),
    difficulty
  };
>> *)
Definition generateStoryFromWords (words : list Words.Word)
           (difficulty : Difficulty) (data : StoryData) : StoryText :=
  {| t_title := orElse (data_title data) (js "New Story");
     t_contentLearning := orElse (data_contentLearning data) [];
     t_contentNative := orElse (data_contentNative data) [];
     t_wordsUsed := map Words.id words;
     t_difficulty := difficulty |}.

(** Lines 118-123 and 143-148:
<<
  const newStory: Story = {
      id: crypto.randomUUID(), createdAt: Date.now(), isSaved: false,
      ...storyData
  };
>> *)
Definition newStory (uuid : jsstring) (now : Z) (storyData : StoryText)
  : Story :=
  {| id := uuid; createdAt := now; isSaved := Some false;
     title := t_title storyData;
     contentLearning := t_contentLearning storyData;
     contentNative := t_contentNative storyData;
     wordsUsed := t_wordsUsed storyData;
     difficulty := t_difficulty storyData |}.

(** Lines 110-130: the collection after [handleGenerateStory].  [answer]
    is what the model answered, [None] when the request or the parsing of
    its answer fails (the handler catches and alerts); [stories] is the
    collection when the answer arrives. *)
Definition handleGenerateStory (uuid : jsstring) (now : Z)
           (difficulty : Difficulty) (selectedWords : list jsstring)
           (words : list Words.Word) (answer : option StoryData)
           (stories : list Story) : list Story :=
  match selectedWords with
  | [] => stories                                              (* 111 *)
  | _ :: _ =>
      let selectedWordObjects :=
        filter (fun w => Words.includes (Words.id w) selectedWords) words in
      match answer with
      | Some data =>
          handleAddStory
            (newStory uuid now
               (generateStoryFromWords selectedWordObjects difficulty data))
            stories
      | None => stories
      end
  end.

(** Lines 132-156: the collection after [handleRegenerateStory]. *)
Definition handleRegenerateStory (uuid : jsstring) (now : Z)
           (difficulty : Difficulty) (story : Story)
           (words : list Words.Word) (answer : option StoryData)
           (stories : list Story) : list Story :=
  let usedWords :=
    filter (fun w => Words.includes (Words.id w) (wordsUsed story)) words in
  match usedWords with
  | [] => stories                                              (* 136-139 *)
  | _ :: _ =>
      match answer with
      | Some data =>
          handleAddStory
            (newStory uuid now
               (generateStoryFromWords usedWords difficulty data))
            stories
      | None => stories
      end
  end.

(** A story for the examples. *)
Definition at_ (i : string) (time : Z) (s : option bool) : Story :=
  {| id := js i; title := js i; contentLearning := js "A [cat]."%string;
     contentNative := js "n"%string; wordsUsed := [js "1"%string];
     createdAt := time; difficulty := Beginner; isSaved := s |}.

End Library.

(* ================================================================== *)
(** ** Practice sessions (PracticeMode.tsx:20-28, 62-102, 153-156) *)

Module Practice.

Import Words.

(** [fcPhase], line 20. *)
Inductive FcPhase : Type := setup | playing | complete.

(** The state of the flashcard mode, lines 20-25. *)
Record Flashcards : Type := {
  fcPhase : FcPhase;
  fcGroup : jsstring;
  fcShuffle : bool;
  fcQueue : list Word;
  fcIndex : nat;
  isFlipped : bool
}.

Definition initial : Flashcards :=
  {| fcPhase := setup; fcGroup := js "All"; fcShuffle := false;
     fcQueue := []; fcIndex := 0; isFlipped := false |}.

(** [list[i] = x] for an index of the array. *)
Fixpoint assign {A} (l : list A) (i : nat) (x : A) : list A :=
  match l, i with
  | [], _ => []
  | _ :: l', O => x :: l'
  | y :: l', S i' => y :: assign l' i' x
  end.

(** [[list[i], list[j]] = [list[j], list[i]]]: both elements are read,
    then [list[i]] and [list[j]] are written.  With an index outside the
    array JavaScript would read [undefined] and grow the array; the
    result is then [None].  The loop never gets there: its indices are
    [j <= i < list.length]. *)
Definition swap {A} (l : list A) (i j : nat) : option (list A) :=
  match nth_error l i, nth_error l j with
  | Some a, Some b => Some (assign (assign l i b) j a)
  | _, _ => None
  end.

(** A binary64 number that is finite and not negative, as a significand
    and a power of two: its value is [significand / 2 ^ scale]. *)
Record Float64 : Type := { significand : Z; scale : Z }.

(** The results of [Math.random()]: the binary64 numbers in [[0, 1)].
    These are the [m / 2 ^ e] with a significand [m] of at most 53 bits,
    [e] at most 1074 (the least positive binary64 number is [2 ^ -1074])
    and [m < 2 ^ e]. *)
Definition unit64 (r : Float64) : bool :=
  ((0 <=? significand r) && (significand r <? 2 ^ 53)
   && (0 <=? scale r) && (scale r <=? 1074)
   && (significand r <? 2 ^ scale r))%Z.

(** [a / 2 ^ d] rounded to a whole number, to nearest, ties to even, for
    [d > 0]. *)
Definition roundNearestEven (a d : Z) : Z :=
  let q := Z.shiftr a d in
  let rest := (a - Z.shiftl q d)%Z in
  let halfway := Z.shiftl 1 (d - 1) in
  if ((halfway <? rest) || ((rest =? halfway) && Z.odd q))%Z
  then (q + 1)%Z else q.

(** [r * n] in binary64, for [r] in [[0, 1)] and a whole number [n >= 1]:
    the exact product [m * n / 2 ^ e] rounded to 53 significant bits,
    with [d] the number of bits beyond these.  The product is a multiple
    of [2 ^ -1074] and less than [n]: there is no underflow and no
    overflow.  A significand rounded up to [2 ^ 53] is left as it is. *)
Definition multiply (r : Float64) (n : Z) : Float64 :=
  let a := (significand r * n)%Z in
  let d := (Z.log2 a + 1 - 53)%Z in
  if (d <=? 0)%Z then {| significand := a; scale := scale r |}
  else {| significand := roundNearestEven a d; scale := (scale r - d)%Z |}.

(** [Math.floor(x)]; a shift by a negative number goes to the left. *)
Definition floor (x : Float64) : Z := Z.shiftr (significand x) (scale x).

(** [Math.floor(r * (i + 1))] for [r] the result of [Math.random()]; the
    sum [i + 1] of the loop is a whole number and exact. *)
Definition randomIndex (r : Float64) (i : nat) : nat :=
  Z.to_nat (floor (multiply r (Z.of_nat (i + 1)))).

(** Lines 72-76, the loop from index [i] down to 1; [random k] is the
    result of the [k]-th call of [Math.random()]:
<<
  for (let i = list.length - 1; i > 0; i--) {
      const j = Math.floor(Math.random() * (i + 1));
      [list[i], list[j]] = [list[j], list[i]];
  }
>> *)
Fixpoint shuffleFrom {A} (random : nat -> Float64) (k i : nat)
         (items : list A)
  : option (list A) :=
  match i with
  | O => Some items
  | S i' =>
      match swap items i (randomIndex (random k) i) with
      | Some items' => shuffleFrom random (S k) i' items'
      | None => None
      end
  end.

Definition shuffle {A} (random : nat -> Float64) (items : list A)
  : option (list A) :=
  shuffleFrom random 0 (length items - 1) items.

(** Lines 62-83; with an empty list the handler alerts and returns. *)
Definition startFlashcardSession (random : nat -> Float64)
           (words : list Word)
           (st : Flashcards) : option Flashcards :=
  let list :=
    if str_eqb (fcGroup st) (js "All") then words
    else filter (inGroup (fcGroup st)) words in
  match list with
  | [] => Some st
  | _ :: _ =>
      match (if fcShuffle st then shuffle random list else Some list) with
      | Some queue =>
          Some {| fcPhase := playing; fcGroup := fcGroup st;
                  fcShuffle := fcShuffle st; fcQueue := queue;
                  fcIndex := 0; isFlipped := false |}
      | None => None
      end
  end.

(** Lines 85-92:
<<
  setIsFlipped(false);
  if (fcIndex < fcQueue.length - 1) { setFcIndex(prev => prev + 1); }
  else { setFcPhase('complete'); }
>> *)
Definition nextCard (st : Flashcards) : Flashcards :=
  if (Z.of_nat (fcIndex st) <? Z.of_nat (length (fcQueue st)) - 1)%Z then
    {| fcPhase := fcPhase st; fcGroup := fcGroup st;
       fcShuffle := fcShuffle st; fcQueue := fcQueue st;
       fcIndex := fcIndex st + 1; isFlipped := false |}
  else
    {| fcPhase := complete; fcGroup := fcGroup st;
       fcShuffle := fcShuffle st; fcQueue := fcQueue st;
       fcIndex := fcIndex st; isFlipped := false |}.

(** Lines 98-102. *)
Definition endSession (st : Flashcards) : Flashcards :=
  {| fcPhase := setup; fcGroup := fcGroup st; fcShuffle := fcShuffle st;
     fcQueue := []; fcIndex := 0; isFlipped := isFlipped st |}.

(** What the user does in the flashcard mode: the buttons of lines 252,
    268, 274, 284, 308, 352, 355, 374 and 381.  [restartSession] (line
    94) is [startFlashcardSession]. *)
Inductive FcEvent : Type :=
| SetGroup (g : jsstring)
| SetShuffle (b : bool)
| Start (random : nat -> Float64)
| Flip
| Next
| Restart (random : nat -> Float64)
| End_.

Definition fcStep (words : list Word) (st : Flashcards) (e : FcEvent)
  : option Flashcards :=
  match e with
  | SetGroup g =>
      Some {| fcPhase := fcPhase st; fcGroup := g; fcShuffle := fcShuffle st;
              fcQueue := fcQueue st; fcIndex := fcIndex st;
              isFlipped := isFlipped st |}
  | SetShuffle b =>
      Some {| fcPhase := fcPhase st; fcGroup := fcGroup st; fcShuffle := b;
              fcQueue := fcQueue st; fcIndex := fcIndex st;
              isFlipped := isFlipped st |}
  | Start random | Restart random => startFlashcardSession random words st
  | Flip =>
      Some {| fcPhase := fcPhase st; fcGroup := fcGroup st;
              fcShuffle := fcShuffle st; fcQueue := fcQueue st;
              fcIndex := fcIndex st; isFlipped := negb (isFlipped st) |}
  | Next => Some (nextCard st)
  | End_ => Some (endSession st)
  end.

Fixpoint fcRun (words : list Word) (st : Flashcards) (es : list FcEvent)
  : option Flashcards :=
  match es with
  | [] => Some st
  | e :: es' =>
      match fcStep words st e with
      | Some st' => fcRun words st' es'
      | None => None
      end
  end.

(** [Math.random()] returns a number in [[0, 1)]. *)
Definition unitInterval (random : nat -> Float64) : Prop :=
  forall k, unit64 (random k) = true.

Definition wellFormed (e : FcEvent) : Prop :=
  match e with
  | Start random | Restart random => unitInterval random
  | _ => True
  end.

(** Line 197: [fcQueue[fcIndex]], the card on display. *)
Definition flashcardWord (st : Flashcards) : option Word :=
  nth_error (fcQueue st) (fcIndex st).

(** Lines 153-156, [setCurrentIndex((prev) => (prev + 1) % words.length)];
    [None] is NaN, the remainder of a division by 0. *)
Definition nextPronunciationWord (words : list Word)
           (currentIndex : option nat) : option nat :=
  match currentIndex, length words with
  | Some prev, S n => Some ((prev + 1) mod S n)
  | _, _ => None
  end.

(** Line 194: [words[currentIndex]] *)
Definition pronunciationWord (words : list Word)
           (currentIndex : option nat) : option Word :=
  match currentIndex with
  | Some i => nth_error words i
  | None => None
  end.

(** [quizAnswers], line 34: an object with the indices of the questions
    as keys; absent keys read as [undefined]. *)
Definition QuizAnswers : Type := nat -> option jsstring.

(** [{}], lines 34 and 170. *)
Definition noAnswers : QuizAnswers := fun _ => None.

(** [!!quizAnswers[idx]], line 561. *)
Definition showResult (quizAnswers : QuizAnswers) (idx : nat) : bool :=
  match quizAnswers idx with
  | Some s => Segmenter.truthy s
  | None => false
  end.

(** The click on an option of question [idx], line 580:
<<
  onClick={() => !showResult &&
                 setQuizAnswers(prev => ({...prev, [idx]: opt}))}
>> *)
Definition chooseOption (quizAnswers : QuizAnswers) (click : nat * jsstring)
  : QuizAnswers :=
  let '(idx, opt) := click in
  if showResult quizAnswers idx then quizAnswers
  else fun k => if Nat.eqb k idx then Some opt else quizAnswers k.

Definition chooseAll (quizAnswers : QuizAnswers)
           (clicks : list (nat * jsstring)) : QuizAnswers :=
  fold_left chooseOption clicks quizAnswers.

(** What holds of the flashcard mode at any time. *)
Definition CardReady (words : list Word) (st : Flashcards) : Prop :=
  (fcPhase st = playing -> fcIndex st < length (fcQueue st)) /\
  (forall w, In w (fcQueue st) -> In w words).

(** Data for the examples. *)
Definition half (k : nat) : Float64 := {| significand := 1; scale := 1 |}.

(** A number just below 4/7: seven times it is [4 - 2 ^ -52] exactly,
    and 4 in binary64. *)
Definition belowFourSevenths : Float64 :=
  {| significand := 2573485501354569; scale := 52 |}.

Definition three : list Word :=
  [word "1" "cat" (Some [js "pets"]); word "2" "sun" None;
   word "3" "dog" (Some [js "pets"])].

End Practice.

(* ================================================================== *)
(** ** The speaker button (generateSpeech of services/geminiService,
       src/App.tsx:423-446; decodeBase64 and playAudio of utils/audioUtils,
       src/utils/translations.ts:112-120 and 153-181; WordSearch.tsx:92-97,
       PracticeMode.tsx:54-58) *)

Module Speaker.

Import Segmenter Pcm.

(** The part of the answer of the model that [generateSpeech] reads:
    [response.candidates?.[0]?.content?.parts?.[0]?.inlineData?.data].
    Every link of the chain may be missing. *)
Record InlineData : Type := { data : option jsstring }.
Record Part : Type := { inlineData : option InlineData }.
Record Content : Type := { parts : option (list Part) }.
Record Candidate : Type := { content : option Content }.
Record Response : Type := { candidates : option (list Candidate) }.

Definition base64Audio (response : Response) : option jsstring :=
  match candidates response with
  | Some (candidate :: _) =>
      match content candidate with
      | Some c =>
          match parts c with
          | Some (part :: _) =>
              match inlineData part with
              | Some d => data d
              | None => None
              end
          | _ => None
          end
      | None => None
      end
  | _ => None
  end.

(** What can be observed of a press of the button. *)
Inductive Obs : Type :=
| TtsFailed                        (* console.error("TTS failed", e) *)
| ContextCreated                   (* new AudioContext({ sampleRate }) *)
| SourceStarted (buffer : AudioBuffer)            (* source.start(0) *)
| PlayFailed                       (* console.error("Failed to play ...") *)
| Unhandled.                       (* a rejected promise nobody awaits *)

(** How the promise of an [async] function settles. *)
Inductive Promise (A : Type) : Type :=
| Resolves (a : A)
| Rejects.
Arguments Resolves {A} a.
Arguments Rejects {A}.

(** [generateSpeech] (App.tsx:423-446).  [client] tells whether
    [getClient()], that is [new GoogleGenAI({ apiKey: ... })] (line 194),
    returns; it is called before the [try], so what it throws rejects the
    promise.  [answer] is the answer of the model, [None] when the request
    fails.
<<
  const ai = getClient();
  try {
      const response = await ai.models.generateContent({...});
      const base64Audio = response.candidates?.[0]?....?.data;
      return base64Audio || null;
  } catch (e) {
      console.error("TTS failed", e);
      return null;
  }
>> *)
Definition generateSpeech (client : bool) (answer : option Response)
  : list Obs * Promise (option jsstring) :=
  if client then
    match answer with
    | Some response =>
        ([], Resolves match base64Audio response with
                      | Some s => if truthy s then Some s else None
                      | None => None
                      end)
    | None => ([TtsFailed], Resolves None)
    end
  else ([], Rejects).

Section Platform.

(** [atob]: the characters of the result are below 256. *)
Variable atob : jsstring -> result jsstring.

(** Does [new AudioContext(...)] succeed, and what the [createBuffer] of
    the context it returns supports. *)
Variable device : bool.
Variable ctx : Limits.

(** [bytes[i] = binaryString.charCodeAt(i)] on a [Uint8Array]: the code
    modulo 256. *)
Definition toUint8 (c : N) : byte :=
  match Byte.of_N (c mod 256) with
  | Some b => b
  | None => x00
  end.

(** translations.ts:112-120 *)
Definition decodeBase64 (base64 : jsstring) : result (list byte) :=
  binaryString <- atob base64 ;;
  Ok (map toUint8 binaryString).

(** [playAudio(base64Audio)] as the buttons call it, without a context
    of their own (translations.ts:153-181): what is observed, and whether
    the promise is rejected.
<<
  try {
    const audioContext = existingContext || new (window.AudioContext ...)
    const bytes = decodeBase64(base64Audio);
    const audioBuffer =
      await decodeAudioData(bytes, audioContext, sampleRate, 1);
    ...
    source.start(0);
  } catch (error) {
    console.error("Failed to play audio", error);
    throw error;
  }
>> *)
Definition playAudio (base64Audio : jsstring) (sampleRate : Z)
  : list Obs * bool :=
  if device then
    match (bytes <- decodeBase64 base64Audio ;;
           decodeAudioData bytes ctx sampleRate 1) with
    | Ok audioBuffer => ([ContextCreated; SourceStarted audioBuffer], false)
    | Throw _ => ([ContextCreated; PlayFailed], true)
    end
  else ([PlayFailed], true).

(** [handlePlayAudio] (PracticeMode.tsx:54-58, WordSearch.tsx:92-97):
<<
  const audio = await generateSpeech(text);
  if (audio) playAudio(audio);
>>
    The handler is called from [onClick]: when [generateSpeech] rejects,
    so does the handler, and nobody handles it.  The promise of
    [playAudio] is dropped. *)
Definition handlePlayAudio (client : bool) (answer : option Response)
  : list Obs :=
  match generateSpeech client answer with
  | (log, Rejects) => log ++ [Unhandled]
  | (log, Resolves (Some base64)) =>
      let '(played, rejected) := playAudio base64 24000 in
      log ++ played ++ (if rejected then [Unhandled] else [])
  | (log, Resolves None) => log
  end.

End Platform.

(** Data for the examples. *)
Definition answerWith (payload : option jsstring) : option Response :=
  Some {| candidates :=
            Some [ {| content :=
                        Some {| parts :=
                                  Some [ {| inlineData :=
                                              Some {| data := payload |} |} ]
                             |} |} ] |}.

(** An [atob] for the examples: the text itself, refused when empty. *)
Definition plain (s : jsstring) : result jsstring :=
  match s with
  | [] => Throw InvalidCharacterError
  | _ => Ok s
  end.

End Speaker.

(* ================================================================== *)
(** ** The speech service in the playback loop (VocabularyList.tsx:233-238) *)

Module Narrator.

Import Segmenter Pcm Playback Speaker.

(** How [await generateSpeech(cleanText)] settles for one call, and what
    [decodeBase64] makes of the payload (lines 233 and 238).  A call is
    given by whether its client is built and by the answer of the
    model. *)
Definition settle (atob : jsstring -> result jsstring)
           (call : bool * option Response) : Speech :=
  match snd (generateSpeech (fst call) (snd call)) with
  | Rejects => Rejected
  | Resolves (Some base64) => Payload (decodeBase64 atob base64)
  | Resolves None => NoAudio
  end.

End Narrator.

(* ================================================================== *)
(** * Properties *)

(** ** Sentence segmenter *)

Section SegmenterFacts.

Import Segmenter.

Example split_hello :
  splitSentences (js "Hello world. How are you?")
  = [js "Hello world."; js "How are you?"].
Proof. reflexivity. Qed.

Example split_ellipsis :
  splitSentences (js "Wait... what?! Yes")
  = [js "Wait..."; js "what?!"; js "Yes"].
Proof. reflexivity. Qed.

(** A match never leaves more input than it was given. *)
Lemma plus_run_suffix (k : jsstring -> option jsstring) p :
  (forall s x, k s = Some x -> length x <= length s) ->
  forall s x, plus_run k p s = Some x -> length x < length s.
Proof.
  intros Hk s; induction s as [|c s IH]; simpl; intros x H; [discriminate|].
  destruct (p c); [|discriminate].
  destruct (plus_run k p s) as [r|] eqn:E.
  - injection H as <-. specialize (IH r eq_refl). lia.
  - apply Hk in H. lia.
Qed.

Lemma rmatch_suffix r :
  forall (k : jsstring -> option jsstring),
    (forall s x, k s = Some x -> length x <= length s) ->
    forall s x, rmatch r s k = Some x -> length x <= length s.
Proof.
  induction r as [p|p| |r1 IH1 r2 IH2|r1 IH1 r2 IH2]; simpl; intros k Hk s x H.
  - destruct s as [|c s]; [discriminate|].
    destruct (p c); [|discriminate]. apply Hk in H. simpl. lia.
  - apply plus_run_suffix in H; [lia|exact Hk].
  - destruct s; [|discriminate]. now apply Hk in H.
  - eapply IH1; [|exact H]. intros s' x'. now apply IH2.
  - destruct (rmatch r1 s k) eqn:E.
    + injection H as <-. eapply IH1; eauto.
    + eapply IH2; eauto.
Qed.

Lemma exec_here_suffix r s rest :
  exec_here r s = Some rest -> length rest <= length s.
Proof.
  apply rmatch_suffix. intros s' x [= <-]. lia.
Qed.

(** The rounds given to [scan] by [match_g] are enough: more change
    nothing. *)
Lemma scan_fuel r :
  forall f1 f2 s, length s < f1 -> length s < f2 ->
                  scan r f1 s = scan r f2 s.
Proof.
  induction f1 as [|f1 IH]; intros f2 s H1 H2; [lia|].
  destruct f2 as [|f2]; [lia|]. simpl.
  destruct (exec_here r s) as [rest|] eqn:E.
  - apply exec_here_suffix in E.
    destruct (length s - length rest) as [|n] eqn:En.
    + destruct s as [|c s]; [reflexivity|].
      f_equal. apply IH; simpl in *; lia.
    + f_equal. apply IH; lia.
  - destruct s as [|c s]; [reflexivity|]. apply IH; simpl in *; lia.
Qed.

(** *** Text without terminal punctuation *)

Lemma hasTerminal_false s :
  hasTerminal s = false -> forall c, In c s -> terminal c = false.
Proof.
  unfold hasTerminal. induction s as [|a s IH]; simpl; intros H c Hc.
  - contradiction.
  - apply orb_false_iff in H as [Ha Hs].
    destruct Hc as [<-|Hc]; auto.
Qed.

Lemma terminal_run_none (k : jsstring -> option jsstring) s :
  (forall c, In c s -> terminal c = false) -> plus_run k terminal s = None.
Proof.
  destruct s as [|c s]; simpl; intros H; [reflexivity|].
  now rewrite (H c (or_introl eq_refl)).
Qed.

(** The first alternative needs a terminal mark. *)
Lemma first_alternative_none (k : jsstring -> option jsstring) s :
  (forall c, In c s -> terminal c = false) ->
  plus_run (fun s' => plus_run k terminal s') nonterminal s = None.
Proof.
  induction s as [|c s IH]; simpl; intros H; [reflexivity|].
  destruct (nonterminal c); [|reflexivity].
  rewrite IH by auto. apply terminal_run_none; auto.
Qed.

(** The second alternative takes everything up to the end. *)
Lemma second_alternative_all s :
  s <> [] -> (forall c, In c s -> terminal c = false) ->
  plus_run (fun s' => rmatch Eoi s' Some) nonterminal s = Some [].
Proof.
  induction s as [|c s IH]; intros Hne H; [congruence|].
  change (plus_run (fun s' => rmatch Eoi s' Some) nonterminal (c :: s))
    with (if nonterminal c
          then match plus_run (fun s' => rmatch Eoi s' Some) nonterminal s with
               | Some r => Some r
               | None => rmatch Eoi s Some
               end
          else None).
  unfold nonterminal at 1. rewrite (H c (or_introl eq_refl)). cbn [negb].
  destruct s as [|d s]; [reflexivity|].
  rewrite IH; [reflexivity|discriminate|intros; apply H; now right].
Qed.

Lemma exec_here_no_terminal s :
  s <> [] -> (forall c, In c s -> terminal c = false) ->
  exec_here sentenceRe s = Some [].
Proof.
  intros Hne H. unfold exec_here, sentenceRe. simpl.
  rewrite first_alternative_none by exact H.
  now apply second_alternative_all.
Qed.

Lemma match_g_no_terminal s :
  s <> [] -> (forall c, In c s -> terminal c = false) ->
  match_g sentenceRe s = Some [s].
Proof.
  intros Hne H. unfold match_g.
  cbn [scan]. rewrite exec_here_no_terminal by assumption.
  cbn [length]. rewrite Nat.sub_0_r, firstn_all.
  destruct s as [|c s]; [congruence|]. reflexivity.
Qed.

Lemma truthy_false s : truthy s = false -> s = [].
Proof. destruct s; [reflexivity|discriminate]. Qed.

(** C7, as the code has it: text without terminal punctuation gives the
    trimmed text as its only sentence when it has a character other than
    whitespace, and no sentence at all when it is empty or whitespace
    only. *)
Theorem no_terminal_single_sentence (text : jsstring) :
  hasTerminal text = false ->
  splitSentences text = if truthy (trim text) then [trim text] else [].
Proof.
  intros H. unfold splitSentences.
  destruct (truthy text) eqn:Et.
  - rewrite match_g_no_terminal.
    + simpl. now destruct (truthy (trim text)).
    + intros ->. discriminate.
    + now apply hasTerminal_false.
  - apply truthy_false in Et. subst. reflexivity.
Qed.

Lemma no_terminal_single_sentence_witness :
  splitSentences (js "  no stop here ")
  = if truthy (trim (js "  no stop here "))
    then [trim (js "  no stop here ")] else [].
Proof. apply no_terminal_single_sentence. reflexivity. Defined.

(** C7 as stated fails on whitespace-only text: it has no terminal mark,
    and the segmenter returns no sentence rather than the one (empty)
    trimmed text. *)
Lemma blank_text_no_sentence :
  hasTerminal (js "   ") = false /\
  splitSentences (js "   ") = [] /\
  splitSentences (js "   ") <> [trim (js "   ")].
Proof. repeat split; discriminate. Qed.

(** C4 fails on the code: a terminal mark followed by a character that is
    neither whitespace nor the end makes the scan skip the sentence in
    front of it. *)
Theorem split_drops_text :
  hasTerminal (js "Hello.World.") = true /\
  splitSentences (js "Hello.World.") = [js "World."] /\
  nonWhitespace (concat (map trim (splitSentences (js "Hello.World."))))
  <> nonWhitespace (js "Hello.World.").
Proof. repeat split; discriminate. Qed.

Example split_drops_decimal :
  splitSentences (js "3.14 is pi.") = [js "14 is pi."].
Proof. reflexivity. Qed.

(** *** Text the expression reads without a gap *)

(** A greedy run takes the whole run when what follows can match. *)
Lemma plus_run_greedy (k : jsstring -> option jsstring) p n rest r :
  n <> [] -> forallb p n = true ->
  plus_run k p rest = None -> k rest = Some r ->
  plus_run k p (n ++ rest) = Some r.
Proof.
  intros Hne Hn Hrest Hk. induction n as [|c n IH]; [congruence|].
  simpl in Hn. apply andb_true_iff in Hn as [Hc Hn].
  simpl. rewrite Hc. destruct n as [|d n].
  - simpl. now rewrite Hrest.
  - rewrite IH; [reflexivity|discriminate|exact Hn].
Qed.

Lemma plus_run_stops (k : jsstring -> option jsstring) p s :
  match s with [] => True | c :: _ => p c = false end ->
  plus_run k p s = None.
Proof. destruct s as [|c s]; simpl; [reflexivity|now intros ->]. Qed.

Lemma terminal_head p :
  p <> [] -> forallb terminal p = true ->
  forall rest, match p ++ rest with
               | [] => True
               | c :: _ => nonterminal c = false
               end.
Proof.
  destruct p as [|c p]; [congruence|]. simpl. intros _ H rest.
  apply andb_true_iff in H as [H _]. unfold nonterminal. now rewrite H.
Qed.

Lemma whitespace_nonterminal w : whitespace w = true -> terminal w = false.
Proof.
  unfold whitespace, terminal. intros H.
  destruct (N.eqb_spec w 46) as [->|]; [discriminate|].
  destruct (N.eqb_spec w 33) as [->|]; [discriminate|].
  destruct (N.eqb_spec w 63) as [->|]; [discriminate|reflexivity].
Qed.

Lemma exec_here_sentence n p w rest :
  n <> [] -> forallb nonterminal n = true ->
  p <> [] -> forallb terminal p = true ->
  whitespace w = true ->
  exec_here sentenceRe (n ++ p ++ w :: rest) = Some rest.
Proof.
  intros Hn Hnn Hp Hpp Hw. unfold exec_here, sentenceRe. cbn [rmatch].
  rewrite (@plus_run_greedy _ nonterminal n (p ++ w :: rest) rest);
    [reflexivity|exact Hn|exact Hnn| |].
  - apply plus_run_stops. now apply terminal_head.
  - apply plus_run_greedy; [exact Hp|exact Hpp| |].
    + apply plus_run_stops. now apply whitespace_nonterminal.
    + now rewrite Hw.
Qed.

Lemma exec_here_last n p :
  n <> [] -> forallb nonterminal n = true ->
  p <> [] -> forallb terminal p = true ->
  exec_here sentenceRe (n ++ p) = Some [].
Proof.
  intros Hn Hnn Hp Hpp. unfold exec_here, sentenceRe. cbn [rmatch].
  rewrite <- (app_nil_r p).
  rewrite (@plus_run_greedy _ nonterminal n (p ++ []) []);
    [reflexivity|exact Hn|exact Hnn| |].
  - apply plus_run_stops. now apply terminal_head.
  - apply plus_run_greedy; [exact Hp|exact Hpp|reflexivity|reflexivity].
Qed.

Lemma forallb_nonterminal n :
  forallb nonterminal n = true -> forall c, In c n -> terminal c = false.
Proof.
  intros H c Hc. rewrite forallb_forall in H. specialize (H c Hc).
  unfold nonterminal in H. now destruct (terminal c).
Qed.

Lemma scan_end fuel : scan sentenceRe fuel [] = [].
Proof. now destruct fuel. Qed.

(** On such text the matches are consecutive and cover it. *)
Lemma scan_punctuated text :
  Punctuated text ->
  concat (scan sentenceRe (S (length text)) text) = text.
Proof.
  induction 1 as [|n Hn Hnn|n p Hn Hnn Hp Hpp
                  |n p w rest Hn Hnn Hp Hpp Hw Hrest IH].
  - reflexivity.
  - cbn [scan]. rewrite exec_here_no_terminal;
      [|exact Hn|now apply forallb_nonterminal].
    cbn [length]. rewrite Nat.sub_0_r, firstn_all.
    destruct n as [|c n]; [congruence|].
    cbn [length]. rewrite scan_end. simpl. now rewrite app_nil_r.
  - cbn [scan]. rewrite exec_here_last by assumption.
    cbn [length]. rewrite Nat.sub_0_r, firstn_all.
    destruct (length (n ++ p)) as [|l] eqn:El.
    + destruct n; [congruence|discriminate].
    + rewrite scan_end. simpl. now rewrite app_nil_r.
  - cbn [scan]. rewrite exec_here_sentence by assumption.
    assert (Hlen : length (n ++ p ++ w :: rest) - length rest
                   = S (length (n ++ p))).
    { rewrite !length_app. cbn [length]. lia. }
    rewrite Hlen.
    rewrite (scan_fuel sentenceRe (f2 := S (length rest)));
      [|rewrite !length_app; cbn [length]; lia|lia].
    cbn [concat]. rewrite IH.
    replace (n ++ p ++ w :: rest) with ((n ++ p) ++ w :: rest)
      by now rewrite <- app_assoc.
    rewrite <- (firstn_skipn (S (length (n ++ p))) ((n ++ p) ++ w :: rest))
      at 2.
    f_equal.
    rewrite skipn_app, skipn_all2 by lia.
    replace (S (length (n ++ p)) - length (n ++ p)) with 1 by lia.
    reflexivity.
Qed.

Lemma nonWhitespace_trimStart s : nonWhitespace (trimStart s) = nonWhitespace s.
Proof.
  induction s as [|c s IH]; [reflexivity|]. simpl.
  destruct (whitespace c) eqn:E; simpl; [exact IH|now rewrite E].
Qed.

Lemma nonWhitespace_rev s : nonWhitespace (rev s) = rev (nonWhitespace s).
Proof.
  unfold nonWhitespace. induction s as [|c s IH]; [reflexivity|].
  simpl. rewrite filter_app, IH. simpl.
  destruct (whitespace c); simpl; [now rewrite app_nil_r|reflexivity].
Qed.

Lemma nonWhitespace_trim s : nonWhitespace (trim s) = nonWhitespace s.
Proof.
  unfold trim, trimEnd.
  rewrite nonWhitespace_rev, nonWhitespace_trimStart, nonWhitespace_rev.
  rewrite rev_involutive. apply nonWhitespace_trimStart.
Qed.

Lemma nonWhitespace_app a b :
  nonWhitespace (a ++ b) = nonWhitespace a ++ nonWhitespace b.
Proof. apply filter_app. Qed.

Lemma nonWhitespace_sentences ms :
  nonWhitespace (concat (map trim (filter truthy (map trim ms))))
  = nonWhitespace (concat ms).
Proof.
  induction ms as [|x ms IH]; [reflexivity|].
  cbn [map filter concat]. rewrite nonWhitespace_app.
  destruct (truthy (trim x)) eqn:E.
  - cbn [map concat]. rewrite nonWhitespace_app, IH.
    now rewrite !nonWhitespace_trim.
  - apply truthy_false in E. rewrite IH.
    rewrite <- (nonWhitespace_trim x), E. reflexivity.
Qed.

(** X24: on text the expression reads without a gap (where C4 holds),
    the sentences put together have the non-whitespace content of the
    text. *)
Lemma split_keeps_punctuated_text text :
  Punctuated text ->
  nonWhitespace (concat (map trim (splitSentences text)))
  = nonWhitespace text.
Proof.
  intros H. unfold splitSentences, match_g.
  destruct (truthy text) eqn:Et;
    [|apply truthy_false in Et; now subst].
  pose proof (scan_punctuated H) as Hc.
  destruct (scan sentenceRe (S (length text)) text) as [|x ms] eqn:Es.
  - simpl in Hc. subst. discriminate.
  - rewrite nonWhitespace_sentences. now rewrite Hc.
Qed.

Example punctuated_hello : Punctuated (js "Hello world. How are you?").
Proof.
  apply (@P_sentence (js "Hello world") (js ".") 32%N (js "How are you?"));
    try reflexivity; try discriminate.
  apply (@P_last (js "How are you") (js "?")); try reflexivity;
    discriminate.
Qed.

End SegmenterFacts.

(** ** PCM decoder *)

Section PcmFacts.

Import Pcm.

Lemma int16_le_range lo hi : (-32768 <= int16_le lo hi < 32768)%Z.
Proof.
  unfold int16_le.
  pose proof (Byte.to_N_bounded lo). pose proof (Byte.to_N_bounded hi).
  destruct (Z.ltb_spec (Z.of_N (to_N lo) + 256 * Z.of_N (to_N hi)) 32768); lia.
Qed.

(** Two bytes per element: the induction goes two bytes at a time. *)
Lemma int16_view_length n :
  forall buffer, length buffer = 2 * n -> length (int16_view buffer) = n.
Proof.
  induction n as [|n IH]; intros [|lo [|hi rest]] H; simpl in *;
    try reflexivity; try lia.
  f_equal. apply IH. lia.
Qed.

Lemma int16_view_nth :
  forall buffer i lo hi,
    nth_error buffer (2 * i) = Some lo ->
    nth_error buffer (2 * i + 1) = Some hi ->
    nth_error (int16_view buffer) i = Some (int16_le lo hi).
Proof.
  intros buffer i; revert buffer.
  induction i as [|i IH]; intros buffer lo hi H0 H1.
  - destruct buffer as [|a [|b rest]]; simpl in *; try discriminate.
    now injection H0 as <-; injection H1 as <-.
  - replace (2 * S i) with (S (S (2 * i))) in H0 by lia.
    replace (2 * S i + 1) with (S (S (2 * i + 1))) in H1 by lia.
    destruct buffer as [|a [|b rest]].
    + discriminate.
    + cbn [nth_error] in H0. destruct (2 * i); discriminate.
    + cbn [nth_error] in H0, H1. cbn [int16_view nth_error].
      now apply IH.
Qed.

Lemma int16_view_range buffer :
  Forall (fun v => (-32768 <= v < 32768)%Z) (int16_view buffer).
Proof.
  assert (H : forall n b, length b <= n ->
              Forall (fun v => (-32768 <= v < 32768)%Z) (int16_view b)).
  { induction n as [|n IH]; intros [|lo [|hi rest]] Hb; simpl in *;
      try constructor; try lia.
    - apply int16_le_range.
    - apply IH. lia. }
  now apply (H (length buffer)).
Qed.

Lemma store_middle (l1 l2 : list float) y x :
  store (l1 ++ y :: l2) (length l1) x = l1 ++ x :: l2.
Proof. induction l1 as [|a l1 IH]; simpl; [reflexivity|now rewrite IH]. Qed.

(** The loop writes the first [k] cells and leaves the others. *)
Lemma fill_prefix (f : nat -> float) :
  forall k cd, k <= length cd ->
    fold_left (fun cd i => store cd i (f i)) (seq 0 k) cd
    = map f (seq 0 k) ++ skipn k cd.
Proof.
  induction k as [|k IH]; intros cd Hk; [reflexivity|].
  rewrite seq_S, fold_left_app, map_app.
  cbn [fold_left map Nat.add].
  rewrite IH by lia.
  destruct (skipn k cd) as [|y rest] eqn:E.
  - apply (f_equal (@length _)) in E. rewrite length_skipn in E.
    simpl in E. lia.
  - assert (Hrest : skipn (S k) cd = rest).
    { change (S k) with (1 + k). rewrite <- skipn_skipn, E. reflexivity. }
    rewrite Hrest.
    assert (Hk' : length (map f (seq 0 k)) = k)
      by now rewrite length_map, length_seq.
    pose proof (store_middle (map f (seq 0 k)) rest y (f k)) as Hs.
    rewrite Hk' in Hs. rewrite Hs, <- app_assoc. reflexivity.
Qed.

Lemma map_nth_error_seq {A B} (g : option A -> B) (d : list A) :
  map (fun i => g (nth_error d i)) (seq 0 (length d))
  = map (fun v => g (Some v)) d.
Proof.
  induction d as [|a d IH]; simpl; [reflexivity|].
  f_equal. rewrite <- seq_shift, map_map. exact IH.
Qed.

(** With one channel the loop writes every element, scaled. *)
Lemma fillChannel_mono dataInt16 cd :
  length cd = length dataInt16 ->
  fillChannel dataInt16 1 0 (length dataInt16) cd
  = map (fun v => Num (v # 32768)) dataInt16.
Proof.
  intros Hlen. unfold fillChannel.
  rewrite (fill_prefix (fun i => scaled dataInt16 (i * 1 + 0))) by lia.
  rewrite <- Hlen at 2. rewrite skipn_all, app_nil_r.
  unfold scaled.
  transitivity (map (fun i => match nth_error dataInt16 i with
                              | Some v => Num (v # 32768)
                              | None => NaN
                              end) (seq 0 (length dataInt16))).
  - apply map_ext. intros i. now rewrite Nat.mul_1_r, Nat.add_0_r.
  - apply (map_nth_error_seq
             (fun o => match o with
                       | Some v => Num (v # 32768)
                       | None => NaN
                       end)).
Qed.

Lemma even_double n : Nat.even (2 * n) = true.
Proof. rewrite Nat.even_mul. reflexivity. Qed.

(** Inside the ranges that every implementation supports. *)
Lemma conforming_supports ctx numChannels rate :
  conforming ctx = true ->
  (1 <= numChannels <= 32)%Z -> (8000 <= rate <= 96000)%Z ->
  supports ctx numChannels rate = true.
Proof.
  unfold conforming, supports. intros H HC Hr.
  apply andb_true_iff in H as [H H3]. apply andb_true_iff in H as [H1 H2].
  apply Z.leb_le in H1, H2, H3.
  repeat (apply andb_true_iff; split); apply Z.leb_le; lia.
Qed.

Lemma supports_channels ctx numChannels rate :
  supports ctx numChannels rate = true -> (1 <= numChannels)%Z.
Proof.
  unfold supports. intros H.
  repeat (apply andb_true_iff in H as [H _]). now apply Z.leb_le.
Qed.

(** The value of the decoder on [N >= 1] mono frames. *)
Lemma decode_mono_value data ctx rate n :
  supports ctx 1 rate = true ->
  length data = 2 * n -> 1 <= n ->
  decodeAudioData data ctx rate 1
  = Ok {| numberOfChannels := 1; frames := n; sampleRate := rate;
          channels := [map (fun v => Num (v # 32768)) (int16_view data)] |}.
Proof.
  intros Hs Hlen Hn. unfold decodeAudioData, newInt16Array.
  rewrite Hlen, even_double. simpl bind.
  pose proof (int16_view_length n data Hlen) as Hv. rewrite Hv.
  unfold createBuffer. rewrite Z.div_1_r, Hs.
  replace (Z.of_nat n <? 1)%Z with false by (symmetry; apply Z.ltb_ge; lia).
  simpl bind. cbn [numberOfChannels frames sampleRate channels].
  rewrite Nat2Z.id.
  replace (Z.to_nat ((Z.of_nat n + 1 - 1) / 1)) with n
    by (rewrite Z.div_1_r; lia).
  change (Z.to_nat 1) with 1. simpl repeat. simpl combine. simpl map.
  change (Pos.to_nat 1) with 1.
  pose proof (fillChannel_mono (int16_view data) (repeat (Num 0) n)) as Hf.
  rewrite Hv in Hf. rewrite Hf; [reflexivity|].
  now rewrite repeat_length.
Qed.

(** One channel at 24000 Hz: the same result on every implementation. *)
Lemma decode_default_any_context ctx data :
  conforming ctx = true ->
  decodeAudioData data ctx 24000 1 = decodeAudioData_default data.
Proof.
  intros Hc. unfold decodeAudioData_default, decodeAudioData, createBuffer.
  rewrite (@conforming_supports ctx 1 24000 Hc) by lia.
  reflexivity.
Qed.

(** C5, as the code has it: a buffer of [2 * N] bytes with [N >= 1],
    decoded with one channel at a rate from 8000 to 96000 Hz, which the
    [createBuffer] of every implementation accepts, gives exactly [N]
    frames at that rate; sample [i] is the [i]-th little-endian signed
    16-bit integer over 32768, and lies in [-1, 1). *)
Theorem decode_mono_frames (data : list byte) (ctx : Limits) (rate : Z)
        (n : nat) :
  conforming ctx = true -> (8000 <= rate <= 96000)%Z ->
  length data = 2 * n -> 1 <= n ->
  exists samples,
    decodeAudioData data ctx rate 1
    = Ok {| numberOfChannels := 1; frames := n; sampleRate := rate;
            channels := [samples] |} /\
    length samples = n /\
    (forall i lo hi,
        nth_error data (2 * i) = Some lo ->
        nth_error data (2 * i + 1) = Some hi ->
        nth_error samples i = Some (Num (int16_le lo hi # 32768)) /\
        (-1 <= int16_le lo hi # 32768)%Q /\ (int16_le lo hi # 32768 < 1)%Q).
Proof.
  intros Hc Hr Hlen Hn.
  exists (map (fun v => Num (v # 32768)) (int16_view data)).
  split.
  { apply decode_mono_value; [|exact Hlen|exact Hn].
    apply conforming_supports; [exact Hc|lia|exact Hr]. }
  split; [rewrite length_map; now apply int16_view_length|].
  intros i lo hi H0 H1.
  pose proof (int16_le_range lo hi) as Hrg.
  split; [|split].
  - rewrite nth_error_map, (int16_view_nth data i H0 H1). reflexivity.
  - unfold Qle. simpl. lia.
  - unfold Qlt. simpl. lia.
Qed.

Lemma decode_mono_frames_witness :
  exists samples,
    decodeAudioData [x00; x80; xff; x7f; x01; x00] required 24000 1
    = Ok {| numberOfChannels := 1; frames := 3; sampleRate := 24000;
            channels := [samples] |} /\
    length samples = 3 /\
    (forall i lo hi,
        nth_error [x00; x80; xff; x7f; x01; x00] (2 * i) = Some lo ->
        nth_error [x00; x80; xff; x7f; x01; x00] (2 * i + 1) = Some hi ->
        nth_error samples i = Some (Num (int16_le lo hi # 32768)) /\
        (-1 <= int16_le lo hi # 32768)%Q /\ (int16_le lo hi # 32768 < 1)%Q).
Proof.
  apply (@decode_mono_frames [x00; x80; xff; x7f; x01; x00] required 24000 3).
  - reflexivity.
  - lia.
  - reflexivity.
  - lia.
Defined.

(** C5 as stated fails for [N = 0]: the empty buffer has length [2 * 0],
    and [createBuffer] refuses a buffer of no frame, on every
    implementation and at every rate. *)
Lemma decode_empty_throws :
  length (@nil byte) = 2 * 0 /\
  forall ctx rate, decodeAudioData [] ctx rate 1 = Throw NotSupportedError.
Proof.
  split; [reflexivity|]. intros ctx rate.
  unfold decodeAudioData, newInt16Array, createBuffer. simpl bind.
  now rewrite orb_true_r.
Qed.

(** An odd byte length is refused, whatever the context, the rate and the
    channel count. *)
Lemma decode_odd_throws data ctx rate numChannels :
  Nat.odd (length data) = true ->
  decodeAudioData data ctx rate numChannels = Throw RangeError.
Proof.
  intros H. unfold decodeAudioData, newInt16Array.
  rewrite <- Nat.negb_odd, H. reflexivity.
Qed.

(** What the context does not support is refused, whatever the bytes. *)
Lemma decode_unsupported data ctx rate numChannels :
  supports ctx numChannels rate = false ->
  failed (decodeAudioData data ctx rate numChannels) = true.
Proof.
  intros H. unfold decodeAudioData, newInt16Array.
  destruct (Nat.even (length data)); [|reflexivity].
  simpl bind. unfold createBuffer. rewrite H. reflexivity.
Qed.

(** With one channel the decoder fails exactly on an odd or empty input. *)
Lemma decode_mono_fails_iff data ctx rate :
  supports ctx 1 rate = true ->
  failed (decodeAudioData data ctx rate 1) = true
  <-> Nat.odd (length data) = true \/ data = [].
Proof.
  intros Hs. split.
  - intros H. destruct (Nat.odd (length data)) eqn:Ho; [now left|right].
    destruct data as [|b data]; [reflexivity|exfalso].
    destruct (Nat.Even_or_Odd (length (b :: data))) as [[n Hn]|Hodd].
    + rewrite (@decode_mono_value (b :: data) ctx rate n) in H.
      * discriminate.
      * exact Hs.
      * exact Hn.
      * simpl in Hn. lia.
    + apply Nat.odd_spec in Hodd. congruence.
  - intros [H| ->].
    + now rewrite decode_odd_throws.
    + unfold decodeAudioData, newInt16Array, createBuffer. simpl bind.
      now rewrite orb_true_r.
Qed.

(** On the default arguments of the callers. *)
Lemma decode_default_fails_iff data :
  failed (decodeAudioData_default data) = true
  <-> Nat.odd (length data) = true \/ data = [].
Proof. now apply decode_mono_fails_iff. Qed.

(** For a channel count and a rate that the context supports the decoder
    fails exactly when the byte length is odd or there is not one whole
    frame. *)
Lemma decode_fails_iff data ctx rate numChannels :
  supports ctx numChannels rate = true ->
  failed (decodeAudioData data ctx rate numChannels) = true
  <-> Nat.odd (length data) = true
      \/ (Z.of_nat (length data) < 2 * numChannels)%Z.
Proof.
  intros Hs. pose proof (supports_channels _ _ _ Hs) as HC.
  destruct (Nat.odd (length data)) eqn:Ho.
  - rewrite decode_odd_throws by exact Ho. simpl. tauto.
  - assert (He : Nat.even (length data) = true)
      by now rewrite <- Nat.negb_odd, Ho.
    apply Nat.even_spec in He as He'. destruct He' as [n Hn].
    pose proof (int16_view_length n data Hn) as Hv.
    unfold decodeAudioData, newInt16Array. rewrite He. simpl bind.
    rewrite Hv. unfold createBuffer. rewrite Hs.
    cbn [negb orb]. rewrite Hn.
    destruct (Z.ltb_spec (Z.of_nat n / numChannels) 1) as [Hlt|Hge];
      simpl bind; cbn [failed].
    + split; [intros _; right|reflexivity].
      destruct (Z.lt_ge_cases (Z.of_nat n) numChannels) as [H|H]; [lia|].
      assert (0 < Z.of_nat n / numChannels)%Z
        by (apply Z.div_str_pos; lia).
      lia.
    + split; [discriminate|]. intros [H|H]; [discriminate|].
      rewrite Z.div_small in Hge by lia. lia.
Qed.

(** C6 as stated fails: six bytes are not a multiple of [2 * 2], yet the
    decoder returns a buffer, of one frame per channel, on every
    implementation. *)
Lemma decode_stereo_partial_frame :
  (length [x00; x80; xff; x7f; x01; x00] mod (2 * 2) <> 0) /\
  forall ctx,
    conforming ctx = true ->
    decodeAudioData [x00; x80; xff; x7f; x01; x00] ctx 24000 2
    = Ok {| numberOfChannels := 2; frames := 1; sampleRate := 24000;
            channels := [[Num (-32768 # 32768)]; [Num (32767 # 32768)]] |}.
Proof.
  split; [discriminate|]. intros ctx Hc.
  unfold decodeAudioData, newInt16Array, createBuffer. simpl bind.
  rewrite (@conforming_supports ctx 2 24000 Hc) by lia.
  reflexivity.
Qed.

End PcmFacts.

(** ** Story collection *)

Section StoriesFacts.

Import Stories.

Lemma drafts_of_saved stories : drafts (filter saved stories) = [].
Proof.
  unfold drafts, draft. induction stories as [|s l IH]; simpl; [reflexivity|].
  destruct (saved s) eqn:E; simpl; [rewrite E; simpl|]; exact IH.
Qed.

Lemma filter_idem {A} (p : A -> bool) l : filter p (filter p l) = filter p l.
Proof.
  induction l as [|a l IH]; simpl; [reflexivity|].
  destruct (p a) eqn:E; simpl; [rewrite E; f_equal|]; exact IH.
Qed.

Lemma filter_length_le {A} (p q : A -> bool) l :
  length (filter p (filter q l)) <= length (filter p l).
Proof.
  induction l as [|a l IH]; simpl; [lia|].
  destruct (q a), (p a) eqn:E; simpl; try rewrite E; simpl; lia.
Qed.

(** A replacement that never turns a saved story into a draft does not add
    drafts. *)
Lemma drafts_map_le (f : Story -> Story) stories :
  (forall s, draft (f s) = true -> draft s = true) ->
  length (drafts (map f stories)) <= length (drafts stories).
Proof.
  intros Hf. unfold drafts. induction stories as [|s l IH]; simpl; [lia|].
  destruct (draft (f s)) eqn:E.
  - rewrite (Hf s E). simpl. lia.
  - destruct (draft s); simpl; lia.
Qed.

Lemma add_draft story prev :
  saved story = false ->
  handleAddStory story prev = story :: filter saved prev.
Proof. intros H. unfold handleAddStory. now rewrite H. Qed.

Lemma apply_keeps_one_draft stories op :
  length (drafts stories) <= 1 -> length (drafts (apply stories op)) <= 1.
Proof.
  intros H. destruct op as [story|i|i]; simpl.
  - unfold handleAddStory. destruct (saved story) eqn:E; simpl.
    + unfold drafts in *. simpl. unfold draft at 1. now rewrite E.
    + unfold drafts. simpl. unfold draft at 1. rewrite E. simpl.
      fold (drafts (filter saved stories)). now rewrite drafts_of_saved.
  - unfold handleUpdateStory.
    etransitivity; [apply drafts_map_le|exact H].
    intros s. destruct (str_eqb (id s) i); [|trivial].
    unfold draft, saved, spread. simpl. discriminate.
  - unfold handleRemoveStory, drafts.
    etransitivity; [apply filter_length_le|exact H].
Qed.

(** C10: adding a draft removes every earlier draft and keeps every saved
    story, and no sequence of additions, savings and removals applied to a
    collection with at most one draft, such as the empty collection the
    application starts with, leaves two drafts. *)
Theorem at_most_one_draft :
  (forall story prev,
      saved story = false ->
      drafts (handleAddStory story prev) = [story] /\
      filter saved (handleAddStory story prev) = filter saved prev) /\
  (forall stories ops,
      length (drafts stories) <= 1 ->
      length (drafts (applyAll stories ops)) <= 1) /\
  (forall ops, length (drafts (applyAll [] ops)) <= 1).
Proof.
  assert (Hall : forall ops stories,
             length (drafts stories) <= 1 ->
             length (drafts (applyAll stories ops)) <= 1).
  { induction ops as [|op ops IH]; intros stories H; simpl; [exact H|].
    apply IH. now apply apply_keeps_one_draft. }
  split; [|split].
  - intros story prev H. rewrite add_draft by exact H. split.
    + unfold drafts. simpl. unfold draft at 1. rewrite H. simpl.
      fold (drafts (filter saved prev)). now rewrite drafts_of_saved.
    + simpl. rewrite H. apply filter_idem.
  - intros stories ops. apply Hall.
  - intros ops. apply Hall. simpl. lia.
Qed.

Lemma at_most_one_draft_witness :
  (drafts (handleAddStory (story "b" None)
             [story "a" (Some false); story "s" (Some true)])
   = [story "b" None] /\
   filter saved (handleAddStory (story "b" None)
                   [story "a" (Some false); story "s" (Some true)])
   = filter saved [story "a" (Some false); story "s" (Some true)]) /\
  length (drafts (applyAll [story "a" None]
                    [AddStory (story "b" (Some false)); MarkSaved (js "b");
                     AddStory (story "c" None); RemoveStory (js "a")])) <= 1.
Proof.
  split.
  - apply (proj1 at_most_one_draft). reflexivity.
  - apply (proj1 (proj2 at_most_one_draft)). simpl. lia.
Defined.

End StoriesFacts.

(** ** Playback controller *)

Section PlaybackFacts.

Import Segmenter Pcm Playback.

Lemma run_app m es1 es2 :
  run m (es1 ++ es2)
  = match run m es1 with Some m' => run m' es2 | None => None end.
Proof.
  revert m. induction es1 as [|e es1 IH]; intros m; simpl; [reflexivity|].
  destruct (step m e); [apply IH|reflexivity].
Qed.

Lemma take_head id a p : take id ((id, a) :: p) = Some (a, p).
Proof. simpl. now rewrite Nat.eqb_refl. Qed.

Lemma setPending_suspend id a m : setPending (pending m) (suspend id a m) = m.
Proof. now destruct m. Qed.

Lemma step_speech_head id sentences i o m :
  step (suspend id (LoopSpeech sentences i) m) (Settle id o)
  = Some (handlePlayStory_speech id sentences i o m).
Proof.
  unfold step. cbn [pending suspend setPending]. rewrite take_head.
  change (setPending (pending m)
            (setPending ((id, LoopSpeech sentences i) :: pending m) m))
    with (setPending (pending m) (suspend id (LoopSpeech sentences i) m)).
  now rewrite setPending_suspend.
Qed.

Lemma step_wake_head id a m : step (suspend id a m) (Wake id) = wake id a m.
Proof.
  unfold step. cbn [pending suspend setPending]. rewrite take_head.
  change (setPending (pending m) (setPending ((id, a) :: pending m) m))
    with (setPending (pending m) (suspend id a m)).
  now rewrite setPending_suspend.
Qed.

Lemma step_ended_head id sentences i m :
  audioCtxRef m = Some running ->
  step (suspend id (LoopEnded sentences i) m) (Ended id)
  = Some (handlePlayStory_loop id sentences (S i) (observe (Finished id i) m)).
Proof.
  intros H. unfold step. cbn [pending suspend setPending audioCtxRef].
  rewrite take_head, H.
  change (setPending (pending m)
            (setPending ((id, LoopEnded sentences i) :: pending m) m))
    with (setPending (pending m) (suspend id (LoopEnded sentences i) m)).
  now rewrite setPending_suspend.
Qed.

(** *** The loop of one session, left alone *)

(** From the test of the loop at index [i], with the flag clear and the
    context running, the schedule of the remaining sentences takes the
    session through all of them and out of the loop. *)
Lemma loop_runs id sentences :
  forall os i m,
    stopPlaybackFlag m = false ->
    audioCtxRef m = Some running ->
    i + length os = length sentences ->
    exists m',
      run (handlePlayStory_loop id sentences i m) (schedule id os) = Some m' /\
      playbackState m' = idle /\
      currentSentenceIdx m' = (-1)%Z /\
      pending m' = pending m /\
      log m' = rev (narration id sentences i os) ++ log m /\
      stopPlaybackFlag m' = false /\
      audioCtxRef m' = Some running /\
      nextId m' = nextId m.
Proof.
  induction os as [|o os IH]; intros i m Hflag Hctx Hlen.
  - simpl in Hlen. rewrite Nat.add_0_r in Hlen. subst i.
    unfold handlePlayStory_loop.
    rewrite (proj2 (nth_error_None sentences (length sentences))) by lia.
    exists (handlePlayStory_end m). simpl. repeat split; assumption.
  - simpl in Hlen.
    destruct (nth_error sentences i) as [sentence|] eqn:Hs;
      [|apply nth_error_None in Hs; lia].
    unfold schedule. cbn [flat_map]. fold (schedule id os).
    unfold outcomeEvents. unfold handlePlayStory_loop at 1. rewrite Hs, Hflag.
    cbn [narration]. rewrite Hs.
    set (m1 := observe (Request id i (cleanText sentence))
                       (setCurrentSentenceIdx (Z.of_nat i) m)).
    cbn [app run]. rewrite step_speech_head.
    assert (Hnext : forall obs mx,
               stopPlaybackFlag mx = false ->
               audioCtxRef mx = Some running ->
               pending mx = pending m -> nextId mx = nextId m ->
               log mx = rev obs ++ Request id i (cleanText sentence) :: log m ->
               exists m',
                 run (handlePlayStory_loop id sentences (S i) mx)
                     (schedule id os)
                 = Some m' /\
                 playbackState m' = idle /\
                 currentSentenceIdx m' = (-1)%Z /\
                 pending m' = pending m /\
                 log m' = rev (Request id i (cleanText sentence)
                                 :: obs ++ narration id sentences (S i) os)
                            ++ log m /\
                 stopPlaybackFlag m' = false /\
                 audioCtxRef m' = Some running /\
                 nextId m' = nextId m).
    { intros obs mx Hf Hc Hp Hn Hl.
      destruct (IH (S i) mx Hf Hc) as (m' & Hrun & H1 & H2 & H3 & H4 & H5);
        [lia|].
      destruct H5 as (H5 & H6 & H7).
      exists m'. rewrite Hp in H3. rewrite Hn in H7.
      repeat split; try assumption.
      rewrite H4, Hl. cbn [rev]. rewrite rev_app_distr.
      rewrite <- !app_assoc. reflexivity. }
    destruct o as [|[data|e]|]; unfold handlePlayStory_speech; cbn [outcomeObs].
    + (* no audio: line 236 *)
      change (stopPlaybackFlag m1) with (stopPlaybackFlag m). rewrite Hflag.
      cbn [app]. apply (Hnext [Skipped id i]); auto.
    + (* a payload that decodes to bytes *)
      change (stopPlaybackFlag m1) with (stopPlaybackFlag m). rewrite Hflag.
      destruct (decodeAudioData_default data) as [buffer|e] eqn:Hd;
        cbn [failed app run]; rewrite step_wake_head; unfold wake.
      * cbn [stopPlaybackFlag audioCtxRef observe].
        change (stopPlaybackFlag m1) with (stopPlaybackFlag m).
        change (audioCtxRef m1) with (audioCtxRef m).
        rewrite Hflag, Hctx. cbn [orb].
        rewrite step_ended_head by exact Hctx.
        apply (Hnext [Decoded id i; Started id i; Finished id i]); auto.
      * apply (Hnext [ConsoleError id i]); auto.
    + (* a payload atob rejects: line 238 throws *)
      change (stopPlaybackFlag m1) with (stopPlaybackFlag m). rewrite Hflag.
      cbn [app]. apply (Hnext [ConsoleError id i]); auto.
    + (* the request is rejected *)
      cbn [app]. apply (Hnext [ConsoleError id i]); auto.
Qed.

(** A [play] on an idle controller, and the events of its session: the
    session goes through every sentence and leaves the controller idle. *)
Lemma play_runs m text os :
  playbackState m = idle ->
  deviceAvailable m = true ->
  length os = length (splitSentences text) ->
  exists m' setup,
    run m (session m text os) = Some m' /\
    playbackState m' = idle /\
    currentSentenceIdx m' = (-1)%Z /\
    pending m' = pending m /\
    log m' = rev (narration (nextId m) (splitSentences text) 0 os)
               ++ setup ++ log m /\
    (setup = [] \/ setup = [DeviceCreated] \/ setup = [DeviceResumed]).
Proof.
  intros Hidle Hdev Hlen.
  set (id := nextId m). set (sentences := splitSentences text).
  set (m0 := setCurrentSentenceIdx (-1)
               (setStopFlag false (setPlaybackState playing (freshId m)))).
  assert (Hstart : exists mx setup,
             run m (Play text ::
                      match audioCtxRef m with
                      | Some suspended => [Wake id]
                      | _ => []
                      end)
             = Some (handlePlayStory_loop id sentences 0 mx) /\
             stopPlaybackFlag mx = false /\ audioCtxRef mx = Some running /\
             pending mx = pending m /\ log mx = setup ++ log m /\
             (setup = [] \/ setup = [DeviceCreated]
              \/ setup = [DeviceResumed])).
  { cbn [run]. unfold step at 1, handlePlayStory. cbn [playbackState freshId].
    rewrite Hidle. unfold handlePlayStory_start. fold m0.
    change (audioCtxRef m0) with (audioCtxRef m).
    change (deviceAvailable m0) with (deviceAvailable m).
    rewrite Hdev.
    destruct (audioCtxRef m) as [[| |]|] eqn:Hc.
    - exists m0, []. cbn. repeat split; auto.
    - exists (observe DeviceResumed (setContext running m0)), [DeviceResumed].
      split; [|cbn; repeat split; auto].
      cbn [run]. now rewrite step_wake_head.
    - exists (observe DeviceCreated (setContext running m0)), [DeviceCreated].
      split; [reflexivity|]. cbn. repeat split; auto.
    - exists (observe DeviceCreated (setContext running m0)), [DeviceCreated].
      split; [reflexivity|]. cbn. repeat split; auto. }
  destruct Hstart as (mx & setup & Hstep & Hf & Hc & Hp & Hl & Hsetup).
  destruct (loop_runs id sentences os 0 mx Hf Hc) as
      (m' & Hrun & H1 & H2 & H3 & H4 & _);
    [fold sentences in Hlen; simpl; lia|].
  exists m', setup. unfold session. fold id.
  change (Play text :: match audioCtxRef m with
                       | Some suspended => [Wake id]
                       | _ => []
                       end ++ schedule id os)
    with ((Play text :: match audioCtxRef m with
                        | Some suspended => [Wake id]
                        | _ => []
                        end) ++ schedule id os).
  rewrite run_app, Hstep.
  split; [exact Hrun|].
  split; [exact H1|]. split; [exact H2|].
  split; [now rewrite H3|].
  split; [now rewrite H4, Hl|exact Hsetup].
Qed.

(** What the narration of a session consists of: for each sentence, its
    request and what its outcome makes observable. *)
Lemma narration_spec id sentences e :
  forall os i,
    i + length os <= length sentences ->
    (In e (narration id sentences i os) <->
     exists j o sentence,
       nth_error os j = Some o /\
       nth_error sentences (i + j) = Some sentence /\
       In e (Request id (i + j) (cleanText sentence)
               :: outcomeObs id (i + j) o)).
Proof.
  induction os as [|o os IH]; intros i Hlen.
  - simpl. split; [contradiction|].
    intros (j & o & s & Hj & _). destruct j; discriminate.
  - simpl in Hlen. cbn [narration].
    destruct (nth_error sentences i) as [s0|] eqn:Hs;
      [|apply nth_error_None in Hs; lia].
    split.
    + intros [He|He].
      * exists 0, o, s0. rewrite Nat.add_0_r. repeat split; auto. now left.
      * apply in_app_or in He as [He|He].
        -- exists 0, o, s0. rewrite Nat.add_0_r. repeat split; auto.
           now right.
        -- apply IH in He; [|lia].
           destruct He as (j & o' & s & Hj & Hsj & He).
           exists (S j), o', s. rewrite Nat.add_succ_r. auto.
    + intros (j & o' & s & Hj & Hsj & He). destruct j as [|j].
      * rewrite Nat.add_0_r in *. simpl in Hj. injection Hj as <-.
        rewrite Hs in Hsj. injection Hsj as <-.
        destruct He as [He|He]; [now left|right].
        apply in_or_app. now left.
      * right. apply in_or_app. right. apply IH; [lia|].
        rewrite Nat.add_succ_r in *. exists j, o', s. auto.
Qed.

Lemma outcomeObs_index id i j o e :
  In e (outcomeObs id j o) ->
  e = Decoded id i \/ e = Started id i \/ e = Finished id i
  \/ e = Skipped id i \/ e = ConsoleError id i ->
  j = i.
Proof.
  intros He Hk. destruct o as [|[data|x]|]; cbn [outcomeObs] in He;
    try destruct (failed (decodeAudioData_default data));
    simpl in He; intuition congruence.
Qed.

(** C8: a session that is left alone goes through every sentence whatever
    the speech service answers.  A sentence without audio is skipped
    silently: it is neither decoded nor played, and nothing is logged.
    An error (rejected request, malformed payload, decoder exception) is
    logged with console.error and nothing escapes the handler.  In every
    case the next sentence is requested, and after the last one the
    controller is idle with no current sentence. *)
Theorem best_effort_narration (m : Machine) (text : jsstring)
        (os : list Speech) :
  playbackState m = idle ->
  deviceAvailable m = true ->
  length os = length (splitSentences text) ->
  exists m' setup,
    run m (session m text os) = Some m' /\
    playbackState m' = idle /\
    currentSentenceIdx m' = (-1)%Z /\
    pending m' = pending m /\
    log m' = rev (narration (nextId m) (splitSentences text) 0 os)
               ++ setup ++ log m /\
    (setup = [] \/ setup = [DeviceCreated] \/ setup = [DeviceResumed]) /\
    (forall i sentence,
        nth_error (splitSentences text) i = Some sentence ->
        In (Request (nextId m) i (cleanText sentence))
           (narration (nextId m) (splitSentences text) 0 os)) /\
    (forall i,
        nth_error os i = Some NoAudio ->
        In (Skipped (nextId m) i)
           (narration (nextId m) (splitSentences text) 0 os) /\
        ~ In (Decoded (nextId m) i)
             (narration (nextId m) (splitSentences text) 0 os) /\
        ~ In (Started (nextId m) i)
             (narration (nextId m) (splitSentences text) 0 os) /\
        ~ In (ConsoleError (nextId m) i)
             (narration (nextId m) (splitSentences text) 0 os)) /\
    (forall i o,
        nth_error os i = Some o -> erroneous o = true ->
        In (ConsoleError (nextId m) i)
           (narration (nextId m) (splitSentences text) 0 os)) /\
    ~ In (Uncaught (nextId m))
         (narration (nextId m) (splitSentences text) 0 os).
Proof.
  intros Hidle Hdev Hlen.
  set (id := nextId m). set (sentences := splitSentences text).
  assert (Hspec : forall e,
             In e (narration id sentences 0 os) <->
             exists j o sentence,
               nth_error os j = Some o /\
               nth_error sentences j = Some sentence /\
               In e (Request id j (cleanText sentence) :: outcomeObs id j o)).
  { intros e. apply (narration_spec id sentences e os 0).
    simpl. fold sentences in Hlen. lia. }
  destruct (play_runs m text os Hidle Hdev Hlen) as
      (m' & setup & Hrun & H1 & H2 & H3 & H4 & Hsetup).
  exists m', setup.
  split; [exact Hrun|].
  split; [exact H1|]. split; [exact H2|].
  split; [exact H3|].
  split; [exact H4|].
  split; [exact Hsetup|].
  split; [|split; [|split]].
  - intros i sentence Hs. apply Hspec.
    destruct (nth_error os i) as [o|] eqn:Ho.
    + exists i, o, sentence. repeat split; auto. now left.
    + apply nth_error_None in Ho.
      assert (i < length sentences) by (apply nth_error_Some; congruence).
      fold sentences in Hlen. lia.
  - intros i Ho.
    assert (Hi : i < length sentences).
    { fold sentences in Hlen. rewrite <- Hlen. apply nth_error_Some.
      congruence. }
    destruct (nth_error sentences i) as [sentence|] eqn:Hs;
      [|apply nth_error_None in Hs; lia].
    split; [|split; [|split]].
    + apply Hspec. exists i, NoAudio, sentence. repeat split; auto.
      right. now left.
    + intros Hin. apply Hspec in Hin as (j & o & s & Hj & _ & [He|He]);
        [discriminate|].
      assert (j = i) by (eapply outcomeObs_index; eauto). subst j.
      rewrite Ho in Hj. injection Hj as <-. simpl in He.
      intuition discriminate.
    + intros Hin. apply Hspec in Hin as (j & o & s & Hj & _ & [He|He]);
        [discriminate|].
      assert (j = i) by (eapply outcomeObs_index; eauto). subst j.
      rewrite Ho in Hj. injection Hj as <-. simpl in He.
      intuition discriminate.
    + intros Hin. apply Hspec in Hin as (j & o & s & Hj & _ & [He|He]);
        [discriminate|].
      assert (j = i) by (eapply outcomeObs_index; eauto 6). subst j.
      rewrite Ho in Hj. injection Hj as <-. simpl in He.
      intuition discriminate.
  - intros i o Ho Herr.
    assert (Hi : i < length sentences).
    { fold sentences in Hlen. rewrite <- Hlen. apply nth_error_Some.
      congruence. }
    destruct (nth_error sentences i) as [sentence|] eqn:Hs;
      [|apply nth_error_None in Hs; lia].
    apply Hspec. exists i, o, sentence. repeat split; auto. right.
    destruct o as [|[data|x]|]; cbn [erroneous outcomeObs] in *;
      try discriminate; try rewrite Herr; now left.
  - intros Hin. apply Hspec in Hin as (j & o & s & _ & _ & [He|He]);
      [discriminate|].
    destruct o as [|[data|x]|]; cbn [outcomeObs] in He;
      try destruct (failed (decodeAudioData_default data));
      simpl in He; intuition discriminate.
Qed.

(** The scenario of the specification: no audio for sentence 0, a valid
    payload for sentence 1. *)
Lemma best_effort_narration_witness :
  exists m' setup,
    run (init true)
        (session (init true) (js "Hello world. How are you?")
                 [NoAudio; audio]) = Some m' /\
    playbackState m' = idle /\
    currentSentenceIdx m' = (-1)%Z /\
    pending m' = [] /\
    log m' = rev (narration 0 (splitSentences (js "Hello world. How are you?"))
                            0 [NoAudio; audio])
               ++ setup ++ [] /\
    (setup = [] \/ setup = [DeviceCreated] \/ setup = [DeviceResumed]) /\
    (forall i sentence,
        nth_error (splitSentences (js "Hello world. How are you?")) i
        = Some sentence ->
        In (Request 0 i (cleanText sentence))
           (narration 0 (splitSentences (js "Hello world. How are you?"))
                      0 [NoAudio; audio])) /\
    (forall i,
        nth_error [NoAudio; audio] i = Some NoAudio ->
        In (Skipped 0 i)
           (narration 0 (splitSentences (js "Hello world. How are you?"))
                      0 [NoAudio; audio]) /\
        ~ In (Decoded 0 i)
             (narration 0 (splitSentences (js "Hello world. How are you?"))
                        0 [NoAudio; audio]) /\
        ~ In (Started 0 i)
             (narration 0 (splitSentences (js "Hello world. How are you?"))
                        0 [NoAudio; audio]) /\
        ~ In (ConsoleError 0 i)
             (narration 0 (splitSentences (js "Hello world. How are you?"))
                        0 [NoAudio; audio])) /\
    (forall i o,
        nth_error [NoAudio; audio] i = Some o -> erroneous o = true ->
        In (ConsoleError 0 i)
           (narration 0 (splitSentences (js "Hello world. How are you?"))
                      0 [NoAudio; audio])) /\
    ~ In (Uncaught 0)
         (narration 0 (splitSentences (js "Hello world. How are you?"))
                    0 [NoAudio; audio]).
Proof.
  apply (best_effort_narration (init true) (js "Hello world. How are you?")
                               [NoAudio; audio]).
  - reflexivity.
  - reflexivity.
  - reflexivity.
Defined.

Example skip_then_play :
  run (init true)
      (session (init true) (js "Hello world. How are you?") [NoAudio; audio])
  = Some {| playbackState := idle; currentSentenceIdx := (-1)%Z;
            audioCtxRef := Some running; stopPlaybackFlag := false;
            deviceAvailable := true; pending := []; nextId := 1;
            log := [Finished 0 1; Started 0 1; Decoded 0 1;
                    Request 0 1 (js "How are you?");
                    Skipped 0 0; Request 0 0 (js "Hello world.");
                    DeviceCreated] |}.
Proof. reflexivity. Qed.

(** The scenario of the specification: both sentences of the text are
    played, one after the other, and the controller returns to idle. *)
Example play_greeting :
  run (init true) (session (init true) greeting [audio; audio])
  = Some {| playbackState := idle; currentSentenceIdx := (-1)%Z;
            audioCtxRef := Some running; stopPlaybackFlag := false;
            deviceAvailable := true; pending := []; nextId := 1;
            log := [Finished 0 1; Started 0 1; Decoded 0 1;
                    Request 0 1 (js "How are you?");
                    Finished 0 0; Started 0 0; Decoded 0 0;
                    Request 0 0 (js "Hello world.");
                    DeviceCreated] |}.
Proof. vm_compute. reflexivity. Qed.

(** Pause and resume during a sentence: the device is suspended and
    resumed, the sentence is neither requested nor started again. *)
Example pause_then_resume :
  run (init true)
      [Play greeting; Settle 0 audio; Wake 0; Pause; Wake 1; Resume; Wake 2;
       Ended 0]
  = Some {| playbackState := playing; currentSentenceIdx := 1%Z;
            audioCtxRef := Some running; stopPlaybackFlag := false;
            deviceAvailable := true;
            pending := [(0, LoopSpeech (splitSentences greeting) 1)];
            nextId := 3;
            log := [Request 0 1 (js "How are you?"); Finished 0 0;
                    DeviceResumed; DeviceSuspended;
                    Started 0 0; Decoded 0 0;
                    Request 0 0 (js "Hello world.");
                    DeviceCreated] |}.
Proof. vm_compute. reflexivity. Qed.

(** After a [stop] the context is suspended: the next session resumes
    it before its first request. *)
Example play_after_stop :
  session stoppedEarly (js "One. Two.") [audio; NoAudio]
  = [Play (js "One. Two."); Wake 2; Settle 2 audio; Wake 2; Ended 2;
     Settle 2 NoAudio] /\
  run stoppedEarly (session stoppedEarly (js "One. Two.") [audio; NoAudio])
  = Some {| playbackState := idle; currentSentenceIdx := (-1)%Z;
            audioCtxRef := Some running; stopPlaybackFlag := false;
            deviceAvailable := true; pending := []; nextId := 3;
            log := [Skipped 2 1; Request 2 1 (js "Two.");
                    Finished 2 0; Started 2 0; Decoded 2 0;
                    Request 2 0 (js "One."); DeviceResumed;
                    DeviceSuspended; Request 0 0 (js "Hello world.");
                    DeviceCreated] |}.
Proof. split; vm_compute; reflexivity. Qed.

(** *** Failure to acquire the device *)





(** Nothing brings the status back afterwards: [stop] returns at line 177
    because there is no context. *)
Example device_failure_stop_has_no_effect :
  exists m,
    run (init false) [Play (js "Hello world. How are you?"); Stop] = Some m /\
    playbackState m = playing /\ pending m = [].
Proof. eexists. split; [reflexivity|]. split; reflexivity. Qed.

(** *** Decoding errors in the loop *)

Lemma take_pending_suspend id a rest m :
  take id (pending (suspend id a (setPending rest m))) = Some (a, rest).
Proof. cbn [pending suspend setPending]. apply take_head. Qed.

(** A payload on which the decoder throws: the exception is caught at
    line 254, logged, and the loop goes on with the next sentence. *)
Lemma decode_error_next_sentence m id sentences i data rest :
  take id (pending m) = Some (LoopSpeech sentences i, rest) ->
  stopPlaybackFlag m = false ->
  failed (decodeAudioData_default data) = true ->
  run m [Settle id (Payload (Ok data)); Wake id]
  = Some (handlePlayStory_loop id sentences (S i)
            (observe (ConsoleError id i) (setPending rest m))).
Proof.
  intros Ht Hf Hd. cbn [run]. unfold step at 1. rewrite Ht.
  unfold handlePlayStory_speech. cbn [stopPlaybackFlag setPending].
  rewrite Hf, Hd.
  rewrite step_wake_head. unfold wake.
  destruct (decodeAudioData_default data); [discriminate|reflexivity].
Qed.

(** C6, as the code has it: the decoder throws whenever the byte length is
    odd; for 1 to 32 channels at a rate from 8000 to 96000 Hz, which the
    [createBuffer] of every implementation accepts, it throws exactly when
    the length is odd or less than [2 * channels], that is, with one
    channel, the only count the callers use, odd or zero.  In the loop the
    exception is caught for that sentence: it is logged, nothing escapes,
    and the loop goes on: a next sentence is requested with the status
    unchanged, and after the last sentence the session ends as usual. *)
Theorem decode_error_contained :
  (forall data ctx rate numChannels,
      Nat.odd (length data) = true ->
      decodeAudioData data ctx rate numChannels = Throw RangeError) /\
  (forall data ctx rate numChannels,
      conforming ctx = true ->
      (1 <= numChannels <= 32)%Z -> (8000 <= rate <= 96000)%Z ->
      failed (decodeAudioData data ctx rate numChannels) = true
      <-> Nat.odd (length data) = true
          \/ (Z.of_nat (length data) < 2 * numChannels)%Z) /\
  (forall data ctx rate,
      conforming ctx = true -> (8000 <= rate <= 96000)%Z ->
      failed (decodeAudioData data ctx rate 1) = true
      <-> Nat.odd (length data) = true \/ data = []) /\
  (forall m id sentences i data rest next,
      take id (pending m) = Some (LoopSpeech sentences i, rest) ->
      stopPlaybackFlag m = false ->
      failed (decodeAudioData_default data) = true ->
      nth_error sentences (S i) = Some next ->
      exists m',
        run m [Settle id (Payload (Ok data)); Wake id] = Some m' /\
        playbackState m' = playbackState m /\
        currentSentenceIdx m' = Z.of_nat (S i) /\
        pending m' = (id, LoopSpeech sentences (S i)) :: rest /\
        log m' = Request id (S i) (cleanText next)
                   :: ConsoleError id i :: log m) /\
  (forall m id sentences i data rest,
      take id (pending m) = Some (LoopSpeech sentences i, rest) ->
      stopPlaybackFlag m = false ->
      failed (decodeAudioData_default data) = true ->
      nth_error sentences (S i) = None ->
      exists m',
        run m [Settle id (Payload (Ok data)); Wake id] = Some m' /\
        playbackState m' = idle /\
        currentSentenceIdx m' = (-1)%Z /\
        pending m' = rest /\
        log m' = ConsoleError id i :: log m).
Proof.
  split; [exact decode_odd_throws|].
  split.
  { intros data ctx rate numChannels Hc HC Hr.
    apply decode_fails_iff. now apply conforming_supports. }
  split.
  { intros data ctx rate Hc Hr.
    apply decode_mono_fails_iff.
    apply conforming_supports; [exact Hc|lia|exact Hr]. }
  split.
  - intros m id sentences i data rest next Ht Hf Hd Hn.
    eexists. split.
    + apply decode_error_next_sentence; eassumption.
    + unfold handlePlayStory_loop. rewrite Hn.
      cbn [stopPlaybackFlag observe setPending]. rewrite Hf.
      cbn. repeat split; reflexivity.
  - intros m id sentences i data rest Ht Hf Hd Hn.
    eexists. split.
    + apply decode_error_next_sentence; eassumption.
    + unfold handlePlayStory_loop. rewrite Hn. cbn. repeat split; reflexivity.
Qed.

Lemma decode_error_contained_witness :
  decodeAudioData [x00; x80; xff] required 24000 2 = Throw RangeError /\
  (failed (decodeAudioData [x00; x80] required 24000 2) = true
   <-> Nat.odd (length [x00; x80]) = true
       \/ (Z.of_nat (length [x00; x80]) < 2 * 2)%Z) /\
  (failed (decodeAudioData [x00; x80; xff] required 24000 1) = true
   <-> Nat.odd (length [x00; x80; xff]) = true \/ [x00; x80; xff] = []) /\
  (exists m',
    run (afterRun true [Play (js "Hello world. How are you?")])
        [Settle 0 (Payload (Ok [x00; x80; xff])); Wake 0] = Some m' /\
    playbackState m'
    = playbackState (afterRun true [Play (js "Hello world. How are you?")]) /\
    currentSentenceIdx m' = Z.of_nat 1 /\
    pending m'
    = [(0, LoopSpeech (splitSentences (js "Hello world. How are you?")) 1)] /\
    log m' = Request 0 1 (cleanText (js "How are you?"))
               :: ConsoleError 0 0
               :: log (afterRun true [Play (js "Hello world. How are you?")]))
  /\
  exists m',
    run (afterRun true [Play (js "Hello.")])
        [Settle 0 (Payload (Ok [x00; x80; xff])); Wake 0] = Some m' /\
    playbackState m' = idle /\
    currentSentenceIdx m' = (-1)%Z /\
    pending m' = [] /\
    log m' = ConsoleError 0 0 :: log (afterRun true [Play (js "Hello.")]).
Proof.
  split; [|split; [|split; [|split]]].
  - apply (proj1 decode_error_contained). reflexivity.
  - apply (proj1 (proj2 decode_error_contained)); [reflexivity|lia|lia].
  - apply (proj1 (proj2 (proj2 decode_error_contained))); [reflexivity|lia].
  - apply (proj1 (proj2 (proj2 (proj2 decode_error_contained)))
             (afterRun true [Play (js "Hello world. How are you?")])
             0 (splitSentences (js "Hello world. How are you?")) 0
             [x00; x80; xff] [] (js "How are you?")); reflexivity.
  - apply (proj2 (proj2 (proj2 (proj2 decode_error_contained)))
             (afterRun true [Play (js "Hello.")])
             0 (splitSentences (js "Hello.")) 0
             [x00; x80; xff] []); reflexivity.
Defined.

(** *** Starting a session over a session *)

(** C1 fails on the code.  [play] is called while the first sentence of a
    session is being played.  The stop it performs suspends the device and
    sets the flag, but the old call stays suspended at line 241 waiting
    for [onended]; line 213 then clears the flag it shares with the new
    session and line 220 resumes the device.  When the new session has
    requested its first sentence the old one is still in its loop, its
    source plays to the end, and it requests its own next sentence. *)
Theorem sessions_overlap :
  exists m7 m8,
    run (init true)
        [Play (js "A. B."); Settle 0 audio; Wake 0;
         Play (js "C."); Wake 1; Wake 1; Wake 1] = Some m7 /\
    pending m7 = [(1, LoopSpeech [js "C."] 0);
                  (0, LoopEnded [js "A."; js "B."] 0)] /\
    playbackState m7 = playing /\
    audioCtxRef m7 = Some running /\
    stopPlaybackFlag m7 = false /\
    log m7 = [Request 1 0 (js "C."); DeviceResumed; DeviceSuspended;
              Started 0 0; Decoded 0 0; Request 0 0 (js "A.");
              DeviceCreated] /\
    step m7 (Ended 0) = Some m8 /\
    pending m8 = [(0, LoopSpeech [js "A."; js "B."] 1);
                  (1, LoopSpeech [js "C."] 0)] /\
    currentSentenceIdx m8 = 1%Z /\
    log m8 = Request 0 1 (js "B.") :: Finished 0 0 :: log m7.
Proof.
  eexists. eexists.
  split; [vm_compute; reflexivity|].
  repeat split; vm_compute; reflexivity.
Qed.

(** The same with a request in flight: when it settles after the grace
    delay its result is not discarded, the flag being clear again. *)
Example stale_fetch_not_discarded :
  exists m,
    run (init true)
        [Play (js "A. B."); Play (js "C."); Wake 1; Wake 1; Wake 1;
         Settle 0 audio; Wake 0] = Some m /\
    pending m = [(0, LoopEnded [js "A."; js "B."] 0);
                 (1, LoopSpeech [js "C."] 0)] /\
    log m = [Started 0 0; Decoded 0 0; Request 1 0 (js "C.");
             DeviceResumed; DeviceSuspended; Request 0 0 (js "A.");
             DeviceCreated].
Proof.
  eexists. split; [vm_compute; reflexivity|]. split; vm_compute; reflexivity.
Qed.

(** X25: what [play] does hold to: the stop comes first.  The flag is
    set at once, and the new session starts only after [suspend()] has
    resolved and the timer has fired. *)
Lemma play_while_playing_stops_first m text c :
  playbackState m = playing ->
  audioCtxRef m = Some c -> c <> closed ->
  exists m1 m2,
    step m (Play text) = Some m1 /\
    stopPlaybackFlag m1 = true /\
    pending m1 = (nextId m, PlayStop text true) :: pending m /\
    log m1 = log m /\
    step m1 (Wake (nextId m)) = Some m2 /\
    audioCtxRef m2 = Some suspended /\
    playbackState m2 = idle /\
    currentSentenceIdx m2 = (-1)%Z /\
    pending m2 = (nextId m, PlayGrace text) :: pending m /\
    log m2 = DeviceSuspended :: log m.
Proof.
  intros Hp Hc Hne.
  assert (H1 : step m (Play text)
               = Some (suspend (nextId m) (PlayStop text true)
                         (setStopFlag true (freshId m)))).
  { unfold step, handlePlayStory. cbn [playbackState freshId]. rewrite Hp.
    unfold handleStopPlayback. cbn [audioCtxRef setStopFlag freshId].
    rewrite Hc.
    destruct c; [reflexivity|reflexivity|congruence]. }
  eexists. eexists. split; [exact H1|].
  rewrite step_wake_head. cbn. repeat split; reflexivity.
Qed.

End PlaybackFacts.

(** ** What holds of every reachable state *)

Section PlaybackInvariant.

Import Segmenter Pcm Playback.

(** *** The pool of suspended calls *)

Lemma take_In id : forall p a rest, take id p = Some (a, rest) -> In (id, a) p.
Proof.
  induction p as [|[id' b] p IH]; simpl; intros a rest H; [discriminate|].
  destruct (Nat.eqb_spec id id') as [->|Hne].
  - injection H as <- <-. now left.
  - destruct (take id p) as [[c q]|] eqn:E; [|discriminate].
    injection H as <- <-. right. eapply IH. reflexivity.
Qed.

Lemma take_rest_In id : forall p a rest x,
    take id p = Some (a, rest) -> In x rest -> In x p.
Proof.
  induction p as [|[id' b] p IH]; simpl; intros a rest x H Hx; [discriminate|].
  destruct (Nat.eqb_spec id id') as [->|Hne].
  - injection H as <- <-. now right.
  - destruct (take id p) as [[c q]|] eqn:E; [|discriminate].
    injection H as <- <-. destruct Hx as [<-|Hx]; [now left|right].
    eapply IH; [reflexivity|exact Hx].
Qed.

Lemma take_rest_ids id : forall p a rest,
    take id p = Some (a, rest) -> NoDup (map fst p) ->
    NoDup (map fst rest) /\ ~ In id (map fst rest).
Proof.
  induction p as [|[id' b] p IH]; simpl; intros a rest H Hnd; [discriminate|].
  inversion Hnd as [|? ? Hnotin Hnd']; subst.
  destruct (Nat.eqb_spec id id') as [->|Hne].
  - injection H as <- <-. now split.
  - destruct (take id p) as [[c q]|] eqn:E; [|discriminate].
    injection H as <- <-.
    destruct (IH c q eq_refl Hnd') as [Hq Hid]. simpl. split.
    + constructor; [|exact Hq]. intros Hin. apply Hnotin.
      apply in_map_iff in Hin as ([i x] & Hi & Hx). simpl in Hi. subst i.
      apply (in_map fst) in Hx as Hx'.
      change id' with (fst (id', x)). apply in_map.
      eapply take_rest_In; eauto.
    + intros [Heq|Hin]; [congruence|tauto].
Qed.


(** *** Histories *)

Lemma history_app id l1 l2 :
  history id (l1 ++ l2) = history id l1 ++ history id l2.
Proof.
  induction l1 as [|o l1 IH]; simpl; [reflexivity|].
  destruct (about o) as [[id' t]|]; [|exact IH].
  destruct (Nat.eqb id' id); [simpl; f_equal|]; exact IH.
Qed.

Lemma history_own id o t l :
  about o = Some (id, t) -> history id (o :: l) = t :: history id l.
Proof. intros H. simpl. now rewrite H, Nat.eqb_refl. Qed.

Lemma history_other id id' o t l :
  about o = Some (id', t) -> id' <> id -> history id (o :: l) = history id l.
Proof.
  intros H Hne. simpl. rewrite H.
  now destruct (Nat.eqb_spec id' id); [contradiction|].
Qed.

Lemma history_silent id o l :
  about o = None -> history id (o :: l) = history id l.
Proof. intros H. simpl. now rewrite H. Qed.

(** *** The invariant through the pieces of the handlers *)

Lemma Inv_ext m m' :
  pending m' = pending m -> nextId m' = nextId m -> log m' = log m ->
  audioCtxRef m' = audioCtxRef m -> Inv m -> Inv m'.
Proof.
  intros Hp Hn Hl Hc [H1 H2 H3 H4 H5 H6 H7].
  constructor; rewrite ?Hp, ?Hn, ?Hl, ?Hc; assumption.
Qed.

Lemma Running_ext id m m' :
  pending m' = pending m -> nextId m' = nextId m -> log m' = log m ->
  audioCtxRef m' = audioCtxRef m -> InvRunning id m -> InvRunning id m'.
Proof.
  intros Hp Hn Hl Hc (Hi & Hlt & Hid). split; [|rewrite Hp, Hn; now split].
  eapply Inv_ext; eassumption.
Qed.

(** A state [suspended] or [running] replaces the state of the context. *)
Lemma Running_setContext id v m :
  v <> closed -> InvRunning id m -> InvRunning id (setContext v m).
Proof.
  intros Hv ([H1 H2 H3 H4 H5 H6 H7] & Hlt & Hid).
  split; [|now split].
  constructor; cbn [pending nextId log audioCtxRef setContext];
    try assumption; congruence.
Qed.

Lemma Running_observe id o t m :
  about o = Some (id, t) ->
  pipeline (t :: history id (log m)) = true ->
  InvRunning id m -> InvRunning id (observe o m).
Proof.
  intros Ho Hpipe ([H1 H2 H3 H4 H5 H6 H7] & Hlt & Hid).
  split; [|now split].
  constructor; cbn [pending nextId log audioCtxRef observe]; try assumption.
  - intros id'. destruct (Nat.eq_dec id id') as [<-|Hne].
    + now rewrite (@history_own id o t (log m) Ho).
    + rewrite (@history_other id' id o t (log m) Ho Hne). apply H5.
  - intros id' a Hin. rewrite (@history_other id' id o t (log m) Ho).
    + now apply H6.
    + intros <-. apply Hid. change id with (fst (id, a)). now apply in_map.
  - intros id' Hge. rewrite (@history_other id' id o t (log m) Ho);
      [now apply H7|lia].
Qed.

Lemma Running_observe_silent id o m :
  about o = None -> InvRunning id m -> InvRunning id (observe o m).
Proof.
  intros Ho ([H1 H2 H3 H4 H5 H6 H7] & Hlt & Hid).
  split; [|now split].
  constructor; cbn [pending nextId log audioCtxRef observe]; try assumption;
    intros; rewrite (@history_silent _ o (log m) Ho); auto.
Qed.

Lemma Running_suspend id a m :
  agrees a (history id (log m)) = true ->
  (needsContext a = true -> audioCtxRef m <> None) ->
  InvRunning id m -> Inv (suspend id a m).
Proof.
  intros Hag Hctx ([H1 H2 H3 H4 H5 H6 H7] & Hlt & Hid).
  constructor;
    cbn [pending nextId log audioCtxRef suspend setPending map fst];
    try assumption.
  - intros id' b [Heq|Hin]; [injection Heq as <- <-; exact Hlt|eauto].
  - now constructor.
  - intros id' b [Heq|Hin]; [injection Heq as <- <-; exact Hctx|eauto].
  - intros id' b [Heq|Hin]; [injection Heq as <- <-; exact Hag|eauto].
Qed.

Lemma Running_done id m : InvRunning id m -> Inv m.
Proof. now intros [H _]. Qed.

Lemma Inv_take m id a rest :
  Inv m -> take id (pending m) = Some (a, rest) ->
  InvRunning id (setPending rest m) /\
  agrees a (history id (log m)) = true /\
  (needsContext a = true -> audioCtxRef m <> None).
Proof.
  intros [H1 H2 H3 H4 H5 H6 H7] Ht.
  pose proof (take_In _ _ Ht) as Hin.
  destruct (take_rest_ids _ _ Ht H2) as [Hnd Hid].
  split; [|split; eauto].
  split; [|split; [eauto|exact Hid]].
  constructor; cbn [pending nextId log audioCtxRef setPending];
    try assumption; intros; eauto using take_rest_In.
Qed.

Lemma Inv_fresh m :
  Inv m ->
  InvRunning (nextId m) (freshId m) /\ history (nextId m) (log m) = [].
Proof.
  intros [H1 H2 H3 H4 H5 H6 H7].
  split; [|now apply H7].
  split; [|split].
  - constructor; cbn [pending nextId log audioCtxRef freshId];
      try assumption; intros; eauto.
    + apply Nat.lt_lt_succ_r. eauto.
    + apply H7. lia.
  - cbn [nextId freshId]. lia.
  - cbn [pending freshId]. intros Hin.
    apply in_map_iff in Hin as ([i a] & Hi & Ha). simpl in Hi. subst i.
    apply H1 in Ha. lia.
Qed.

Lemma Running_end id m : InvRunning id m -> Inv (handlePlayStory_end m).
Proof.
  intros H. apply Running_done with (id := id).
  revert H. now apply Running_ext.
Qed.

Lemma pipeline_request i h :
  readyFor i h -> pipeline h = true -> pipeline ((i, Requested) :: h) = true.
Proof.
  destruct i as [|j]; simpl.
  - intros -> _. reflexivity.
  - intros (st & h' & -> & Hover) Hp. cbn [pipeline] in *.
    apply andb_true_iff. split; [|exact Hp].
    unfold follows. cbn [fst snd]. now rewrite Nat.eqb_refl, Hover.
Qed.

Lemma Running_loop id sentences i m :
  audioCtxRef m <> None ->
  readyFor i (history id (log m)) ->
  InvRunning id m -> Inv (handlePlayStory_loop id sentences i m).
Proof.
  intros Hctx Hready Hrun. unfold handlePlayStory_loop.
  destruct (nth_error sentences i) as [sentence|];
    [|now apply Running_end with (id := id)].
  destruct (stopPlaybackFlag m); [now apply Running_end with (id := id)|].
  apply Running_suspend.
  - cbn [log observe setCurrentSentenceIdx history about].
    rewrite Nat.eqb_refl. cbn [agrees]. apply Nat.eqb_refl.
  - intros _. exact Hctx.
  - apply Running_observe with (t := (i, Requested)); [reflexivity| |].
    + cbn [log setCurrentSentenceIdx]. apply pipeline_request; [exact Hready|].
      destruct Hrun as [Hi _]. apply (inv_pipeline Hi).
    + revert Hrun. now apply Running_ext.
Qed.

Lemma Running_start id text m :
  history id (log m) = [] -> InvRunning id m ->
  Inv (handlePlayStory_start id text m).
Proof.
  intros Hh Hrun. unfold handlePlayStory_start.
  set (m1 := setCurrentSentenceIdx (-1)
               (setStopFlag false (setPlaybackState playing m))).
  assert (Hrun1 : InvRunning id m1) by (revert Hrun; now apply Running_ext).
  assert (Hnew : deviceAvailable m1 = true ->
                 Inv (handlePlayStory_loop id (splitSentences text) 0
                        (observe DeviceCreated (setContext running m1)))).
  { intros _. apply Running_loop.
    - discriminate.
    - cbn [readyFor log observe setContext history about]. exact Hh.
    - apply Running_observe_silent; [reflexivity|].
      apply Running_setContext; [discriminate|exact Hrun1]. }
  assert (Hfail : Inv (observe (Uncaught id) m1)).
  { apply Running_done with (id := id).
    apply Running_observe_silent; [reflexivity|exact Hrun1]. }
  change (audioCtxRef m1) with (audioCtxRef m).
  destruct (audioCtxRef m) as [[| |]|] eqn:Hc.
  - apply Running_loop.
    + change (audioCtxRef m1) with (audioCtxRef m). congruence.
    + exact Hh.
    + exact Hrun1.
  - apply Running_suspend; [|intros _|exact Hrun1].
    + change (log m1) with (log m). now rewrite Hh.
    + change (audioCtxRef m1) with (audioCtxRef m). congruence.
  - destruct (deviceAvailable m1); [now apply Hnew|exact Hfail].
  - destruct (deviceAvailable m1); [now apply Hnew|exact Hfail].
Qed.

Lemma Running_stop_done id m :
  InvRunning id m -> InvRunning id (handleStopPlayback_done m).
Proof.
  intros Hrun. unfold handleStopPlayback_done.
  apply Running_ext with
      (m := observe DeviceSuspended (setContext suspended m));
    try reflexivity.
  apply Running_observe_silent; [reflexivity|].
  apply Running_setContext; [discriminate|exact Hrun].
Qed.

Lemma agrees_setup a h :
  match a with
  | LoopSpeech _ _ | LoopDecode _ _ _ | LoopEnded _ _ | LoopResolved _ _ =>
      False
  | _ => True
  end ->
  agrees a h = true -> h = [].
Proof.
  destruct a, h as [|[j st] h]; simpl; try discriminate; try contradiction;
    reflexivity.
Qed.

Lemma agrees_speech sentences i h :
  agrees (LoopSpeech sentences i) h = true ->
  exists h', h = (i, Requested) :: h'.
Proof.
  destruct h as [|[j []] h]; simpl; try discriminate.
  intros H. apply Nat.eqb_eq in H. subst. now eexists.
Qed.

Lemma agrees_decoded sentences i b h :
  agrees (LoopDecode sentences i (Ok b)) h = true ->
  exists h', h = (i, DecodedOk) :: h'.
Proof.
  destruct h as [|[j []] h]; simpl; try discriminate.
  intros H. apply Nat.eqb_eq in H. subst. now eexists.
Qed.

Lemma agrees_thrown sentences i e h :
  agrees (LoopDecode sentences i (Throw e)) h = true ->
  exists h', h = (i, Requested) :: h'.
Proof.
  destruct h as [|[j []] h]; simpl; try discriminate.
  intros H. apply Nat.eqb_eq in H. subst. now eexists.
Qed.

Lemma agrees_ended sentences i h :
  agrees (LoopEnded sentences i) h = true ->
  exists h', h = (i, Playing) :: h'.
Proof.
  destruct h as [|[j []] h]; simpl; try discriminate.
  intros H. apply Nat.eqb_eq in H. subst. now eexists.
Qed.

Lemma agrees_resolved sentences i h :
  agrees (LoopResolved sentences i) h = true ->
  exists h', h = (i, SkippedOver) :: h'.
Proof.
  destruct h as [|[j []] h]; simpl; try discriminate.
  intros H. apply Nat.eqb_eq in H. subst. now eexists.
Qed.

(** One more observation about sentence [i], then the next turn of the
    loop. *)
Lemma Running_next id sentences i o st st0 h' m :
  about o = Some (id, (i, st)) ->
  history id (log m) = (i, st0) :: h' ->
  follows (i, st0) (i, st) = true -> over st = true ->
  audioCtxRef m <> None ->
  InvRunning id m ->
  Inv (handlePlayStory_loop id sentences (S i) (observe o m)).
Proof.
  intros Ho Hh Hf Hover Hctx Hrun.
  apply Running_loop.
  - exact Hctx.
  - cbn [readyFor log observe]. rewrite (@history_own id o _ (log m) Ho).
    now eexists; eexists.
  - apply Running_observe with (t := (i, st)); [exact Ho| |exact Hrun].
    rewrite Hh. cbn [pipeline]. rewrite Hf. cbn [andb].
    destruct Hrun as [Hi _]. pose proof (inv_pipeline Hi id) as Hp.
    now rewrite Hh in Hp.
Qed.

(** *** Every turn of the event loop keeps the invariant *)

Lemma Inv_handleStopPlayback id m :
  history id (log m) = [] -> InvRunning id m ->
  match handleStopPlayback id m with
  | (m1, Some suspending) =>
      InvRunning id m1 /\ history id (log m1) = [] /\
      (suspending = true -> audioCtxRef m1 <> None)
  | (m1, None) => Inv m1
  end.
Proof.
  intros Hh Hrun. unfold handleStopPlayback.
  assert (Hrun1 : InvRunning id (setStopFlag true m))
    by (revert Hrun; now apply Running_ext).
  cbn [audioCtxRef setStopFlag].
  destruct (audioCtxRef m) as [[| |]|] eqn:Hc.
  - split; [exact Hrun1|split; [exact Hh|intros _; cbn; congruence]].
  - split; [exact Hrun1|split; [exact Hh|intros _; cbn; congruence]].
  - apply Running_done with (id := id).
    apply Running_observe_silent; [reflexivity|exact Hrun1].
  - split; [exact Hrun1|split; [exact Hh|discriminate]].
Qed.

Lemma Inv_handleResumePlayback id m :
  history id (log m) = [] -> InvRunning id m -> Inv (handleResumePlayback id m).
Proof.
  intros Hh Hrun. unfold handleResumePlayback.
  destruct (audioCtxRef m) as [[| |]|] eqn:Hc;
    try (now apply Running_done with (id := id)).
  apply Running_suspend; [now rewrite Hh|congruence|exact Hrun].
Qed.

Lemma Inv_handlePausePlayback id m :
  history id (log m) = [] -> InvRunning id m -> Inv (handlePausePlayback id m).
Proof.
  intros Hh Hrun. unfold handlePausePlayback.
  destruct (audioCtxRef m) as [[| |]|] eqn:Hc;
    try (now apply Running_done with (id := id)).
  apply Running_suspend; [now rewrite Hh|congruence|exact Hrun].
Qed.

Lemma Inv_handlePlayStory id text m :
  history id (log m) = [] -> InvRunning id m -> Inv (handlePlayStory id text m).
Proof.
  intros Hh Hrun. unfold handlePlayStory.
  destruct (playbackState m).
  - now apply Running_start.
  - pose proof (Inv_handleStopPlayback Hh Hrun) as Hs.
    destruct (handleStopPlayback id m) as [m1 [suspending|]]; [|exact Hs].
    destruct Hs as (Hrun1 & Hh1 & Hc1).
    apply Running_suspend; [now rewrite Hh1|exact Hc1|exact Hrun1].
  - now apply Inv_handleResumePlayback.
Qed.

Lemma Inv_speech id sentences i o m h' :
  history id (log m) = (i, Requested) :: h' ->
  audioCtxRef m <> None ->
  InvRunning id m -> Inv (handlePlayStory_speech id sentences i o m).
Proof.
  intros Hh Hctx Hrun.
  assert (Herr : Inv (handlePlayStory_loop id sentences (S i)
                        (observe (ConsoleError id i) m)))
    by (eapply Running_next with (st := Errored); eauto;
        cbn; now rewrite Nat.eqb_refl).
  unfold handlePlayStory_speech. destruct o as [|[data|e]|]; [| | |exact Herr].
  - destruct (stopPlaybackFlag m); [now apply Running_end with (id := id)|].
    eapply Running_next with (st := SkippedOver); eauto.
    cbn. now rewrite Nat.eqb_refl.
  - destruct (stopPlaybackFlag m); [now apply Running_end with (id := id)|].
    destruct (decodeAudioData_default data) as [buffer|e]; cbn [failed].
    + apply Running_suspend.
      * cbn [log observe history about]. rewrite Nat.eqb_refl.
        cbn [agrees]. apply Nat.eqb_refl.
      * intros _. exact Hctx.
      * apply Running_observe with (t := (i, DecodedOk));
          [reflexivity| |exact Hrun].
        rewrite Hh. cbn [pipeline follows fst snd].
        rewrite Nat.eqb_refl. cbn [andb].
        destruct Hrun as [Hi _]. pose proof (inv_pipeline Hi id) as Hp.
        now rewrite Hh in Hp.
    + apply Running_suspend; [|intros _; exact Hctx|exact Hrun].
      rewrite Hh. cbn [agrees]. apply Nat.eqb_refl.
  - destruct (stopPlaybackFlag m); [now apply Running_end with (id := id)|].
    exact Herr.
Qed.

Lemma Inv_wake id a m m' :
  agrees a (history id (log m)) = true ->
  (needsContext a = true -> audioCtxRef m <> None) ->
  InvRunning id m -> wake id a m = Some m' -> Inv m'.
Proof.
  intros Hag Hctx Hrun Hw.
  destruct a as [text suspending|text|text|sentences i|sentences i [b|e]
                 |sentences i|sentences i| | |];
    cbn [wake] in Hw; try discriminate; try (injection Hw as <-).
  - (* PlayStop *)
    apply agrees_setup in Hag; [|exact I].
    apply Running_suspend.
    + destruct suspending; [|now rewrite Hag].
      cbn [handleStopPlayback_done log setCurrentSentenceIdx
           setPlaybackState observe
           setContext history about]. now rewrite Hag.
    + discriminate.
    + destruct suspending; [now apply Running_stop_done|exact Hrun].
  - (* PlayGrace *)
    apply agrees_setup in Hag; [|exact I]. now apply Running_start.
  - (* PlayResume *)
    apply agrees_setup in Hag; [|exact I].
    apply Running_loop.
    + discriminate.
    + cbn [readyFor log observe setContext history about]. exact Hag.
    + apply Running_observe_silent; [reflexivity|].
      apply Running_setContext; [discriminate|exact Hrun].
  - (* LoopDecode, decoded *)
    apply agrees_decoded in Hag as [h' Hh].
    specialize (Hctx eq_refl).
    destruct (audioCtxRef m) as [c|] eqn:Hc; [|congruence].
    rewrite orb_false_r in Hw.
    destruct (stopPlaybackFlag m); injection Hw as <-.
    + apply Running_suspend.
      * cbn [log observe history about]. rewrite Nat.eqb_refl.
        cbn [agrees]. apply Nat.eqb_refl.
      * intros _. cbn [audioCtxRef observe]. congruence.
      * apply Running_observe with (t := (i, SkippedOver));
          [reflexivity| |exact Hrun].
        rewrite Hh. cbn [pipeline follows fst snd].
        rewrite Nat.eqb_refl. cbn [andb].
        destruct Hrun as [Hi _]. pose proof (inv_pipeline Hi id) as Hp.
        now rewrite Hh in Hp.
    + apply Running_suspend.
      * cbn [log observe history about]. rewrite Nat.eqb_refl.
        cbn [agrees]. apply Nat.eqb_refl.
      * intros _. cbn [audioCtxRef observe]. congruence.
      * apply Running_observe with (t := (i, Playing));
          [reflexivity| |exact Hrun].
        rewrite Hh. cbn [pipeline follows fst snd].
        rewrite Nat.eqb_refl. cbn [andb].
        destruct Hrun as [Hi _]. pose proof (inv_pipeline Hi id) as Hp.
        now rewrite Hh in Hp.
  - (* LoopDecode, thrown *)
    apply agrees_thrown in Hag as [h' Hh].
    eapply Running_next with (st := Errored); eauto.
    cbn. now rewrite Nat.eqb_refl.
  - (* LoopResolved *)
    apply agrees_resolved in Hag as [h' Hh].
    apply Running_loop; [auto| |exact Hrun].
    cbn [readyFor]. rewrite Hh. now eexists; eexists.
  - (* StopSuspend *)
    apply Running_done with (id := id). now apply Running_stop_done.
  - (* PauseSuspend *)
    apply Running_done with (id := id).
    apply Running_ext with
        (m := observe DeviceSuspended (setContext suspended m));
      try reflexivity.
    apply Running_observe_silent; [reflexivity|].
    apply Running_setContext; [discriminate|exact Hrun].
  - (* ResumeResume *)
    apply Running_done with (id := id).
    apply Running_ext with
        (m := observe DeviceResumed (setContext running m));
      try reflexivity.
    apply Running_observe_silent; [reflexivity|].
    apply Running_setContext; [discriminate|exact Hrun].
Qed.

Theorem Inv_step m e m' : Inv m -> step m e = Some m' -> Inv m'.
Proof.
  intros Hi Hs. destruct e as [text| | | |id o|id|id]; cbn [step] in Hs.
  - injection Hs as <-. destruct (Inv_fresh Hi) as [Hrun Hh].
    now apply Inv_handlePlayStory.
  - destruct (Inv_fresh Hi) as [Hrun Hh].
    pose proof (@Inv_handleStopPlayback (nextId m) (freshId m) Hh Hrun) as H.
    destruct (handleStopPlayback (nextId m) (freshId m)) as [m1 [[|]|]];
      injection Hs as <-.
    + destruct H as (Hrun1 & Hh1 & Hc1).
      apply Running_suspend; [now rewrite Hh1|auto|exact Hrun1].
    + destruct H as (Hrun1 & _). now apply Running_done with (id := nextId m).
    + exact H.
  - injection Hs as <-. destruct (Inv_fresh Hi) as [Hrun Hh].
    now apply Inv_handlePausePlayback.
  - injection Hs as <-. destruct (Inv_fresh Hi) as [Hrun Hh].
    now apply Inv_handleResumePlayback.
  - destruct (take id (pending m)) as [[a rest]|] eqn:Ht; [|discriminate].
    destruct a; try discriminate. injection Hs as <-.
    destruct (@Inv_take _ _ _ _ Hi Ht) as (Hrun & Hag & Hctx).
    apply agrees_speech in Hag as [h' Hh].
    exact (@Inv_speech id sentences i o (setPending rest m) h' Hh
                       (Hctx eq_refl) Hrun).
  - destruct (take id (pending m)) as [[a rest]|] eqn:Ht; [|discriminate].
    destruct (@Inv_take _ _ _ _ Hi Ht) as (Hrun & Hag & Hctx).
    exact (@Inv_wake id a (setPending rest m) m' Hag Hctx Hrun Hs).
  - destruct (take id (pending m)) as [[a rest]|] eqn:Ht; [|discriminate].
    destruct a; try discriminate.
    destruct (audioCtxRef m) as [[| |]|] eqn:Hc; try discriminate.
    injection Hs as <-.
    destruct (@Inv_take _ _ _ _ Hi Ht) as (Hrun & Hag & Hctx).
    apply agrees_ended in Hag as [h' Hh].
    apply (@Running_next id sentences i (Finished id i) PlayedOut Playing h'
                         (setPending rest m));
      [reflexivity|exact Hh|cbn; now rewrite Nat.eqb_refl|reflexivity
       |cbn [audioCtxRef setPending]; congruence|exact Hrun].
Qed.

Lemma Inv_init device : Inv (init device).
Proof.
  constructor; cbn; try tauto; try discriminate.
  constructor.
Qed.

Lemma Inv_run es : forall m m', Inv m -> run m es = Some m' -> Inv m'.
Proof.
  induction es as [|e es IH]; simpl; intros m m' Hi Hr.
  - now injection Hr as <-.
  - destruct (step m e) as [m1|] eqn:Hs; [|discriminate].
    eapply IH; [|exact Hr]. eapply Inv_step; eauto.
Qed.

Theorem Inv_reachable m : reachable m -> Inv m.
Proof.
  intros (device & es & Hr). eapply Inv_run; [apply Inv_init|exact Hr].
Qed.

End PlaybackInvariant.

(** ** The order of the sentences of a session *)

Section SessionOrder.

Import Segmenter Pcm Playback.

Lemma pipeline_tail b h : pipeline (b :: h) = true -> pipeline h = true.
Proof. cbn [pipeline]. intros H. now apply andb_true_iff in H. Qed.

Lemma pipeline_app_r h2 h1 : pipeline (h2 ++ h1) = true -> pipeline h1 = true.
Proof.
  induction h2 as [|b h2 IH]; simpl app; intros H; [exact H|].
  apply IH. now apply pipeline_tail in H.
Qed.

Lemma pipeline_step a b h :
  pipeline (b :: a :: h) = true -> follows a b = true.
Proof. cbn [pipeline]. intros H. now apply andb_true_iff in H. Qed.

Lemma follows_index a b : follows a b = true -> fst a <= fst b.
Proof.
  destruct a as [i sa], b as [j sb]. unfold follows. cbn [fst snd].
  destruct sb, sa; try discriminate; intros H;
    try (apply andb_true_iff in H as [H _]);
    apply Nat.eqb_eq in H; lia.
Qed.

Lemma follows_same a j st :
  st <> Requested -> follows a (j, st) = true -> fst a = j.
Proof.
  destruct a as [i sa]. unfold follows. cbn [fst snd].
  destruct st, sa; try discriminate; try congruence; intros _ H;
    apply Nat.eqb_eq in H; congruence.
Qed.

(** The request of sentence [i + 1] comes right after the end of
    sentence [i]. *)
Lemma pipeline_before_request i h :
  pipeline ((S i, Requested) :: h) = true ->
  exists st h', h = (i, st) :: h' /\ over st = true.
Proof.
  destruct h as [|[j st] h']; cbn [pipeline opening]; [discriminate|].
  intros H. apply andb_true_iff in H as [H _].
  unfold follows in H. cbn [fst snd] in H.
  apply andb_true_iff in H as [Hj Ho]. apply Nat.eqb_eq in Hj.
  injection Hj as ->. now exists st, h'.
Qed.

(** Indices never go back. *)
Lemma pipeline_mono h2 : forall b h1,
    pipeline (h2 ++ b :: h1) = true -> forall x, In x h2 -> fst b <= fst x.
Proof.
  induction h2 as [|c h2 IH]; intros b h1 H x Hx; [contradiction|].
  simpl app in H.
  assert (Hc : fst b <= fst c).
  { destruct h2 as [|d h2'].
    - simpl app in H. apply pipeline_step in H. now apply follows_index.
    - simpl app in H. pose proof (pipeline_step _ _ _ H) as Hf.
      apply follows_index in Hf.
      apply pipeline_tail in H.
      specialize (IH b h1 H d (or_introl eq_refl)). lia. }
  destruct Hx as [<-|Hx]; [exact Hc|].
  apply pipeline_tail in H. eapply IH; eauto.
Qed.

(** Whatever is observed of a sentence comes after its request. *)
Lemma pipeline_requested h : forall i st,
    pipeline h = true -> In (i, st) h -> In (i, Requested) h.
Proof.
  induction h as [|b h IH]; intros i st Hp Hin; [contradiction|].
  destruct Hin as [->|Hin].
  - destruct st.
    1: now left.
    all: right.
    all: destruct h as [|a h']; [cbn in Hp; destruct i; discriminate|].
    all: pose proof (pipeline_step _ _ _ Hp) as Hf.
    all: apply follows_same in Hf; [|discriminate].
    all: destruct a as [j sa]; cbn [fst] in Hf; subst j.
    all: apply (IH i sa); [now apply pipeline_tail in Hp|now left].
  - right. apply (IH i st); [now apply pipeline_tail in Hp|exact Hin].
Qed.

(** A sentence that started playing is the latest observation, or has
    been played out. *)
Lemma pipeline_played_out h : forall i,
    pipeline h = true -> In (i, Playing) h ->
    (exists h', h = (i, Playing) :: h') \/ In (i, PlayedOut) h.
Proof.
  induction h as [|b h IH]; intros i Hp Hin; [contradiction|].
  destruct Hin as [->|Hin]; [left; now eexists|].
  right. destruct (IH i (pipeline_tail _ _ Hp) Hin) as [[h' ->]|Hout].
  - apply pipeline_step in Hp. destruct b as [j sb].
    unfold follows in Hp. cbn [fst snd over] in Hp.
    destruct sb; try rewrite andb_false_r in Hp; try discriminate.
    apply Nat.eqb_eq in Hp. subst j. now left.
  - now right.
Qed.

Lemma history_In id t l :
  In t (history id l) <-> exists o, In o l /\ about o = Some (id, t).
Proof.
  induction l as [|o l IH]; simpl.
  - split; [contradiction|]. now intros (o & [] & _).
  - destruct (about o) as [[id' t']|] eqn:Ho.
    + destruct (Nat.eqb_spec id' id) as [->|Hne].
      * simpl. rewrite IH. split.
        -- intros [<-|(o' & Hin & Ho')]; [exists o; auto|exists o'; auto].
        -- intros (o' & [<-|Hin] & Ho'); [left; congruence|right; eauto].
      * rewrite IH. split.
        -- intros (o' & Hin & Ho'). exists o'; auto.
        -- intros (o' & [<-|Hin] & Ho'); [congruence|eauto].
    + rewrite IH. split.
      * intros (o' & Hin & Ho'). exists o'; auto.
      * intros (o' & [<-|Hin] & Ho'); [congruence|eauto].
Qed.

Lemma about_inv o id i st :
  about o = Some (id, (i, st)) ->
  match st with
  | Requested => exists txt, o = Request id i txt
  | DecodedOk => o = Decoded id i
  | Playing => o = Started id i
  | PlayedOut => o = Finished id i
  | SkippedOver => o = Skipped id i
  | Errored => o = ConsoleError id i
  end.
Proof.
  destruct o; simpl; try discriminate; intros [= -> -> <-];
    try reflexivity. now eexists.
Qed.

(** The order of the sentences of a session, from its history. *)
Lemma request_after_completion id i txt newer older :
  (forall id', pipeline (history id' (newer ++ Request id (S i) txt :: older))
               = true) ->
  (exists txt', In (Request id i txt') older) /\
  (In (Finished id i) older \/ In (Skipped id i) older
   \/ In (ConsoleError id i) older) /\
  (In (Started id i) older -> In (Finished id i) older) /\
  (forall o j st, In o newer -> about o = Some (id, (j, st)) -> S i <= j).
Proof.
  intros Hall. specialize (Hall id).
  rewrite history_app in Hall.
  rewrite (@history_own id (Request id (S i) txt) (S i, Requested) older
                        eq_refl) in Hall.
  pose proof (pipeline_app_r _ _ Hall) as Hreq.
  pose proof (pipeline_tail _ _ Hreq) as Hold.
  destruct (pipeline_before_request _ _ Hreq) as (st & h' & Hh & Hover).
  assert (Hlast : In (i, st) (history id older)) by (rewrite Hh; now left).
  split; [|split; [|split]].
  - pose proof (pipeline_requested _ i st Hold Hlast) as Hr.
    apply history_In in Hr as (o & Hin & Ho).
    apply about_inv in Ho as [txt' ->]. now exists txt'.
  - apply history_In in Hlast as (o & Hin & Ho).
    apply about_inv in Ho.
    destruct st; try discriminate; subst o; auto.
  - intros Hs.
    assert (Hp : In (i, Playing) (history id older)).
    { apply history_In. exists (Started id i). now split. }
    destruct (pipeline_played_out _ i Hold Hp) as [[h'' Hh'']|Hout].
    + rewrite Hh in Hh''. injection Hh'' as -> _. discriminate.
    + apply history_In in Hout as (o & Hin & Ho).
      apply about_inv in Ho. now subst o.
  - intros o j st' Hin Ho.
    assert (Hx : In (j, st') (history id newer)).
    { apply history_In. now exists o. }
    apply (pipeline_mono _ _ _ Hall) in Hx. exact Hx.
Qed.

(** C2: in every state the component can reach, and for every session,
    when the request for sentence [i + 1] is made the pipeline of
    sentence [i] is over: it was requested, it ended (played out, skipped
    or failed), if it started playing then it played out, and nothing
    about it is observed afterwards.  When the audio of the last sentence
    ends the controller goes to idle with no current sentence; a session
    left alone gets there. *)
Theorem sentences_in_order :
  (forall m id i txt newer older,
      reachable m ->
      log m = newer ++ Request id (S i) txt :: older ->
      (exists txt', In (Request id i txt') older) /\
      (In (Finished id i) older \/ In (Skipped id i) older
       \/ In (ConsoleError id i) older) /\
      (In (Started id i) older -> In (Finished id i) older) /\
      (forall o j st,
          In o newer -> about o = Some (id, (j, st)) -> S i <= j)) /\
  (forall m id sentences i rest,
      take id (pending m) = Some (LoopEnded sentences i, rest) ->
      audioCtxRef m = Some running ->
      S i = length sentences ->
      exists m',
        step m (Ended id) = Some m' /\
        playbackState m' = idle /\
        currentSentenceIdx m' = (-1)%Z /\
        pending m' = rest /\
        log m' = Finished id i :: log m) /\
  (forall m text os,
      playbackState m = idle ->
      deviceAvailable m = true ->
      length os = length (splitSentences text) ->
      exists m' setup,
        run m (session m text os) = Some m' /\
        playbackState m' = idle /\
        currentSentenceIdx m' = (-1)%Z /\
        pending m' = pending m /\
        log m' = rev (narration (nextId m) (splitSentences text) 0 os)
                   ++ setup ++ log m).
Proof.
  split; [|split].
  - intros m id i txt newer older Hreach Hlog.
    apply (@request_after_completion id i txt newer older).
    intros id'. rewrite <- Hlog.
    apply (inv_pipeline (Inv_reachable Hreach)).
  - intros m id sentences i rest Ht Hc Hlast.
    eexists. split.
    + unfold step. rewrite Ht, Hc. reflexivity.
    + unfold handlePlayStory_loop.
      rewrite (proj2 (nth_error_None sentences (S i))) by lia.
      cbn. repeat split; reflexivity.
  - intros m text os H1 H2 H4.
    destruct (play_runs m text os H1 H2 H4) as
        (m' & setup & Hr & Ha & Hb & Hc & Hd & _).
    exists m', setup. repeat split; assumption.
Qed.

Lemma sentences_in_order_witness :
  ((exists txt', In (Request 0 0 txt')
                    [Finished 0 0; Started 0 0; Decoded 0 0;
                     Request 0 0 (js "Hello world."); DeviceCreated]) /\
   (In (Finished 0 0) [Finished 0 0; Started 0 0; Decoded 0 0;
                       Request 0 0 (js "Hello world."); DeviceCreated]
    \/ In (Skipped 0 0) [Finished 0 0; Started 0 0; Decoded 0 0;
                         Request 0 0 (js "Hello world."); DeviceCreated]
    \/ In (ConsoleError 0 0) [Finished 0 0; Started 0 0; Decoded 0 0;
                              Request 0 0 (js "Hello world.");
                              DeviceCreated]) /\
   (In (Started 0 0) [Finished 0 0; Started 0 0; Decoded 0 0;
                      Request 0 0 (js "Hello world."); DeviceCreated] ->
    In (Finished 0 0) [Finished 0 0; Started 0 0; Decoded 0 0;
                       Request 0 0 (js "Hello world."); DeviceCreated]) /\
   (forall o j st, In o [] -> about o = Some (0, (j, st)) -> 1 <= j)) /\
  (exists m',
      step playingLast (Ended 0) = Some m' /\
      playbackState m' = idle /\
      currentSentenceIdx m' = (-1)%Z /\
      pending m' = [] /\
      log m' = Finished 0 1 :: log playingLast) /\
  (exists m' setup,
      run (init true) (session (init true) greeting [audio; audio])
      = Some m' /\
      playbackState m' = idle /\
      currentSentenceIdx m' = (-1)%Z /\
      pending m' = [] /\
      log m' = rev (narration 0 (splitSentences greeting) 0 [audio; audio])
                 ++ setup ++ []).
Proof.
  split; [|split].
  - apply (proj1 sentences_in_order requestedSecond 0 0 (js "How are you?")
                 [] [Finished 0 0; Started 0 0; Decoded 0 0;
                     Request 0 0 (js "Hello world."); DeviceCreated]).
    + exists true, [Play greeting; Settle 0 audio; Wake 0; Ended 0].
      vm_compute. reflexivity.
    + vm_compute. reflexivity.
  - apply (proj1 (proj2 sentences_in_order) playingLast 0
                 (splitSentences greeting) 1 []).
    + vm_compute. reflexivity.
    + vm_compute. reflexivity.
    + vm_compute. reflexivity.
  - apply (proj2 (proj2 sentences_in_order) (init true) greeting
                 [audio; audio]).
    + reflexivity.
    + reflexivity.
    + vm_compute. reflexivity.
Defined.

End SessionOrder.

(** ** Stopping *)

Section StopFacts.

Import Segmenter Pcm Playback.








Lemma loopPoint_needsContext a : loopPoint a = true -> needsContext a = true.
Proof. destruct a; simpl; try discriminate; reflexivity. Qed.




(** Nor does a [stop] hold against a [play] that is still on its way: the
    [play] called over the running session waits out its 50 ms and then
    sets the status to playing and clears the flag, after the stop has
    settled. *)
Example stop_overridden_by_restart :
  exists m,
    run (init true)
        [Play greeting; Settle 0 audio; Wake 0;
         Play greeting; Stop; Wake 1; Wake 2; Wake 1; Wake 1] = Some m /\
    playbackState m = playing /\
    stopPlaybackFlag m = false /\
    ~ In StopSuspend (map snd (pending m)).
Proof.
  eexists. split; [vm_compute; reflexivity|].
  split; [reflexivity|]. split; [reflexivity|].
  simpl. intros [H|[H|[]]]; discriminate.
Qed.

(** [stop] while the request of sentence 0 is in flight: the answer is
    discarded at line 235. *)
Example stop_during_fetch :
  run (init true) [Play greeting; Stop; Wake 1; Settle 0 audio]
  = Some {| playbackState := idle; currentSentenceIdx := (-1)%Z;
            audioCtxRef := Some suspended; stopPlaybackFlag := true;
            deviceAvailable := true; pending := []; nextId := 2;
            log := [DeviceSuspended; Request 0 0 (js "Hello world.");
                    DeviceCreated] |}.
Proof. vm_compute. reflexivity. Qed.

(** [stop] between the answer and the start of the source, while the
    decoder is awaited: the executor resolves at line 243. *)
Example stop_after_decode :
  run (init true) [Play greeting; Settle 0 audio; Stop; Wake 0; Wake 1; Wake 0]
  = Some {| playbackState := idle; currentSentenceIdx := (-1)%Z;
            audioCtxRef := Some suspended; stopPlaybackFlag := true;
            deviceAvailable := true; pending := []; nextId := 2;
            log := [DeviceSuspended; Skipped 0 0; Decoded 0 0;
                    Request 0 0 (js "Hello world."); DeviceCreated] |}.
Proof. vm_compute. reflexivity. Qed.

(** [stop] while sentence 0 is being played: the controller is idle, and
    the call of the session stays suspended at line 241, its source
    frozen in the suspended context. *)
Example stop_during_playback :
  run (init true) [Play greeting; Settle 0 audio; Wake 0; Stop; Wake 1]
  = Some {| playbackState := idle; currentSentenceIdx := (-1)%Z;
            audioCtxRef := Some suspended; stopPlaybackFlag := true;
            deviceAvailable := true;
            pending := [(0, LoopEnded (splitSentences greeting) 0)];
            nextId := 2;
            log := [DeviceSuspended; Started 0 0; Decoded 0 0;
                    Request 0 0 (js "Hello world."); DeviceCreated] |}.
Proof. vm_compute. reflexivity. Qed.

(** [stop] while paused. *)
Example stop_while_paused :
  run (init true)
      [Play greeting; Settle 0 audio; Wake 0; Pause; Wake 1; Stop; Wake 2]
  = Some {| playbackState := idle; currentSentenceIdx := (-1)%Z;
            audioCtxRef := Some suspended; stopPlaybackFlag := true;
            deviceAvailable := true;
            pending := [(0, LoopEnded (splitSentences greeting) 0)];
            nextId := 3;
            log := [DeviceSuspended; DeviceSuspended; Started 0 0;
                    Decoded 0 0; Request 0 0 (js "Hello world.");
                    DeviceCreated] |}.
Proof. vm_compute. reflexivity. Qed.

End StopFacts.

(** ** Story reader *)

Section ReaderFacts.

Import Segmenter Playback Reader.

(** *** Sentences are trimmed *)

Lemma trimStart_head s :
  match trimStart s with
  | [] => True
  | c :: _ => whitespace c = false
  end.
Proof.
  induction s as [|c s IH]; simpl; [exact I|].
  destruct (whitespace c) eqn:E; [exact IH|exact E].
Qed.

Lemma trimStart_fixed s :
  match s with [] => True | c :: _ => whitespace c = false end ->
  trimStart s = s.
Proof. destruct s as [|c s]; simpl; [reflexivity|now intros ->]. Qed.

Lemma trimStart_idem s : trimStart (trimStart s) = trimStart s.
Proof. apply trimStart_fixed, trimStart_head. Qed.

(** Removing whitespace at the end keeps a first character that is not
    whitespace. *)
Lemma trimStart_rev_head c s :
  whitespace c = false ->
  exists s', rev (trimStart (rev (c :: s))) = c :: s'.
Proof.
  intros Hc. revert c Hc.
  induction s as [|d s IH] using rev_ind; intros c Hc.
  - simpl. rewrite Hc. now exists [].
  - replace (rev (c :: s ++ [d])) with (d :: rev (c :: s))
      by (simpl; rewrite rev_app_distr; reflexivity).
    simpl trimStart. destruct (whitespace d) eqn:Ed.
    + apply IH, Hc.
    + exists (s ++ [d]). simpl. rewrite rev_app_distr. simpl.
      rewrite rev_involutive. reflexivity.
Qed.

Lemma trimEnd_idem s : trimEnd (trimEnd s) = trimEnd s.
Proof. unfold trimEnd. now rewrite rev_involutive, trimStart_idem. Qed.

Lemma trimStart_trimEnd s :
  match s with [] => True | c :: _ => whitespace c = false end ->
  trimStart (trimEnd s) = trimEnd s.
Proof.
  destruct s as [|c s]; intros H; [reflexivity|].
  unfold trimEnd. destruct (@trimStart_rev_head c s H) as [s' ->].
  simpl. now rewrite H.
Qed.

Lemma trim_idem s : trim (trim s) = trim s.
Proof.
  unfold trim. rewrite trimStart_trimEnd by apply trimStart_head.
  apply trimEnd_idem.
Qed.

(** Where the expression finds nothing, no character is outside the
    terminal marks. *)
Lemma exec_here_one c p :
  terminal c = false -> forallb terminal p = true ->
  exec_here sentenceRe (c :: p) <> None.
Proof.
  intros Hc Hp. destruct p as [|d p].
  - rewrite (@exec_here_no_terminal [c]); [discriminate|discriminate|].
    intros x [<-|[]]. exact Hc.
  - change (c :: d :: p) with ([c] ++ d :: p).
    rewrite (@exec_here_last [c] (d :: p)); try discriminate; [|exact Hp].
    simpl. unfold nonterminal. now rewrite Hc.
Qed.

Lemma scan_nothing s :
  forall fuel, length s < fuel -> scan sentenceRe fuel s = [] ->
               forallb terminal s = true.
Proof.
  induction s as [|c s IH]; intros fuel Hf H; [reflexivity|].
  destruct fuel as [|fuel]; [lia|]. cbn [scan] in H.
  destruct (exec_here sentenceRe (c :: s)) as [rest|] eqn:E.
  - destruct (length (c :: s) - length rest); discriminate.
  - assert (Hs : forallb terminal s = true).
    { apply (IH fuel); [simpl in Hf; lia|exact H]. }
    simpl. rewrite Hs, andb_true_r.
    destruct (terminal c) eqn:Ec; [reflexivity|].
    exfalso. now apply (@exec_here_one c s Ec Hs).
Qed.

Lemma terminal_not_whitespace c : terminal c = true -> whitespace c = false.
Proof.
  intros H. destruct (whitespace c) eqn:E; [|reflexivity].
  apply whitespace_nonterminal in E. congruence.
Qed.

Lemma trim_terminals s : forallb terminal s = true -> trim s = s.
Proof.
  intros H. unfold trim.
  assert (Hs : trimStart s = s).
  { apply trimStart_fixed. destruct s as [|c s]; [exact I|].
    simpl in H. apply andb_true_iff in H as [H _].
    now apply terminal_not_whitespace. }
  rewrite Hs. unfold trimEnd.
  rewrite trimStart_fixed; [apply rev_involutive|].
  destruct (rev s) as [|c r] eqn:Er; [exact I|].
  apply terminal_not_whitespace.
  rewrite forallb_forall in H. apply H.
  apply in_rev. rewrite Er. now left.
Qed.

(** No attempt succeeds on text made of terminal marks. *)
Lemma scan_terminals s :
  forallb terminal s = true -> forall fuel, scan sentenceRe fuel s = [].
Proof.
  induction s as [|c s IH]; intros H fuel.
  - destruct fuel; reflexivity.
  - simpl in H. apply andb_true_iff in H as [Hc Hs].
    destruct fuel as [|fuel]; [reflexivity|].
    cbn [scan].
    assert (E : exec_here sentenceRe (c :: s) = None).
    { unfold exec_here, sentenceRe. cbn [rmatch plus_run].
      unfold nonterminal. rewrite Hc. reflexivity. }
    rewrite E. now apply IH.
Qed.

(** X1: every sentence that [splitSentences] returns is non-empty and
    has no whitespace at either end, whatever the text: the matches are
    trimmed and the empty ones dropped.  The expression finds no match at
    all, so that the fallback [[text]] is taken, exactly for the texts
    made of terminal marks alone, which are returned as they are. *)
Theorem sentences_trimmed (text : jsstring) :
  (forall sentence,
      In sentence (splitSentences text) ->
      sentence <> [] /\ trim sentence = sentence) /\
  (match_g sentenceRe text = None <-> forallb terminal text = true) /\
  (text <> [] -> forallb terminal text = true ->
   splitSentences text = [text]).
Proof.
  assert (Hnone : match_g sentenceRe text = None
                  <-> forallb terminal text = true).
  { unfold match_g. split.
    - intros H. apply (@scan_nothing text (S (length text))); [lia|].
      destruct (scan sentenceRe (S (length text)) text); [reflexivity|].
      discriminate.
    - intros H. now rewrite scan_terminals. }
  split; [|split; [exact Hnone|]].
  - intros sentence H. unfold splitSentences in H.
    destruct (truthy text) eqn:Et; [|contradiction].
    destruct (match_g sentenceRe text) as [ms|] eqn:Em.
    + apply filter_In in H as [H Ht]. apply in_map_iff in H as [m [<- _]].
      split.
      * intros E. rewrite E in Ht. discriminate.
      * apply trim_idem.
    + destruct H as [<-|[]]. split.
      * intros ->. discriminate.
      * apply trim_terminals. now apply Hnone.
  - intros Hne Ht. unfold splitSentences.
    apply Hnone in Ht. rewrite Ht.
    destruct text; [congruence|reflexivity].
Qed.

(** The fallback at work. *)
Example only_terminals :
  splitSentences (js "?!") = [js "?!"].
Proof. reflexivity. Qed.


Lemma split_keeps_punctuated_text_witness :
  nonWhitespace
    (concat (map trim (splitSentences (js "Hello world. How are you?"))))
  = nonWhitespace (js "Hello world. How are you?").
Proof. apply split_keeps_punctuated_text. exact punctuated_hello. Defined.

(** *** The chunks of a sentence *)

Lemma plus_run_some p :
  forall s rest, plus_run Some p s = Some rest ->
    exists pre, s = pre ++ rest /\ pre <> [] /\ forallb p pre = true.
Proof.
  induction s as [|c s IH]; simpl; intros rest H; [discriminate|].
  destruct (p c) eqn:Ec; [|discriminate].
  destruct (plus_run Some p s) as [r|] eqn:E.
  - injection H as <-. destruct (IH r eq_refl) as [pre [-> [_ Hp]]].
    exists (c :: pre). simpl. rewrite Ec, Hp. repeat split. discriminate.
  - injection H as <-. exists [c]. simpl. rewrite Ec. repeat split.
    discriminate.
Qed.

Lemma plus_run_none p c s :
  plus_run Some p (c :: s) = None -> p c = false.
Proof.
  simpl. destruct (p c); [|reflexivity].
  destruct (plus_run Some p s); discriminate.
Qed.

Lemma firstn_prefix (pre rest : jsstring) :
  firstn (length (pre ++ rest) - length rest) (pre ++ rest) = pre.
Proof.
  rewrite length_app. replace (length pre + length rest - length rest)
    with (length pre + 0) by lia.
  rewrite firstn_app_2. simpl. apply app_nil_r.
Qed.

(** The expression matches no empty text, so every round takes a
    character: more rounds than characters change nothing. *)
Lemma splitLoop_fuel f1 :
  forall f2 piece s, length s < f1 -> length s < f2 ->
    splitLoop chunkRe f1 piece s = splitLoop chunkRe f2 piece s.
Proof.
  induction f1 as [|f1 IH]; intros f2 piece s H1 H2; [lia|].
  destruct f2 as [|f2]; [lia|]. simpl.
  destruct s as [|c s]; [reflexivity|].
  destruct (exec_here chunkRe (c :: s)) as [rest|] eqn:E.
  - apply plus_run_some in E as [pre [E [Hne _]]].
    assert (Hl : length rest < length (c :: s)).
    { rewrite E, length_app. destruct pre; [congruence|simpl; lia]. }
    rewrite E in *.
    destruct (length (pre ++ rest) - length rest) eqn:En; [lia|].
    f_equal. f_equal. apply IH; lia.
  - apply IH; simpl in *; lia.
Qed.

(** The chunks, put together, are the piece and the text. *)
Lemma splitLoop_concat fuel :
  forall piece s, concat (splitLoop chunkRe fuel piece s) = piece ++ s.
Proof.
  induction fuel as [|fuel IH]; intros piece s; simpl.
  - apply app_nil_r.
  - destruct s as [|c s]; [simpl; now rewrite !app_nil_r|].
    destruct (exec_here chunkRe (c :: s)) as [rest|] eqn:E.
    + apply plus_run_some in E as [pre [E [Hne _]]].
      rewrite E, firstn_prefix.
      assert (Hn : length (pre ++ rest) - length rest = length pre)
        by (rewrite length_app; lia).
      rewrite Hn. destruct pre as [|d pre]; [congruence|].
      cbn [length]. cbn [concat]. now rewrite IH.
    + rewrite IH, <- app_assoc. reflexivity.
Qed.

(** X2: the chunks a sentence is cut into for display, put together
    again, are the sentence: the cut at the runs of whitespace and
    brackets loses no character. *)
Theorem chunks_cover_sentence (sentence : jsstring) :
  concat (split chunkRe sentence) = sentence.
Proof.
  destruct sentence as [|c s]; [reflexivity|].
  unfold split. apply splitLoop_concat.
Qed.

Lemma splitLoop_uniform fuel :
  forall piece s, length s < fuel ->
    forallb (fun c => negb (separator c)) piece = true ->
    forall chunk, In chunk (splitLoop chunkRe fuel piece s) -> uniform chunk.
Proof.
  induction fuel as [|fuel IH]; intros piece s Hf Hp chunk H; [lia|].
  simpl in H. destruct s as [|c s].
  - destruct H as [<-|[]]. now right.
  - destruct (exec_here chunkRe (c :: s)) as [rest|] eqn:E.
    + apply plus_run_some in E as [pre [E [Hne Hpre]]].
      rewrite E, firstn_prefix in H.
      assert (Hn : length (pre ++ rest) - length rest = length pre)
        by (rewrite length_app; lia).
      rewrite Hn in H.
      assert (Hl : length rest < fuel).
      { apply (f_equal (@length N)) in E. rewrite length_app in E.
        simpl in E, Hf. destruct pre; [congruence|simpl in E; lia]. }
      destruct pre as [|d pre]; [congruence|]. cbn [length] in H.
      destruct H as [<-|[<-|H]].
      * now right.
      * now left.
      * apply (IH [] rest Hl eq_refl chunk H).
    + apply plus_run_none in E.
      apply (IH (piece ++ [c]) s); [simpl in Hf; lia| |exact H].
      rewrite forallb_app, Hp. simpl. now rewrite E.
Qed.

Lemma split_uniform sentence chunk :
  In chunk (split chunkRe sentence) -> uniform chunk.
Proof.
  destruct sentence as [|c s]; unfold split.
  - intros [<-|[]]. now left.
  - apply splitLoop_uniform; [simpl; lia|reflexivity].
Qed.

Lemma trimStart_blank s : forallb whitespace s = true -> trimStart s = [].
Proof.
  induction s as [|c s IH]; simpl; [reflexivity|].
  intros H. apply andb_true_iff in H as [-> H]. now apply IH.
Qed.

Lemma trim_blank s : forallb whitespace s = true -> trim s = [].
Proof. intros H. unfold trim. now rewrite trimStart_blank. Qed.

Lemma forallb_filter {A} (p q : A -> bool) l :
  forallb p l = true -> forallb p (filter q l) = true.
Proof.
  induction l as [|a l IH]; simpl; [reflexivity|].
  intros H. apply andb_true_iff in H as [Ha H].
  destruct (q a); simpl; [rewrite Ha|]; now apply IH.
Qed.

(** Without its brackets a run of separators is whitespace. *)
Lemma cleanText_separators chunk :
  forallb separator chunk = true ->
  forallb whitespace (cleanText chunk) = true.
Proof.
  unfold cleanText. induction chunk as [|c s IH]; simpl; [reflexivity|].
  intros H. apply andb_true_iff in H as [Hc H].
  unfold separator in Hc.
  destruct ((c =? 91) || (c =? 93))%N eqn:E; simpl; [now apply IH|].
  rewrite <- orb_assoc, E, orb_false_r in Hc. rewrite Hc. now apply IH.
Qed.

(** X3: a chunk rendered as a seed word (it starts with an opening and
    ends with a closing bracket) never shows a word: the brackets are
    separators of the cut, so such a chunk is a run of separators, what
    is displayed of it is whitespace at most, and a click on it looks
    nothing up.  A word written between brackets is a chunk of its own
    and is rendered as an ordinary word. *)
Theorem seed_mark_shows_no_word (sentence displayWord : jsstring) :
  In (Clickable true displayWord) (renderSentence sentence) ->
  forallb whitespace displayWord = true /\ lookupText displayWord = [].
Proof.
  unfold renderSentence. intros H.
  apply in_map_iff in H as [chunk [Hr Hin]].
  unfold renderChunk in Hr.
  destruct (truthy (trim chunk)); [|discriminate].
  injection Hr as Hseed <-.
  apply andb_true_iff in Hseed as [Hs _].
  assert (Hsep : forallb separator chunk = true).
  { destruct (split_uniform _ _ Hin) as [Hu|Hu]; [exact Hu|].
    destruct chunk as [|c s]; [discriminate|].
    simpl in Hs, Hu. apply N.eqb_eq in Hs. subst c. discriminate. }
  pose proof (cleanText_separators _ Hsep) as Hw.
  split; [exact Hw|].
  unfold lookupText. apply trim_blank. now apply forallb_filter.
Qed.

Lemma seed_mark_shows_no_word_witness :
  forallb whitespace (js " ") = true /\ lookupText (js " ") = [].
Proof.
  apply (@seed_mark_shows_no_word (js "a[ ]b")).
  vm_compute. right. left. reflexivity.
Defined.

(** A word between brackets is not rendered as a seed word. *)
Example bracketed_word_not_marked :
  renderSentence (js "A [cat] sat.")
  = [Clickable false (js "A"); Clickable false (js " ");
     Clickable false (js "cat"); Clickable false (js " ");
     Clickable false (js "sat.")].
Proof. reflexivity. Qed.

End ReaderFacts.

(** ** PCM decoder: several channels *)

Section PcmChannels.

Import Pcm.

Lemma store_beyond (a : list float) :
  forall i x, length a <= i -> store a i x = a.
Proof.
  induction a as [|y a IH]; intros i x H; [reflexivity|].
  destruct i as [|i]; simpl in *; [lia|]. f_equal. apply IH. lia.
Qed.

Lemma fill_beyond (f : nat -> float) :
  forall m k cd, length cd <= k ->
    fold_left (fun cd i => store cd i (f i)) (seq k m) cd = cd.
Proof.
  induction m as [|m IH]; intros k cd H; [reflexivity|].
  simpl. rewrite store_beyond by exact H. apply IH. lia.
Qed.

(** The loop run for at least as many rounds as the array is long writes
    every cell; the writes past the end are ignored. *)
Lemma fill_all (f : nat -> float) k cd :
  length cd <= k ->
  fold_left (fun cd i => store cd i (f i)) (seq 0 k) cd
  = map f (seq 0 (length cd)).
Proof.
  intros H.
  replace k with (length cd + (k - length cd)) by lia.
  rewrite seq_app, fold_left_app, fill_prefix by lia.
  rewrite skipn_all, app_nil_r. simpl.
  apply fill_beyond. now rewrite length_map, length_seq.
Qed.

Lemma nth_error_combine_seq {A} (z : A) :
  forall n s c, c < n ->
    nth_error (combine (seq s n) (repeat z n)) c = Some (s + c, z).
Proof.
  induction n as [|n IH]; intros s c Hc; [lia|].
  destruct c as [|c]; simpl.
  - now rewrite Nat.add_0_r.
  - rewrite IH by lia. f_equal. f_equal. lia.
Qed.

Lemma nth_error_channels {B} (g : nat * list float -> B) z C c :
  c < C ->
  nth_error (map g (combine (seq 0 C) (repeat z C))) c = Some (g (c, z)).
Proof.
  intros H. now rewrite nth_error_map, nth_error_combine_seq.
Qed.

(** X4: for [C] channels, from 1 to 32, at a rate from 8000 to 96000 Hz,
    which the [createBuffer] of every implementation accepts, and an even
    number of bytes holding [n >= C] samples, the decoder returns a buffer
    of [C] channels of [n / C] frames each at that rate, and frame [i] of
    channel [c] is sample [i * C + c] of the input over 32768: the
    samples are de-interleaved, the samples of an incomplete last frame
    are dropped, and no cell is left at its initial value or set to
    NaN. *)
Theorem decode_deinterleaves (data : list byte) (ctx : Limits) (rate : Z)
        (C n : nat) :
  conforming ctx = true -> (8000 <= rate <= 96000)%Z ->
  1 <= C <= 32 -> length data = 2 * n -> C <= n ->
  exists buffer,
    decodeAudioData data ctx rate (Z.of_nat C) = Ok buffer /\
    numberOfChannels buffer = Z.of_nat C /\
    frames buffer = n / C /\
    sampleRate buffer = rate /\
    length (channels buffer) = C /\
    forall c, c < C ->
      exists channelData,
        nth_error (channels buffer) c = Some channelData /\
        length channelData = n / C /\
        forall i, i < n / C ->
          exists v,
            nth_error (int16_view data) (i * C + c) = Some v /\
            nth_error channelData i = Some (Num (v # 32768)).
Proof.
  intros Hctx Hr HC Hlen Hn.
  pose proof (int16_view_length n data Hlen) as Hv.
  assert (HF : 1 <= n / C) by (apply Nat.div_str_pos; lia).
  assert (HZ : (Z.of_nat n / Z.of_nat C)%Z = Z.of_nat (n / C))
    by (symmetry; apply Nat2Z.inj_div).
  unfold decodeAudioData, newInt16Array. rewrite Hlen, even_double.
  simpl bind. rewrite Hv. unfold createBuffer. rewrite HZ.
  rewrite (@conforming_supports ctx (Z.of_nat C) rate Hctx) by lia.
  replace (Z.of_nat (n / C) <? 1)%Z with false
    by (symmetry; apply Z.ltb_ge; lia).
  simpl bind. cbn [numberOfChannels frames sampleRate channels].
  rewrite !Nat2Z.id.
  set (iters := Z.to_nat ((Z.of_nat n + Z.of_nat C - 1) / Z.of_nat C)).
  assert (Hit : n / C <= iters).
  { unfold iters. apply Nat2Z.inj_le. rewrite Z2Nat.id.
    - rewrite <- HZ. apply Z.div_le_mono; lia.
    - apply Z.div_pos; lia. }
  eexists. split; [reflexivity|].
  cbn [numberOfChannels frames sampleRate channels].
  split; [reflexivity|]. split; [reflexivity|]. split; [reflexivity|].
  split.
  { rewrite length_map, length_combine, length_seq, repeat_length. lia. }
  intros c Hc.
  rewrite (nth_error_channels
             (fun p => let '(channel, channelData) := p in
                       fillChannel (int16_view data) C channel iters
                                   channelData)) by exact Hc.
  eexists. split; [reflexivity|].
  unfold fillChannel.
  rewrite (fill_all (fun i => scaled (int16_view data) (i * C + c)))
    by now rewrite repeat_length.
  rewrite repeat_length. split; [now rewrite length_map, length_seq|].
  intros i Hi.
  assert (Hj : i * C + c < length (int16_view data)).
  { rewrite Hv. pose proof (Nat.div_mod_eq n C) as Hd.
    assert (i * C + c < (n / C) * C) by nia. lia. }
  destruct (nth_error (int16_view data) (i * C + c)) as [v|] eqn:E.
  - exists v. split; [reflexivity|].
    rewrite nth_error_map, nth_error_seq.
    replace (i <? n / C) with true by (symmetry; apply Nat.ltb_lt; lia).
    simpl. unfold scaled. now rewrite E.
  - apply nth_error_None in E. lia.
Qed.

Lemma decode_deinterleaves_witness :
  exists buffer,
    decodeAudioData [x00; x80; xff; x7f; x01; x00; x02; x00; x03; x00]
                    required 24000 (Z.of_nat 2) = Ok buffer /\
    numberOfChannels buffer = Z.of_nat 2 /\
    frames buffer = 5 / 2 /\
    sampleRate buffer = 24000%Z /\
    length (channels buffer) = 2 /\
    forall c, c < 2 ->
      exists channelData,
        nth_error (channels buffer) c = Some channelData /\
        length channelData = 5 / 2 /\
        forall i, i < 5 / 2 ->
          exists v,
            nth_error
              (int16_view [x00; x80; xff; x7f; x01; x00; x02; x00; x03; x00])
              (i * 2 + c) = Some v /\
            nth_error channelData i = Some (Num (v # 32768)).
Proof.
  apply (@decode_deinterleaves
           [x00; x80; xff; x7f; x01; x00; x02; x00; x03; x00]
           required 24000 2 5).
  - reflexivity.
  - lia.
  - lia.
  - reflexivity.
  - lia.
Defined.

End PcmChannels.

(** ** Pausing, resuming, and the one audio context *)

Section DeviceFacts.

Import Segmenter Pcm Playback Device.

(** X5: pausing a controller whose context is running and resuming it
    (by [handleResumePlayback], or by [handlePlayStory], which ignores
    its text while the status is [paused]) leaves the suspended calls,
    the current sentence and the stop flag as they were: nothing is
    requested, decoded or started again, the log gains the suspension
    and the resumption of the device only.  In between the status is
    [paused], the context is suspended and no source can end. *)
Theorem pause_resume_round_trip (m : Machine) (text : jsstring) :
  audioCtxRef m = Some running ->
  exists m1 m2,
    run m [Pause; Wake (nextId m)] = Some m1 /\
    playbackState m1 = paused /\
    audioCtxRef m1 = Some suspended /\
    pending m1 = pending m /\
    (forall id, step m1 (Ended id) = None) /\
    run m1 [Resume; Wake (nextId m1)] = Some m2 /\
    run m1 [Play text; Wake (nextId m1)] = Some m2 /\
    playbackState m2 = playing /\
    audioCtxRef m2 = Some running /\
    pending m2 = pending m /\
    currentSentenceIdx m2 = currentSentenceIdx m /\
    stopPlaybackFlag m2 = stopPlaybackFlag m /\
    log m2 = DeviceResumed :: DeviceSuspended :: log m.
Proof.
  intros Hc.
  assert (H1 : run m [Pause; Wake (nextId m)]
               = Some (setPlaybackState paused
                         (observe DeviceSuspended
                            (setContext suspended (freshId m))))).
  { cbn [run]. unfold step at 1, handlePausePlayback.
    cbn [audioCtxRef freshId]. rewrite Hc.
    rewrite step_wake_head. reflexivity. }
  eexists. eexists. split; [exact H1|].
  split; [reflexivity|]. split; [reflexivity|]. split; [reflexivity|].
  split.
  { intros id. unfold step. cbn [audioCtxRef setPlaybackState observe
                                  setContext].
    now destruct (take id _) as [[[] ?]|]. }
  split.
  { cbn [run]. unfold step at 1, handleResumePlayback.
    cbn [audioCtxRef freshId setPlaybackState observe setContext nextId].
    rewrite step_wake_head. reflexivity. }
  split.
  { cbn [run]. unfold step at 1, handlePlayStory, handleResumePlayback.
    cbn [audioCtxRef playbackState freshId setPlaybackState observe
         setContext nextId].
    rewrite step_wake_head. reflexivity. }
  repeat split; reflexivity.
Qed.

Lemma pause_resume_round_trip_witness :
  exists m1 m2,
    run playingFirst [Pause; Wake (nextId playingFirst)] = Some m1 /\
    playbackState m1 = paused /\
    audioCtxRef m1 = Some suspended /\
    pending m1 = pending playingFirst /\
    (forall id, step m1 (Ended id) = None) /\
    run m1 [Resume; Wake (nextId m1)] = Some m2 /\
    run m1 [Play greeting; Wake (nextId m1)] = Some m2 /\
    playbackState m2 = playing /\
    audioCtxRef m2 = Some running /\
    pending m2 = pending playingFirst /\
    currentSentenceIdx m2 = currentSentenceIdx playingFirst /\
    stopPlaybackFlag m2 = stopPlaybackFlag playingFirst /\
    log m2 = DeviceResumed :: DeviceSuspended :: log playingFirst.
Proof.
  apply (@pause_resume_round_trip playingFirst greeting).
  vm_compute. reflexivity.
Defined.

(** *** One context *)

Lemma created_loop id sentences i m :
  created (log (handlePlayStory_loop id sentences i m)) = created (log m) /\
  audioCtxRef (handlePlayStory_loop id sentences i m) = audioCtxRef m.
Proof.
  unfold handlePlayStory_loop.
  destruct (nth_error sentences i); [destruct (stopPlaybackFlag m)|];
    split; reflexivity.
Qed.

Lemma OneContext_loop id sentences i m :
  OneContext m -> OneContext (handlePlayStory_loop id sentences i m).
Proof.
  unfold OneContext. destruct (created_loop id sentences i m) as [-> ->].
  trivial.
Qed.

Lemma OneContext_start id text m :
  audioCtxRef m <> Some closed ->
  OneContext m -> OneContext (handlePlayStory_start id text m).
Proof.
  intros Ho H. unfold handlePlayStory_start.
  cbn [audioCtxRef setCurrentSentenceIdx setStopFlag setPlaybackState
       deviceAvailable].
  unfold OneContext in H.
  destruct (audioCtxRef m) as [[]|] eqn:E; try congruence.
  - apply OneContext_loop. unfold OneContext. cbn. now rewrite E.
  - unfold OneContext. cbn. now rewrite E.
  - destruct (deviceAvailable m).
    + apply OneContext_loop. unfold OneContext. cbn. now rewrite H.
    + unfold OneContext. cbn. now rewrite E.
Qed.

Lemma OneContext_stop_done m :
  audioCtxRef m <> None ->
  OneContext m -> OneContext (handleStopPlayback_done m).
Proof.
  unfold OneContext, handleStopPlayback_done. cbn.
  destruct (audioCtxRef m); [trivial|congruence].
Qed.

Lemma OneContext_speech id sentences i o m :
  OneContext m -> OneContext (handlePlayStory_speech id sentences i o m).
Proof.
  intros H. unfold handlePlayStory_speech.
  destruct o as [|[data|e]|].
  - destruct (stopPlaybackFlag m); [exact H|]. now apply OneContext_loop.
  - destruct (stopPlaybackFlag m); [exact H|].
    destruct (failed (decodeAudioData_default data)); exact H.
  - destruct (stopPlaybackFlag m); [exact H|]. now apply OneContext_loop.
  - now apply OneContext_loop.
Qed.

Lemma OneContext_step m e m' :
  Inv m -> step m e = Some m' -> OneContext m -> OneContext m'.
Proof.
  intros HI Hs H. pose proof (inv_open HI) as Ho.
  destruct e as [text| | | |id o|id|id]; cbn [step] in Hs.
  - injection Hs as <-. unfold handlePlayStory.
    cbn [playbackState freshId].
    destruct (playbackState m).
    + now apply OneContext_start.
    + unfold handleStopPlayback. cbn [audioCtxRef setStopFlag freshId].
      destruct (audioCtxRef m) as [[]|] eqn:E; try congruence;
        unfold OneContext in *; cbn; now rewrite E in *.
    + unfold handleResumePlayback. cbn [audioCtxRef freshId].
      destruct (audioCtxRef m) as [[]|] eqn:E; try congruence;
        unfold OneContext in *; cbn; now rewrite E in *.
  - unfold handleStopPlayback in Hs. cbn [audioCtxRef setStopFlag freshId] in Hs.
    destruct (audioCtxRef m) as [[]|] eqn:E; try congruence;
      injection Hs as <-; unfold OneContext in *; cbn; now rewrite E in *.
  - injection Hs as <-. unfold handlePausePlayback. cbn [audioCtxRef freshId].
    destruct (audioCtxRef m) as [[]|] eqn:E; try congruence;
      unfold OneContext in *; cbn; now rewrite E in *.
  - injection Hs as <-. unfold handleResumePlayback. cbn [audioCtxRef freshId].
    destruct (audioCtxRef m) as [[]|] eqn:E; try congruence;
      unfold OneContext in *; cbn; now rewrite E in *.
  - destruct (take id (pending m)) as [[a rest]|]; [|discriminate].
    destruct a; try discriminate. injection Hs as <-.
    now apply OneContext_speech.
  - destruct (take id (pending m)) as [[a rest]|] eqn:Et; [|discriminate].
    assert (Hctx : needsContext a = true -> audioCtxRef m <> None).
    { apply (inv_ctx HI id). now apply (@take_In id (pending m) a rest). }
    destruct a as [text s|text|text|ss i|ss i [b|x]|ss i|ss i| | |];
      cbn [wake] in Hs; try discriminate.
    + injection Hs as <-. destruct s.
      * apply (@OneContext_stop_done (setPending rest m));
          [now apply Hctx|exact H].
      * exact H.
    + injection Hs as <-. now apply OneContext_start.
    + injection Hs as <-. apply OneContext_loop.
      unfold OneContext in *. cbn.
      destruct (audioCtxRef m); [exact H|now exfalso; apply Hctx].
    + destruct (stopPlaybackFlag (setPending rest m)
                || match audioCtxRef (setPending rest m) with
                   | Some _ => false | None => true end);
        injection Hs as <-; exact H.
    + injection Hs as <-. now apply OneContext_loop.
    + injection Hs as <-. now apply OneContext_loop.
    + injection Hs as <-.
      apply (@OneContext_stop_done (setPending rest m));
        [now apply Hctx|exact H].
    + injection Hs as <-. unfold OneContext in *. cbn.
      destruct (audioCtxRef m); [exact H|now exfalso; apply Hctx].
    + injection Hs as <-. unfold OneContext in *. cbn.
      destruct (audioCtxRef m); [exact H|now exfalso; apply Hctx].
  - destruct (take id (pending m)) as [[a rest]|]; [|discriminate].
    destruct a; try discriminate.
    destruct (audioCtxRef m) as [[]|] eqn:E; try discriminate.
    injection Hs as <-. apply OneContext_loop.
    unfold OneContext in *. cbn. now rewrite E in *.
Qed.

Lemma OneContext_run es :
  forall m m', Inv m -> OneContext m -> run m es = Some m' -> OneContext m'.
Proof.
  induction es as [|e es IH]; intros m m' HI H Hr; simpl in Hr.
  - now injection Hr as <-.
  - destruct (step m e) as [m1|] eqn:Es; [|discriminate].
    apply (IH m1 m'); [|now apply (OneContext_step e HI Es)|exact Hr].
    now apply (Inv_step e HI).
Qed.

(** X6: while the component is mounted the controller builds at most
    one audio context.  In every reachable state the constructor has
    succeeded once if the ref holds a context and never if it is null,
    and the context it holds is not closed: every session, pause and
    stop works on the same device. *)
Theorem one_audio_context (m : Machine) :
  reachable m ->
  created (log m) = match audioCtxRef m with Some _ => 1 | None => 0 end /\
  created (log m) <= 1 /\
  audioCtxRef m <> Some closed.
Proof.
  intros Hr. pose proof (Inv_reachable Hr) as HI.
  destruct Hr as [device [es Hr]].
  assert (H : OneContext m).
  { apply (@OneContext_run es (init device) m);
      [apply Inv_init|reflexivity|exact Hr]. }
  unfold OneContext in H. split; [exact H|]. split.
  - rewrite H. destruct (audioCtxRef m); lia.
  - apply (inv_open HI).
Qed.

Lemma one_audio_context_witness :
  created (log playingLast)
  = match audioCtxRef playingLast with Some _ => 1 | None => 0 end /\
  created (log playingLast) <= 1 /\
  audioCtxRef playingLast <> Some closed.
Proof.
  apply one_audio_context.
  exists true, [Play greeting; Settle 0 NoAudio; Settle 0 audio; Wake 0].
  vm_compute. reflexivity.
Defined.

(** X7: a stop does not end the call of a session whose sentence is
    being played: the call stays suspended on [onended], and the next
    [play] revives it.  From any state in which call [id] waits for the
    end of sentence [i], with a next sentence, a stop (status idle,
    index -1) followed by a [play] of another text brings the state
    where both the new session and the old one have a request in flight:
    the old source plays to its end once the device is resumed, and the
    old loop, finding the flag clear again, moves the index to [i + 1]
    and requests that sentence. *)
Theorem stopped_session_revived (m : Machine) (id i : nat)
        (rest : list (nat * Await)) (ss : list jsstring)
        (text first next : jsstring) :
  take id (pending m) = Some (LoopEnded ss i, rest) ->
  id < nextId m ->
  audioCtxRef m = Some running ->
  nth_error ss (S i) = Some next ->
  nth_error (splitSentences text) 0 = Some first ->
  exists m2 m5,
    run m [Stop; Wake (nextId m)] = Some m2 /\
    playbackState m2 = idle /\
    currentSentenceIdx m2 = (-1)%Z /\
    pending m2 = pending m /\
    run m2 [Play text; Wake (S (nextId m)); Ended id] = Some m5 /\
    pending m5 = (id, LoopSpeech ss (S i))
                   :: (S (nextId m), LoopSpeech (splitSentences text) 0)
                   :: rest /\
    playbackState m5 = playing /\
    currentSentenceIdx m5 = Z.of_nat (S i) /\
    log m5 = Request id (S i) (cleanText next) :: Finished id i
               :: Request (S (nextId m)) 0 (cleanText first)
               :: DeviceResumed :: DeviceSuspended :: log m.
Proof.
  intros Ht Hid Hc Hnext Hfirst.
  assert (H2 : run m [Stop; Wake (nextId m)]
               = Some (handleStopPlayback_done (setStopFlag true (freshId m)))).
  { cbn [run]. unfold step at 1, handleStopPlayback.
    cbn [audioCtxRef setStopFlag freshId]. rewrite Hc.
    rewrite step_wake_head. reflexivity. }
  eexists. eexists. split; [exact H2|].
  split; [reflexivity|]. split; [reflexivity|]. split; [reflexivity|].
  split.
  { cbn [run]. unfold step at 1, handlePlayStory, handlePlayStory_start.
    cbn [playbackState audioCtxRef handleStopPlayback_done freshId
         setCurrentSentenceIdx setPlaybackState observe setContext
         setStopFlag nextId].
    rewrite step_wake_head. cbn [wake].
    unfold handlePlayStory_loop at 1. rewrite Hfirst.
    cbn [stopPlaybackFlag observe setContext suspend setPending
         setCurrentSentenceIdx setStopFlag setPlaybackState freshId
         handleStopPlayback_done].
    unfold step.
    cbn [pending audioCtxRef suspend setPending observe
         setCurrentSentenceIdx setContext take].
    replace (id =? S (nextId m)) with false
      by (symmetry; apply Nat.eqb_neq; lia).
    change (take id (pending _)) with (take id (pending m)).
    rewrite Ht. unfold handlePlayStory_loop. rewrite Hnext.
    cbv [stopPlaybackFlag suspend observe setPending setCurrentSentenceIdx
         setContext setStopFlag setPlaybackState freshId
         handleStopPlayback_done playbackState currentSentenceIdx
         audioCtxRef deviceAvailable pending nextId log].
    reflexivity. }
  cbv [stopPlaybackFlag suspend observe setPending setCurrentSentenceIdx
       setContext setStopFlag setPlaybackState freshId
       handleStopPlayback_done playbackState currentSentenceIdx
       audioCtxRef deviceAvailable pending nextId log].
  repeat split; reflexivity.
Qed.

Lemma stopped_session_revived_witness :
  exists m2 m5,
    run playingFirst [Stop; Wake (nextId playingFirst)] = Some m2 /\
    playbackState m2 = idle /\
    currentSentenceIdx m2 = (-1)%Z /\
    pending m2 = pending playingFirst /\
    run m2 [Play (js "Bye."); Wake (S (nextId playingFirst)); Ended 0]
    = Some m5 /\
    pending m5 = (0, LoopSpeech (splitSentences greeting) 1)
                   :: (S (nextId playingFirst),
                       LoopSpeech (splitSentences (js "Bye.")) 0)
                   :: [] /\
    playbackState m5 = playing /\
    currentSentenceIdx m5 = Z.of_nat 1 /\
    log m5 = Request 0 1 (cleanText (js "How are you?")) :: Finished 0 0
               :: Request (S (nextId playingFirst)) 0 (cleanText (js "Bye."))
               :: DeviceResumed :: DeviceSuspended :: log playingFirst.
Proof.
  apply (@stopped_session_revived playingFirst 0 0 []
           (splitSentences greeting) (js "Bye.") (js "Bye.")
           (js "How are you?")).
  - vm_compute. reflexivity.
  - vm_compute. lia.
  - vm_compute. reflexivity.
  - vm_compute. reflexivity.
  - vm_compute. reflexivity.
Defined.

Lemma play_while_playing_stops_first_witness :
  exists m1 m2,
    step playingFirst (Play (js "C.")) = Some m1 /\
    stopPlaybackFlag m1 = true /\
    pending m1
    = (nextId playingFirst, PlayStop (js "C.") true) :: pending playingFirst /\
    log m1 = log playingFirst /\
    step m1 (Wake (nextId playingFirst)) = Some m2 /\
    audioCtxRef m2 = Some suspended /\
    playbackState m2 = idle /\
    currentSentenceIdx m2 = (-1)%Z /\
    pending m2
    = (nextId playingFirst, PlayGrace (js "C.")) :: pending playingFirst /\
    log m2 = DeviceSuspended :: log playingFirst.
Proof.
  apply (@play_while_playing_stops_first playingFirst (js "C.") running).
  - vm_compute. reflexivity.
  - vm_compute. reflexivity.
  - discriminate.
Defined.

End DeviceFacts.

(** ** Vocabulary *)

Section WordsFacts.

Import Segmenter Reader Words.

Lemma str_eqb_eq a : forall b, str_eqb a b = true <-> a = b.
Proof.
  unfold str_eqb.
  induction a as [|x a IH]; intros [|y b]; simpl; split; intros H;
    try reflexivity; try discriminate.
  - apply andb_true_iff in H as [Hx H]. apply N.eqb_eq in Hx.
    apply IH in H. now subst.
  - injection H as -> ->. rewrite N.eqb_refl. simpl. now apply IH.
Qed.

Lemma str_eqb_refl a : str_eqb a a = true.
Proof. now apply str_eqb_eq. Qed.

Lemma str_eqb_neq a b : str_eqb a b = false <-> a <> b.
Proof.
  split.
  - intros H E. apply str_eqb_eq in E. congruence.
  - intros H. destruct (str_eqb a b) eqn:E; [|reflexivity].
    apply str_eqb_eq in E. contradiction.
Qed.

Lemma includes_In x l : includes x l = true <-> In x l.
Proof.
  unfold includes. rewrite existsb_exists. split.
  - intros [y [Hy E]]. apply str_eqb_eq in E. now subst.
  - intros H. exists x. split; [exact H|apply str_eqb_refl].
Qed.

Lemma includes_app x l1 l2 :
  includes x (l1 ++ l2) = includes x l1 || includes x l2.
Proof. apply existsb_app. Qed.

(** *** Groups *)

Lemma spread_groups_id w g : id (spread w (groupsUpdate g)) = id w.
Proof. reflexivity. Qed.

Lemma spread_groups_text w g : text (spread w (groupsUpdate g)) = text w.
Proof. reflexivity. Qed.

Lemma spread_groups_twice w g :
  spread (spread w (groupsUpdate g)) (groupsUpdate g)
  = spread w (groupsUpdate g).
Proof. reflexivity. Qed.

Lemma grouped_id g sel w : id (grouped g sel w) = id w.
Proof.
  unfold grouped.
  now destruct (includes (id w) sel && negb (includes g (groupsOf w))).
Qed.

Lemma find_id_unique (words : list Word) i w0 :
  NoDup (map id words) ->
  find (fun w => str_eqb (id w) i) words = Some w0 ->
  id w0 = i /\ forall w, In w words -> id w = i -> w = w0.
Proof.
  induction words as [|a l IH]; simpl; intros Hnd Hf; [discriminate|].
  inversion Hnd as [|? ? Hnot Hnd']; subst.
  destruct (str_eqb (id a) i) eqn:E.
  - injection Hf as <-. apply str_eqb_eq in E. split; [exact E|].
    intros w [<-|Hw] Hi; [reflexivity|].
    exfalso. apply Hnot. rewrite E, <- Hi. now apply in_map.
  - destruct (IH Hnd' Hf) as [Hi Hu]. split; [exact Hi|].
    intros w [<-|Hw] Hw'.
    + apply str_eqb_neq in E. contradiction.
    + now apply Hu.
Qed.

Lemma find_id_none (words : list Word) i :
  find (fun w => str_eqb (id w) i) words = None ->
  forall w, In w words -> str_eqb (id w) i = false.
Proof.
  intros H w Hw. destruct (str_eqb (id w) i) eqn:E; [|reflexivity].
  now rewrite (@find_none _ _ _ H w Hw) in E.
Qed.

(** One round of the [forEach]: the words selected so far are those of
    [done]. *)
Lemma addToGroup_step words g done i :
  NoDup (map id words) ->
  addToGroup words g (map (grouped g done) words) i
  = map (grouped g (done ++ [i])) words.
Proof.
  intros Hnd. unfold addToGroup.
  destruct (find (fun w => str_eqb (id w) i) words) as [w0|] eqn:Ef.
  - destruct (@find_id_unique words i w0 Hnd Ef) as [Hi Hu].
    destruct (includes g (groupsOf w0)) eqn:Eg.
    + apply map_ext_in. intros w Hw. unfold grouped.
      rewrite includes_app. simpl. rewrite orb_false_r.
      destruct (str_eqb (id w) i) eqn:E.
      * apply str_eqb_eq in E. rewrite (Hu w Hw E), Eg.
        simpl. now rewrite !andb_false_r.
      * now rewrite orb_false_r.
    + unfold handleUpdateWord. rewrite map_map.
      apply map_ext_in. intros w Hw. rewrite grouped_id.
      destruct (str_eqb (id w) i) eqn:E.
      * apply str_eqb_eq in E. rewrite (Hu w Hw E).
        unfold grouped. rewrite includes_app. simpl.
        rewrite Hi, str_eqb_refl, Eg. simpl.
        rewrite orb_true_r, andb_true_r. simpl.
        now destruct (includes i done).
      * unfold grouped. rewrite includes_app. simpl.
        now rewrite E, !orb_false_r.
  - apply map_ext_in. intros w Hw. unfold grouped.
    rewrite includes_app. simpl.
    now rewrite (@find_id_none words i Ef w Hw), !orb_false_r.
Qed.

Lemma addToGroup_fold words g :
  NoDup (map id words) ->
  forall sel done,
    fold_left (addToGroup words g) sel (map (grouped g done) words)
    = map (grouped g (done ++ sel)) words.
Proof.
  intros Hnd. induction sel as [|i sel IH]; intros done; simpl.
  - now rewrite app_nil_r.
  - rewrite addToGroup_step by exact Hnd. rewrite IH, <- app_assoc.
    reflexivity.
Qed.

Lemma grouped_nothing g words : map (grouped g []) words = words.
Proof. now rewrite <- (map_id words) at 2. Qed.

Lemma handleAddToGroup_map g sel words :
  NoDup (map id words) -> truthy (trim g) = true ->
  handleAddToGroup g sel words = map (grouped g sel) words.
Proof.
  intros Hnd Hg. unfold handleAddToGroup. rewrite Hg.
  rewrite <- (grouped_nothing g words) at 2.
  now rewrite addToGroup_fold.
Qed.

Lemma inGroup_groupsOf g w : inGroup g w = includes g (groupsOf w).
Proof. unfold inGroup, groupsOf. now destruct (groups w). Qed.

Lemma grouped_twice g sel w : grouped g sel (grouped g sel w) = grouped g sel w.
Proof.
  unfold grouped at 1. rewrite grouped_id.
  destruct (includes (id w) sel) eqn:Es; [|reflexivity].
  unfold grouped. rewrite Es. simpl.
  destruct (includes g (groupsOf w)) eqn:Eg; simpl; [now rewrite Eg|].
  unfold groupsOf at 1. simpl. rewrite includes_app. simpl.
  now rewrite str_eqb_refl, orb_true_r.
Qed.

(** X8: [handleAddToGroup] with a group name that is not blank, on a
    vocabulary in which no two words have the same id.  Although each
    [onUpdateWord] is computed from the list the component was rendered
    with and applied to the state the calls before it left, the outcome
    is one simultaneous change: every selected word that did not have the
    group gets it appended to its groups, every other word is as it was.
    So afterwards every selected word is in the group, the words keep
    their ids and their order, and doing the same again changes
    nothing. *)
Theorem add_to_group_spec (newGroupName : jsstring)
        (selectedWords : list jsstring) (words : list Word) :
  NoDup (map id words) -> truthy (trim newGroupName) = true ->
  let after := handleAddToGroup newGroupName selectedWords words in
  after = map (grouped newGroupName selectedWords) words /\
  map id after = map id words /\
  (forall w, In w after -> includes (id w) selectedWords = true ->
             inGroup newGroupName w = true) /\
  handleAddToGroup newGroupName selectedWords after = after.
Proof.
  intros Hnd Hg after.
  assert (E : after = map (grouped newGroupName selectedWords) words)
    by now apply handleAddToGroup_map.
  assert (Eid : map id after = map id words).
  { rewrite E, map_map. apply map_ext. intros w. apply grouped_id. }
  split; [exact E|]. split; [exact Eid|]. split.
  - intros w Hw Hs. rewrite E in Hw. apply in_map_iff in Hw as [w0 [<- _]].
    rewrite grouped_id in Hs. rewrite inGroup_groupsOf. unfold grouped.
    rewrite Hs. simpl.
    destruct (includes newGroupName (groupsOf w0)) eqn:Eg; simpl;
      [exact Eg|].
    unfold groupsOf at 1. simpl. rewrite includes_app. simpl.
    now rewrite str_eqb_refl, orb_true_r.
  - rewrite handleAddToGroup_map; [|now rewrite Eid|exact Hg].
    rewrite E, map_map. apply map_ext. intros w. apply grouped_twice.
Qed.

Lemma add_to_group_spec_witness :
  let words := [word "1" "cat" None; word "2" "dog" (Some [js "pets"]);
                word "3" "sun" None] in
  let after := handleAddToGroup (js "pets") [js "2"; js "1"] words in
  after = map (grouped (js "pets") [js "2"; js "1"]) words /\
  map id after = map id words /\
  (forall w, In w after -> includes (id w) [js "2"; js "1"] = true ->
             inGroup (js "pets") w = true) /\
  handleAddToGroup (js "pets") [js "2"; js "1"] after = after.
Proof.
  apply (@add_to_group_spec (js "pets") [js "2"; js "1"]
           [word "1" "cat" None; word "2" "dog" (Some [js "pets"]);
            word "3" "sun" None]).
  - repeat constructor; simpl; intuition discriminate.
  - reflexivity.
Defined.

(** Without that: two words with one id.  The groups of the second are
    replaced by those of the first. *)
Example add_to_group_shared_id :
  map groups
      (handleAddToGroup (js "pets") [js "temp"]
         [word "temp" "cat" None; word "temp" "dog" (Some [js "home"])])
  = [Some [js "pets"]; Some [js "pets"]].
Proof. reflexivity. Qed.

Lemma filter_not_in g gs :
  includes g gs = false ->
  filter (fun x => negb (str_eqb x g)) (gs ++ [g]) = gs.
Proof.
  intros H. rewrite filter_app. simpl. rewrite str_eqb_refl. simpl.
  rewrite app_nil_r. induction gs as [|x gs IH]; [reflexivity|].
  unfold includes in H. simpl in H. apply orb_false_iff in H as [Hx H].
  simpl. assert (E : str_eqb x g = false).
  { apply str_eqb_neq. intros ->. now rewrite str_eqb_refl in Hx. }
  rewrite E. simpl. f_equal. now apply IH.
Qed.

Lemma find_map_id (f : Word -> Word) i words :
  (forall w, id (f w) = id w) ->
  find (fun w => str_eqb (id w) i) (map f words)
  = option_map f (find (fun w => str_eqb (id w) i) words).
Proof.
  intros Hf. induction words as [|w l IH]; simpl; [reflexivity|].
  rewrite Hf. now destruct (str_eqb (id w) i).
Qed.

(** X9: taking a word out of a group it was just put into undoes the
    change, up to the representation of an empty list.  For a word of the
    vocabulary that is not in the group, in a vocabulary without repeated
    ids, [handleAddToGroup] for that word followed by
    [handleRemoveFromGroup] leaves every other word as it was and the word
    with the groups it had, now as a list even if the key [groups] was
    absent before. *)
Theorem group_round_trip (g : jsstring) (w : Word) (words : list Word) :
  NoDup (map id words) -> truthy (trim g) = true ->
  In w words -> inGroup g w = false ->
  handleRemoveFromGroup (id w) g (handleAddToGroup g [id w] words)
  = map (fun x => if str_eqb (id x) (id w)
                  then spread x (groupsUpdate (groupsOf x)) else x) words.
Proof.
  intros Hnd Hg Hw Hin. rewrite handleAddToGroup_map by assumption.
  rewrite inGroup_groupsOf in Hin.
  destruct (find (fun x => str_eqb (id x) (id w)) words) as [w0|] eqn:Ef.
  - destruct (@find_id_unique words (id w) w0 Hnd Ef) as [_ Hu].
    assert (E0 : w0 = w) by (symmetry; now apply Hu). subst w0.
    unfold handleRemoveFromGroup.
    rewrite find_map_id by (intros x; apply grouped_id). rewrite Ef.
    cbn [option_map]. unfold grouped at 1. cbn [includes existsb].
    rewrite str_eqb_refl, Hin. cbn [orb andb negb spread groupsUpdate groups
                                    overrideOptional u_groups].
    rewrite filter_not_in by exact Hin.
    unfold handleUpdateWord. rewrite map_map. apply map_ext_in.
    intros x Hx. rewrite grouped_id.
    destruct (str_eqb (id x) (id w)) eqn:E.
    + apply str_eqb_eq in E. rewrite (Hu x Hx E).
      unfold grouped. cbn [includes existsb]. rewrite str_eqb_refl, Hin.
      reflexivity.
    + unfold grouped. cbn [includes existsb]. now rewrite E.
  - pose proof (@find_id_none words (id w) Ef w Hw) as H.
    now rewrite str_eqb_refl in H.
Qed.

Lemma group_round_trip_witness :
  handleRemoveFromGroup (id (word "1" "cat" None)) (js "pets")
    (handleAddToGroup (js "pets") [id (word "1" "cat" None)]
       [word "1" "cat" None; word "2" "dog" (Some [js "pets"])])
  = map (fun x => if str_eqb (id x) (id (word "1" "cat" None))
                  then spread x (groupsUpdate (groupsOf x)) else x)
        [word "1" "cat" None; word "2" "dog" (Some [js "pets"])].
Proof.
  apply group_round_trip.
  - repeat constructor; simpl; intuition discriminate.
  - reflexivity.
  - left. reflexivity.
  - reflexivity.
Defined.

(** *** The groups in use *)

Lemma add_In x g set : In x (add g set) <-> x = g \/ In x set.
Proof.
  unfold add. destruct (includes g set) eqn:E.
  - apply includes_In in E. split; [now right|].
    intros [->|H]; assumption.
  - rewrite in_app_iff. simpl. intuition.
Qed.

Lemma add_NoDup g set : NoDup set -> NoDup (add g set).
Proof.
  intros H. unfold add. destruct (includes g set) eqn:E; [exact H|].
  apply NoDup_app; [exact H|repeat constructor; intros []|].
  intros x Hx [<-|[]]. apply includes_In in Hx. congruence.
Qed.

Lemma add_all_In x gs : forall set,
  In x (fold_left (fun s g => add g s) gs set) <-> In x gs \/ In x set.
Proof.
  induction gs as [|g gs IH]; intros set; simpl; [intuition|].
  rewrite IH, add_In. intuition.
Qed.

Lemma add_all_NoDup gs : forall set,
  NoDup set -> NoDup (fold_left (fun s g => add g s) gs set).
Proof.
  induction gs as [|g gs IH]; intros set H; simpl; [exact H|].
  now apply IH, add_NoDup.
Qed.

Lemma groupSet_In x words : forall set,
  In x (fold_left
          (fun set w => fold_left (fun s g => add g s) (groupsOf w) set)
          words set)
  <-> (exists w, In w words /\ In x (groupsOf w)) \/ In x set.
Proof.
  induction words as [|w l IH]; intros set; simpl.
  - split; [now right|]. intros [[w [[] _]]|H]. exact H.
  - rewrite IH, add_all_In. split.
    + intros [[w' [Hw Hx]]|[Hx|Hx]].
      * left. exists w'. auto.
      * left. exists w. auto.
      * now right.
    + intros [[w' [[<-|Hw] Hx]]|Hx].
      * right. now left.
      * left. exists w'. auto.
      * right. now right.
Qed.

Lemma groupSet_NoDup words : forall set,
  NoDup set ->
  NoDup (fold_left
           (fun set w => fold_left (fun s g => add g s) (groupsOf w) set)
           words set).
Proof.
  induction words as [|w l IH]; intros set H; simpl; [exact H|].
  now apply IH, add_all_NoDup.
Qed.

Lemma str_ltb_irrefl a : str_ltb a a = false.
Proof.
  induction a as [|x a IH]; simpl; [reflexivity|].
  now rewrite N.ltb_irrefl, N.eqb_refl, IH.
Qed.

Lemma str_ltb_trans a : forall b c,
  str_ltb a b = true -> str_ltb b c = true -> str_ltb a c = true.
Proof.
  induction a as [|x a IH]; intros [|y b] [|z c] H1 H2; simpl in *;
    try discriminate; try reflexivity.
  apply orb_true_iff in H1. apply orb_true_iff in H2. apply orb_true_iff.
  destruct H1 as [H1|H1], H2 as [H2|H2].
  - left. apply N.ltb_lt in H1, H2. apply N.ltb_lt. lia.
  - apply andb_true_iff in H2 as [E _]. apply N.eqb_eq in E. subst.
    now left.
  - apply andb_true_iff in H1 as [E _]. apply N.eqb_eq in E. subst.
    now left.
  - apply andb_true_iff in H1 as [E1 H1]. apply andb_true_iff in H2 as [E2 H2].
    apply N.eqb_eq in E1, E2. subst. right.
    rewrite N.eqb_refl. simpl. now apply (IH b c).
Qed.

Lemma str_ltb_total a : forall b,
  str_ltb a b = false -> a <> b -> str_ltb b a = true.
Proof.
  induction a as [|x a IH]; intros [|y b] H Hne; simpl in *;
    try reflexivity; try discriminate; try congruence.
  apply orb_false_iff in H as [Hlt H]. apply N.ltb_ge in Hlt.
  destruct (N.eqb_spec x y) as [->|Hxy].
  - simpl in H. rewrite N.eqb_refl, N.ltb_irrefl. simpl.
    apply IH; [exact H|congruence].
  - apply orb_true_iff. left. apply N.ltb_lt. lia.
Qed.

Lemma insert_In x g l : In x (insert g l) <-> x = g \/ In x l.
Proof.
  induction l as [|h l IH]; simpl; [intuition|].
  destruct (str_ltb g h); simpl; [intuition|]. rewrite IH. intuition.
Qed.

Lemma sort_In x l : In x (sort l) <-> In x l.
Proof.
  unfold sort. induction l as [|g l IH]; simpl; [reflexivity|].
  rewrite insert_In, IH. intuition.
Qed.

Lemma insert_Sorted g l :
  ~ In g l ->
  Sorted (fun a b => str_ltb a b = true) l ->
  Sorted (fun a b => str_ltb a b = true) (insert g l).
Proof.
  induction l as [|h l IH]; intros Hn Hs; simpl.
  - repeat constructor.
  - destruct (str_ltb g h) eqn:E.
    + constructor; [exact Hs|now constructor].
    + inversion Hs as [|? ? Hs' Hd]; subst.
      assert (Hhg : str_ltb h g = true).
      { apply str_ltb_total; [exact E|]. intros <-. apply Hn. now left. }
      constructor.
      * apply IH; [|exact Hs']. intros Hin. apply Hn. now right.
      * destruct l as [|k l]; simpl; [now constructor|].
        destruct (str_ltb g k); constructor; [exact Hhg|].
        now inversion Hd.
Qed.

Lemma sort_Sorted l :
  NoDup l -> Sorted (fun a b => str_ltb a b = true) (sort l).
Proof.
  unfold sort. induction 1 as [|g l Hn Hnd IH]; simpl; [constructor|].
  apply insert_Sorted; [|exact IH].
  intros Hin. apply Hn. now apply (sort_In g l).
Qed.

(** X10: the groups offered by the filter bar (and by the set-up of a
    practice session) are exactly the group names some word carries, each
    once, in strictly ascending order of their code units; and every one
    of them, chosen as filter, shows at least one word. *)
Theorem allGroups_spec (words : list Word) :
  StronglySorted (fun a b => str_ltb a b = true) (allGroups words) /\
  (forall g, In g (allGroups words)
             <-> exists w, In w words /\ inGroup g w = true) /\
  (forall g, In g (allGroups words) -> filteredWords g words <> []).
Proof.
  assert (Hin : forall g, In g (allGroups words)
                          <-> exists w, In w words /\ inGroup g w = true).
  { intros g. unfold allGroups, groupSet. rewrite sort_In, groupSet_In.
    split.
    - intros [[w [Hw Hg]]|[]]. exists w. split; [exact Hw|].
      rewrite inGroup_groupsOf. now apply includes_In.
    - intros [w [Hw Hg]]. left. exists w. split; [exact Hw|].
      rewrite inGroup_groupsOf in Hg. now apply includes_In. }
  split; [|split; [exact Hin|]].
  - apply Sorted_StronglySorted.
    + intros a b c. apply str_ltb_trans.
    + apply sort_Sorted. apply groupSet_NoDup. constructor.
  - intros g Hg. apply Hin in Hg as [w [Hw Hg]]. unfold filteredWords.
    destruct (str_eqb g (js "All")).
    + intros E. rewrite E in Hw. contradiction.
    + intros E.
      assert (H : In w (filter (inGroup g) words))
        by (apply filter_In; auto).
      rewrite E in H. contradiction.
Qed.

Example allGroups_example :
  allGroups [word "1" "cat" (Some [js "pets"; js "Zoo"]);
             word "2" "sun" None;
             word "3" "dog" (Some [js "home"; js "pets"])]
  = [js "Zoo"; js "home"; js "pets"].
Proof. reflexivity. Qed.

(** *** No word twice *)

Section Unique.

Variable toLowerCase : jsstring -> jsstring.

Lemma known_false t words :
  known toLowerCase t words = false ->
  ~ In (toLowerCase t) (keys toLowerCase words).
Proof.
  unfold known, keys. intros H Hin.
  apply in_map_iff in Hin as [w [E Hw]].
  assert (Ht : existsb (fun w => str_eqb (toLowerCase (text w))
                                         (toLowerCase t)) words = true).
  { apply existsb_exists. exists w. split; [exact Hw|].
    now apply str_eqb_eq. }
  congruence.
Qed.

Lemma keys_update i g words :
  keys toLowerCase (handleUpdateWord i (groupsUpdate g) words)
  = keys toLowerCase words.
Proof.
  unfold keys, handleUpdateWord. rewrite map_map. apply map_ext.
  intros w. now destruct (str_eqb (id w) i).
Qed.

Lemma keys_addToGroup words g sel : forall prev,
  keys toLowerCase (fold_left (addToGroup words g) sel prev)
  = keys toLowerCase prev.
Proof.
  induction sel as [|i sel IH]; intros prev; simpl; [reflexivity|].
  rewrite IH. unfold addToGroup.
  destruct (find (fun w => str_eqb (id w) i) words) as [w0|];
    [|reflexivity].
  destruct (includes g (groupsOf w0)); [reflexivity|apply keys_update].
Qed.

Lemma NoDup_map_filter {A B} (f : A -> B) (p : A -> bool) l :
  NoDup (map f l) -> NoDup (map f (filter p l)).
Proof.
  induction l as [|a l IH]; simpl; intros H; [constructor|].
  inversion H as [|? ? Hn Hnd]; subst.
  destruct (p a); simpl; [|now apply IH].
  constructor; [|now apply IH].
  intros Hin. apply Hn. apply in_map_iff in Hin as [x [E Hx]].
  apply filter_In in Hx as [Hx _]. rewrite <- E. now apply in_map.
Qed.

Lemma newWord_text uuid now l : text (newWord uuid now l) = lookedUpText l.
Proof. now destruct l. Qed.

Lemma apply_keeps_unique words op :
  NoDup (keys toLowerCase words) ->
  NoDup (keys toLowerCase (apply toLowerCase words op)).
Proof.
  intros H. destruct op as [[result|]|uuid now [l|]|i|g sel|i g]; simpl;
    try exact H.
  - destruct (known toLowerCase (text result) words) eqn:E; [exact H|].
    simpl. constructor; [now apply known_false|exact H].
  - destruct (truthy (lookedUpText l)); simpl; [|exact H].
    destruct (known toLowerCase (lookedUpText l) words) eqn:E; simpl;
      [exact H|].
    constructor; [|exact H].
    rewrite newWord_text. now apply known_false.
  - now apply NoDup_map_filter.
  - unfold handleAddToGroup. destruct (truthy (trim g)); [|exact H].
    now rewrite keys_addToGroup.
  - unfold handleRemoveFromGroup.
    destruct (find (fun w => str_eqb (id w) i) words) as [w0|]; [|exact H].
    destruct (groups w0); [|exact H]. now rewrite keys_update.
Qed.

End Unique.

(** X11: the vocabulary never holds two words whose texts are equal
    once put in lower case.  Both places that add a word test for it
    ([handleAdd] of the search view, [handleSaveLookedUpWord] of the
    popup), removing a word and changing the groups of words keep it; so
    it holds after any sequence of these operations on a vocabulary that
    has the property, such as the empty one.  [toLowerCase] is any
    function. *)
Theorem vocabulary_texts_unique (toLowerCase : jsstring -> jsstring) :
  (forall words ops,
      NoDup (keys toLowerCase words) ->
      NoDup (keys toLowerCase (applyAll toLowerCase words ops))) /\
  (forall ops, NoDup (keys toLowerCase (applyAll toLowerCase [] ops))).
Proof.
  assert (Hall : forall ops words,
             NoDup (keys toLowerCase words) ->
             NoDup (keys toLowerCase (applyAll toLowerCase words ops))).
  { induction ops as [|op ops IH]; intros words H; simpl; [exact H|].
    apply IH. now apply apply_keeps_unique. }
  split.
  - intros words ops. apply Hall.
  - intros ops. apply Hall. constructor.
Qed.

Example second_save_refused :
  map text
      (applyAll asciiLower []
         [SearchAdd (Some (word "1" "Cat" None));
          LookupSave (js "u") 5 (Some (Found (js "temp") (details "cat")));
          AddToGroup (js "pets") [js "1"];
          LookupSave (js "v") 6 (Some (Found (js "temp") (details "dog")))])
  = [js "dog"; js "Cat"].
Proof. reflexivity. Qed.

Lemma find_known (toLowerCase : jsstring -> jsstring) t words :
  known toLowerCase t words = false ->
  find (fun w => str_eqb (toLowerCase (text w)) (toLowerCase t)) words = None.
Proof.
  unfold known. induction words as [|w l IH]; simpl; [reflexivity|].
  intros H. apply orb_false_iff in H as [-> H]. now apply IH.
Qed.

Lemma click_then_save (toLowerCase : jsstring -> jsstring)
      nativeLang learningLang clicked words data prev uuid now :
  truthy (lookupText clicked) = true ->
  known toLowerCase (lookupText clicked) words = false ->
  handleSaveLookedUpWord toLowerCase uuid now
    (handleWordClick toLowerCase nativeLang learningLang clicked words
                     (Some data) prev)
    words
  = newWord uuid now
      (Found (js "temp")
         (lookupWordDetails (lookupText clicked) nativeLang learningLang
                            data))
      :: words.
Proof.
  intros Ht Hk. unfold handleWordClick. rewrite Ht, find_known by exact Hk.
  unfold handleSaveLookedUpWord. cbn [lookedUpText lookupWordDetails d_text].
  now rewrite Ht, Hk.
Qed.

(** X12: a word saved from the look-up popup does not get the fresh
    identifier: the looked-up record carries [id: 'temp'] (line 283) and
    is spread after [id: crypto.randomUUID()] (lines 296-299).  Two
    different words of a story, neither in the vocabulary, that are
    clicked, looked up and saved one after the other therefore both have
    the id ["temp"], and removing the second by its id (line 561,
    [handleRemoveWord]) removes the first as well. *)
Theorem lookup_saved_words_share_id
        (toLowerCase : jsstring -> jsstring)
        (nativeLang learningLang : jsstring)
        (clicked1 clicked2 uuid1 uuid2 : jsstring) (now1 now2 : Z)
        (data1 data2 : LookupData) (prev1 prev2 : option LookedUp)
        (words : list Word) :
  truthy (lookupText clicked1) = true ->
  truthy (lookupText clicked2) = true ->
  known toLowerCase (lookupText clicked1) words = false ->
  known toLowerCase (lookupText clicked2) words = false ->
  toLowerCase (lookupText clicked1) <> toLowerCase (lookupText clicked2) ->
  let words1 :=
    handleSaveLookedUpWord toLowerCase uuid1 now1
      (handleWordClick toLowerCase nativeLang learningLang clicked1 words
                       (Some data1) prev1)
      words in
  let words2 :=
    handleSaveLookedUpWord toLowerCase uuid2 now2
      (handleWordClick toLowerCase nativeLang learningLang clicked2 words1
                       (Some data2) prev2)
      words1 in
  exists w1 w2,
    words2 = w2 :: w1 :: words /\
    text w1 = lookupText clicked1 /\ text w2 = lookupText clicked2 /\
    id w1 = js "temp" /\ id w2 = js "temp" /\
    handleRemoveWord (id w2) words2 = handleRemoveWord (js "temp") words.
Proof.
  intros Ht1 Ht2 Hk1 Hk2 Hne words1 words2.
  assert (E1 : words1
               = newWord uuid1 now1
                   (Found (js "temp")
                      (lookupWordDetails (lookupText clicked1) nativeLang
                                         learningLang data1)) :: words)
    by now apply click_then_save.
  assert (Hk : known toLowerCase (lookupText clicked2) words1 = false).
  { rewrite E1. unfold known in *. cbn [existsb]. rewrite Hk2, orb_false_r.
    rewrite newWord_text. cbn [lookedUpText lookupWordDetails d_text].
    now apply str_eqb_neq. }
  assert (E2 : words2
               = newWord uuid2 now2
                   (Found (js "temp")
                      (lookupWordDetails (lookupText clicked2) nativeLang
                                         learningLang data2)) :: words1)
    by now apply click_then_save.
  eexists. eexists. rewrite E2, E1.
  split; [reflexivity|]. repeat split; reflexivity.
Qed.

Lemma lookup_saved_words_share_id_witness :
  let data := {| data_pronunciation := js "p"; data_meanings := None |} in
  let words := [word "0" "sun" None] in
  let words1 :=
    handleSaveLookedUpWord asciiLower (js "id-1") 1
      (handleWordClick asciiLower (js "Chinese") (js "English") (js "Cat,")
                       words (Some data) None)
      words in
  let words2 :=
    handleSaveLookedUpWord asciiLower (js "id-2") 2
      (handleWordClick asciiLower (js "Chinese") (js "English") (js "dog")
                       words1 (Some data) None)
      words1 in
  exists w1 w2,
    words2 = w2 :: w1 :: words /\
    text w1 = lookupText (js "Cat,") /\ text w2 = lookupText (js "dog") /\
    id w1 = js "temp" /\ id w2 = js "temp" /\
    handleRemoveWord (id w2) words2 = handleRemoveWord (js "temp") words.
Proof.
  apply (@lookup_saved_words_share_id asciiLower (js "Chinese")
           (js "English") (js "Cat,") (js "dog") (js "id-1") (js "id-2")
           1 2 {| data_pronunciation := js "p"; data_meanings := None |}
           {| data_pronunciation := js "p"; data_meanings := None |}
           None None [word "0" "sun" None]).
  - reflexivity.
  - reflexivity.
  - reflexivity.
  - reflexivity.
  - vm_compute. discriminate.
Defined.

(** A word of the vocabulary that is clicked is shown from the
    vocabulary, and saving it changes nothing. *)
Example click_known_word :
  handleSaveLookedUpWord asciiLower (js "u") 5
    (handleWordClick asciiLower (js "Chinese") (js "English") (js "[Sun].")
                     [word "0" "sun" None] None None)
    [word "0" "sun" None]
  = [word "0" "sun" None].
Proof. reflexivity. Qed.

End WordsFacts.

(** ** Drafts and library *)

Section LibraryFacts.

Import Segmenter Stories Library.

Lemma insertStory_Permutation s l : Permutation (insertStory s l) (s :: l).
Proof.
  induction l as [|h l IH]; simpl; [reflexivity|].
  destruct (createdAt s <? createdAt h)%Z; [|reflexivity].
  rewrite IH. apply perm_swap.
Qed.

Lemma newestFirst_Permutation l : Permutation (newestFirst l) l.
Proof.
  unfold newestFirst. induction l as [|s l IH]; simpl; [reflexivity|].
  rewrite insertStory_Permutation. now constructor.
Qed.

Lemma insertStory_Sorted s l :
  Sorted (fun a b => (createdAt b <= createdAt a)%Z) l ->
  Sorted (fun a b => (createdAt b <= createdAt a)%Z) (insertStory s l).
Proof.
  induction l as [|h l IH]; intros Hs; simpl.
  - repeat constructor.
  - destruct (Z.ltb_spec (createdAt s) (createdAt h)) as [Hlt|Hge].
    + inversion Hs as [|? ? Hs' Hd]; subst. constructor; [now apply IH|].
      destruct l as [|k l]; simpl; [constructor; lia|].
      destruct (createdAt s <? createdAt k)%Z; constructor;
        [now inversion Hd|lia].
    + constructor; [exact Hs|constructor; lia].
Qed.

Lemma newestFirst_Sorted l :
  Sorted (fun a b => (createdAt b <= createdAt a)%Z) (newestFirst l).
Proof.
  unfold newestFirst. induction l as [|s l IH]; simpl; [constructor|].
  now apply insertStory_Sorted.
Qed.

(** Stories of one creation time keep their order. *)
Lemma insertStory_stable t s l :
  filter (fun x => (createdAt x =? t)%Z) (insertStory s l)
  = filter (fun x => (createdAt x =? t)%Z) (s :: l).
Proof.
  induction l as [|h l IH]; [reflexivity|].
  cbn [insertStory].
  destruct (Z.ltb_spec (createdAt s) (createdAt h)) as [Hlt|Hge];
    [|reflexivity].
  cbn [filter] in *. rewrite IH.
  destruct (Z.eqb_spec (createdAt s) t) as [Es|Es];
    destruct (Z.eqb_spec (createdAt h) t) as [Eh|Eh]; try reflexivity.
  lia.
Qed.

Lemma newestFirst_stable t l :
  filter (fun x => (createdAt x =? t)%Z) (newestFirst l)
  = filter (fun x => (createdAt x =? t)%Z) l.
Proof.
  unfold newestFirst. induction l as [|s l IH]; [reflexivity|].
  cbn [fold_right]. rewrite insertStory_stable. cbn [filter].
  now rewrite IH.
Qed.

Lemma savedStories_In stories s :
  In s (savedStories stories) <-> In s stories /\ saved s = true.
Proof.
  unfold savedStories. rewrite <- filter_In. split; apply Permutation_in.
  - apply newestFirst_Permutation.
  - symmetry. apply newestFirst_Permutation.
Qed.

(** X13: the library view lists exactly the saved stories of the
    collection, each as often as it is there, newest first, and stories
    created at the same time in the order of the collection. *)
Theorem library_newest_first (stories : list Story) :
  Permutation (savedStories stories) (filter saved stories) /\
  (forall s, In s (savedStories stories)
             <-> In s stories /\ saved s = true) /\
  StronglySorted (fun a b => (createdAt b <= createdAt a)%Z)
                 (savedStories stories) /\
  (forall t, filter (fun s => (createdAt s =? t)%Z) (savedStories stories)
             = filter (fun s => (createdAt s =? t)%Z)
                      (filter saved stories)).
Proof.
  unfold savedStories. split; [apply newestFirst_Permutation|].
  split; [|split].
  - intros s. apply savedStories_In.
  - apply Sorted_StronglySorted; [|apply newestFirst_Sorted].
    intros a b c Hab Hbc. lia.
  - intros t. apply newestFirst_stable.
Qed.

Example library_example :
  map id (savedStories [at_ "a" 5 (Some true); at_ "d" 9 None;
                        at_ "b" 7 (Some true); at_ "c" 5 (Some true)])
  = [js "b"; js "a"; js "c"].
Proof. reflexivity. Qed.

Lemma find_drafts stories :
  currentDraftStory stories = hd_error (drafts stories).
Proof.
  unfold currentDraftStory, drafts.
  induction stories as [|s l IH]; simpl; [reflexivity|].
  now destruct (draft s).
Qed.

Lemma applyAll_keeps_one_draft ops : forall stories,
  length (drafts stories) <= 1 ->
  length (drafts (applyAll stories ops)) <= 1.
Proof.
  induction ops as [|op ops IH]; intros stories H; simpl; [exact H|].
  apply IH. now apply apply_keeps_one_draft.
Qed.

(** X14: no story is out of sight.  After any sequence of additions,
    savings and removals on a collection with at most one draft, every
    story of the collection is the one the draft tab shows or is listed
    in the library. *)
Theorem every_story_shown (stories : list Story) (ops : list Op)
        (s : Story) :
  length (drafts stories) <= 1 ->
  In s (applyAll stories ops) ->
  currentDraftStory (applyAll stories ops) = Some s
  \/ In s (savedStories (applyAll stories ops)).
Proof.
  intros H Hin.
  pose proof (applyAll_keeps_one_draft ops stories H) as H1.
  destruct (saved s) eqn:Es.
  - right. apply savedStories_In. auto.
  - left. rewrite find_drafts.
    assert (Hd : In s (drafts (applyAll stories ops))).
    { apply filter_In. split; [exact Hin|]. unfold draft. now rewrite Es. }
    destruct (drafts (applyAll stories ops)) as [|d [|d' l]];
      simpl in *; [contradiction| |lia].
    destruct Hd as [->|[]]. reflexivity.
Qed.

Lemma every_story_shown_witness :
  currentDraftStory
    (applyAll [at_ "a" 1 None]
       [AddStory (at_ "b" 2 (Some false)); MarkSaved (js "b");
        AddStory (at_ "c" 3 None)])
  = Some (at_ "c" 3 None)
  \/ In (at_ "c" 3 None)
        (savedStories
           (applyAll [at_ "a" 1 None]
              [AddStory (at_ "b" 2 (Some false)); MarkSaved (js "b");
               AddStory (at_ "c" 3 None)])).
Proof.
  apply every_story_shown.
  - simpl. lia.
  - vm_compute. left. reflexivity.
Defined.

(** With two drafts, as a collection read from storage may have, the
    second is shown by neither view. *)
Example second_draft_not_shown :
  let stories := [at_ "a" 1 None; at_ "b" 2 (Some false)] in
  currentDraftStory stories = Some (at_ "a" 1 None) /\
  savedStories stories = [].
Proof. split; reflexivity. Qed.

Lemma orElse_nonempty v d : d <> [] -> orElse v d <> [].
Proof.
  intros Hd. unfold orElse. destruct v as [s|]; [|exact Hd].
  destruct s; simpl; [exact Hd|discriminate].
Qed.

Lemma newStory_draft uuid now storyData :
  saved (newStory uuid now storyData) = false.
Proof. reflexivity. Qed.

Lemma add_new_draft story stories :
  saved story = false ->
  currentDraftStory (handleAddStory story stories) = Some story /\
  drafts (handleAddStory story stories) = [story] /\
  savedStories (handleAddStory story stories) = savedStories stories.
Proof.
  intros H. rewrite add_draft by exact H.
  assert (Hd : draft story = true) by (unfold draft; now rewrite H).
  split; [|split].
  - unfold currentDraftStory. simpl. now rewrite Hd.
  - unfold drafts. simpl. rewrite Hd.
    fold (drafts (filter saved stories)). now rewrite drafts_of_saved.
  - unfold savedStories. simpl. rewrite H. now rewrite filter_idem.
Qed.

(** X15: [handleGenerateStory] with a selection that is not empty.
    When the model answers, the story built from the answer is a draft
    whatever the answer holds (the answer has no key [isSaved]), it
    becomes the story of the draft tab and the only draft, the library
    is as before; the story records the ids of the selected words of the
    vocabulary, in the order of the vocabulary, and has a title even if
    the answer has none.  When the request fails the collection is
    unchanged. *)
Theorem generated_story_is_the_draft
        (uuid : jsstring) (now : Z) (difficulty : Difficulty)
        (first : jsstring) (others : list jsstring)
        (words : list Words.Word) (data : StoryData)
        (stories : list Story) :
  let selectedWords := first :: others in
  let chosen :=
    filter (fun w => Words.includes (Words.id w) selectedWords) words in
  let story :=
    newStory uuid now (generateStoryFromWords chosen difficulty data) in
  let after :=
    handleGenerateStory uuid now difficulty selectedWords words (Some data)
                        stories in
  currentDraftStory after = Some story /\
  drafts after = [story] /\
  savedStories after = savedStories stories /\
  id story = uuid /\
  wordsUsed story = map Words.id chosen /\
  (forall i, In i (wordsUsed story) -> In i selectedWords) /\
  title story <> [] /\
  handleGenerateStory uuid now difficulty selectedWords words None stories
  = stories.
Proof.
  intros selectedWords chosen story after.
  destruct (@add_new_draft story stories (newStory_draft _ _ _))
    as [H1 [H2 H3]].
  split; [exact H1|]. split; [exact H2|]. split; [exact H3|].
  split; [reflexivity|]. split; [reflexivity|]. split; [|split].
  - intros i Hi. cbn in Hi. apply in_map_iff in Hi as [w [<- Hw]].
    apply filter_In in Hw as [_ Hw]. unfold Words.includes in Hw.
    apply existsb_exists in Hw as [x [Hx E]].
    apply str_eqb_eq in E. now rewrite E.
  - apply orElse_nonempty. discriminate.
  - reflexivity.
Qed.

Example generate_example :
  map id
      (handleGenerateStory (js "new") 9 Advanced [js "2"] 
         [Words.word "1" "cat" None; Words.word "2" "dog" None]
         (Some {| data_title := None; data_contentLearning := Some (js "A [dog].");
                  data_contentNative := None |})
         [at_ "a" 1 None; at_ "b" 2 (Some true)])
  = [js "new"; js "b"].
Proof. reflexivity. Qed.

(** X16: [handleRegenerateStory].  The words given to the model are the
    words of the vocabulary whose id the story records; when none is
    left the collection is unchanged, whatever the model would answer.
    Otherwise the new story is a draft that records the ids of those
    words only: each is an id the old story recorded and the id of a word
    still in the vocabulary.  It replaces every draft of the collection,
    the story it is regenerated from included if that was a draft, and a
    saved story it is regenerated from stays. *)
Theorem regenerate_uses_remaining_words
        (uuid : jsstring) (now : Z) (difficulty : Difficulty)
        (story : Story) (words : list Words.Word) (data : StoryData)
        (stories : list Story) :
  let usedWords :=
    filter (fun w => Words.includes (Words.id w) (wordsUsed story)) words in
  let after :=
    handleRegenerateStory uuid now difficulty story words (Some data)
                          stories in
  (usedWords = [] -> after = stories) /\
  (usedWords <> [] ->
   exists new,
     after = new :: filter saved stories /\
     saved new = false /\
     wordsUsed new = map Words.id usedWords /\
     (forall i, In i (wordsUsed new) ->
                Words.includes i (wordsUsed story) = true /\
                In i (map Words.id words))) /\
  handleRegenerateStory uuid now difficulty story words None stories
  = stories.
Proof.
  intros usedWords after.
  assert (E : usedWords <> [] ->
              after
              = handleAddStory
                  (newStory uuid now
                     (generateStoryFromWords usedWords difficulty data))
                  stories).
  { unfold after, handleRegenerateStory. fold usedWords.
    now destruct usedWords. }
  split; [|split].
  - unfold after, handleRegenerateStory. fold usedWords. now intros ->.
  - intros Hne. rewrite (E Hne). eexists.
    split; [apply add_draft; reflexivity|].
    split; [reflexivity|]. split; [reflexivity|].
    intros i Hi. cbn [wordsUsed newStory generateStoryFromWords t_wordsUsed]
      in Hi.
    apply in_map_iff in Hi as [x [<- Hx]].
    apply filter_In in Hx as [Hx Hu]. split; [exact Hu|].
    now apply in_map.
  - unfold handleRegenerateStory. fold usedWords. now destruct usedWords.
Qed.

Example regenerate_without_words :
  handleRegenerateStory (js "new") 9 Beginner (at_ "a" 1 (Some true))
    [Words.word "7" "sun" None]
    (Some {| data_title := None; data_contentLearning := None;
             data_contentNative := None |})
    [at_ "a" 1 (Some true)]
  = [at_ "a" 1 (Some true)].
Proof. reflexivity. Qed.

Lemma find_In_id (stories : list Story) s :
  In s stories ->
  exists v, find (fun x => str_eqb (id x) (id s)) stories = Some v /\
            str_eqb (id v) (id s) = true /\ In v stories.
Proof.
  intros Hin.
  destruct (find (fun x => str_eqb (id x) (id s)) stories) as [v|] eqn:E.
  - exists v. apply find_some in E as [Hv Hid]. auto.
  - exfalso. pose proof (@find_none _ _ _ E s Hin) as H. simpl in H.
    pose proof (str_eqb_refl (id s)) as R. unfold Words.str_eqb in R.
    congruence.
Qed.

(** X17: saving the story of the draft tab, in a collection with at
    most one draft.  Afterwards the collection has no draft, the draft tab
    is empty and the story, marked saved, is in the library; the
    collection keeps its ids and their order.  The story handed to the
    reader is taken from the collection as it was before the update: a
    story with the same id that the update has not touched. *)
Theorem save_moves_draft_to_library (stories : list Story) (s : Story) :
  length (drafts stories) <= 1 ->
  currentDraftStory stories = Some s ->
  drafts (fst (handleSaveStory (id s) stories)) = [] /\
  currentDraftStory (fst (handleSaveStory (id s) stories)) = None /\
  In (spread s markSaved)
     (savedStories (fst (handleSaveStory (id s) stories))) /\
  map id (fst (handleSaveStory (id s) stories)) = map id stories /\
  exists v, snd (handleSaveStory (id s) stories) = Some v /\
            str_eqb (id v) (id s) = true /\ In v stories.
Proof.
  intros H1 Hc. cbn [handleSaveStory fst snd].
  assert (Hin : In s stories /\ draft s = true).
  { unfold currentDraftStory in Hc. apply find_some in Hc. exact Hc. }
  destruct Hin as [Hin Hd].
  assert (Hone : forall x, In x stories -> draft x = true -> x = s).
  { intros x Hx Hdx.
    assert (Hs : In s (drafts stories)) by (apply filter_In; auto).
    assert (Hx' : In x (drafts stories)) by (apply filter_In; auto).
    destruct (drafts stories) as [|d [|d' l]]; simpl in *;
      [contradiction| |lia].
    destruct Hs as [<-|[]], Hx' as [<-|[]]. reflexivity. }
  destruct (find_In_id stories s Hin) as [v [Hf [Hv Hvin]]].
  assert (Hnone : drafts (handleUpdateStory (id s) markSaved stories) = []).
  { unfold drafts, handleUpdateStory.
    assert (G : forall l, (forall x, In x l -> In x stories) ->
              filter draft
                (map (fun x => if str_eqb (id x) (id s)
                               then spread x markSaved else x) l) = []).
    { induction l as [|x l IH]; intros Hl; [reflexivity|]. simpl.
      rewrite IH by (intros y Hy; apply Hl; now right).
      destruct (str_eqb (id x) (id s)) eqn:E; [reflexivity|].
      destruct (draft x) eqn:Ex; [|reflexivity].
      rewrite (Hone x (Hl x (or_introl eq_refl)) Ex) in E.
      pose proof (str_eqb_refl (id s)) as R. unfold Words.str_eqb in R.
      congruence. }
    apply G. auto. }
  split; [exact Hnone|]. split.
  - rewrite find_drafts, Hnone. reflexivity.
  - split; [|split].
    + apply savedStories_In. split; [|reflexivity].
      unfold handleUpdateStory. apply in_map_iff. exists s.
      split; [|exact Hin].
      pose proof (str_eqb_refl (id s)) as R. unfold Words.str_eqb in R.
      now rewrite R.
    + unfold handleUpdateStory. rewrite map_map. apply map_ext.
      intros x. now destruct (str_eqb (id x) (id s)).
    + exists v. auto.
Qed.

Lemma save_moves_draft_to_library_witness :
  drafts (fst (handleSaveStory (id (at_ "d" 9 None))
                 [at_ "d" 9 None; at_ "a" 5 (Some true)])) = [] /\
  currentDraftStory
    (fst (handleSaveStory (id (at_ "d" 9 None))
            [at_ "d" 9 None; at_ "a" 5 (Some true)])) = None /\
  In (spread (at_ "d" 9 None) markSaved)
     (savedStories
        (fst (handleSaveStory (id (at_ "d" 9 None))
                [at_ "d" 9 None; at_ "a" 5 (Some true)]))) /\
  map id (fst (handleSaveStory (id (at_ "d" 9 None))
                 [at_ "d" 9 None; at_ "a" 5 (Some true)]))
  = map id [at_ "d" 9 None; at_ "a" 5 (Some true)] /\
  exists v, snd (handleSaveStory (id (at_ "d" 9 None))
                   [at_ "d" 9 None; at_ "a" 5 (Some true)]) = Some v /\
            str_eqb (id v) (id (at_ "d" 9 None)) = true /\
            In v [at_ "d" 9 None; at_ "a" 5 (Some true)].
Proof.
  apply save_moves_draft_to_library.
  - simpl. lia.
  - reflexivity.
Defined.

(** The reader is handed the record from before the update: it still
    counts as a draft there. *)
Example reader_gets_stale_record :
  snd (handleSaveStory (js "d") [at_ "d" 9 None; at_ "a" 5 (Some true)])
  = Some (at_ "d" 9 None).
Proof. reflexivity. Qed.

End LibraryFacts.

(** ** Practice sessions *)

Section PracticeFacts.

Import Words Practice.

(** *** The shuffle *)

(** Rounding up adds at most half a unit of the last place kept. *)
Lemma roundNearestEven_le a d :
  (0 < d)%Z -> (0 <= a)%Z ->
  (roundNearestEven a d * 2 ^ d <= a + 2 ^ (d - 1))%Z.
Proof.
  intros Hd Ha. unfold roundNearestEven.
  rewrite Z.shiftr_div_pow2, !Z.shiftl_mul_pow2, Z.mul_1_l by lia.
  assert (H2 : (2 ^ d = 2 * 2 ^ (d - 1))%Z).
  { rewrite <- Z.pow_succ_r by lia. f_equal. lia. }
  assert (Hp : (0 < 2 ^ (d - 1))%Z) by (apply Z.pow_pos_nonneg; lia).
  pose proof (Z.div_mod a (2 ^ d)) as Hdm.
  pose proof (Z.mod_pos_bound a (2 ^ d)) as Hm.
  set (q := (a / 2 ^ d)%Z) in *.
  set (h := (2 ^ (d - 1))%Z) in *.
  destruct (Z.ltb_spec h (a - q * 2 ^ d)) as [Hlt|Hge]; cbn [orb].
  - lia.
  - destruct (Z.eqb_spec (a - q * 2 ^ d) h) as [He|Hne]; cbn [andb].
    + destruct (Z.odd q); lia.
    + lia.
Qed.

(** The product of a number below 1 and [n], rounded, is still below
    [n]: the gap between the exact product and [n] is more than half a
    unit of the last place kept. *)
Lemma multiply_below r n :
  unit64 r = true -> (1 <= n)%Z ->
  (0 <= floor (multiply r n) < n)%Z.
Proof.
  unfold unit64. intros H Hn.
  apply andb_true_iff in H as [H H5]. apply andb_true_iff in H as [H H4].
  apply andb_true_iff in H as [H H3]. apply andb_true_iff in H as [H1 H2].
  apply Z.leb_le in H1, H3, H4. apply Z.ltb_lt in H2, H5.
  destruct r as [m e]. cbn [significand scale] in *.
  unfold multiply, floor. cbn [significand scale].
  set (a := (m * n)%Z).
  assert (Ha : (0 <= a)%Z) by (unfold a; nia).
  assert (HE : (0 < 2 ^ e)%Z) by (apply Z.pow_pos_nonneg; lia).
  assert (Hae : (a < n * 2 ^ e)%Z) by (unfold a; nia).
  destruct (Z.leb_spec (Z.log2 a + 1 - 53) 0) as [Hd|Hd];
    cbn [significand scale].
  - (* the product is exact *)
    rewrite Z.shiftr_div_pow2 by lia. split.
    + apply Z.div_pos; lia.
    + apply Z.div_lt_upper_bound; lia.
  - set (d := (Z.log2 a + 1 - 53)%Z) in *.
    assert (Hpos : (0 < a)%Z).
    { destruct (Z.eq_dec a 0) as [E|E]; [|lia].
      unfold d in Hd. rewrite E in Hd. simpl in Hd. lia. }
    pose proof (roundNearestEven_le Hd Ha) as Hr.
    assert (Hq0 : (0 <= roundNearestEven a d)%Z).
    { unfold roundNearestEven.
      assert (0 <= Z.shiftr a d)%Z by (apply Z.shiftr_nonneg; lia).
      destruct (_ || _)%bool; lia. }
    set (q := roundNearestEven a d) in *.
    assert (HD : (0 < 2 ^ d)%Z) by (apply Z.pow_pos_nonneg; lia).
    assert (Hh : (0 < 2 ^ (d - 1))%Z) by (apply Z.pow_pos_nonneg; lia).
    (* [a] has [d + 53] bits *)
    assert (Hlog : (2 ^ 53 * 2 ^ (d - 1) <= a)%Z).
    { rewrite <- Z.pow_add_r by lia.
      replace (53 + (d - 1))%Z with (Z.log2 a) by (unfold d; lia).
      apply Z.log2_spec. exact Hpos. }
    (* the gap to [n] is more than half a unit *)
    assert (Hgap : (2 ^ (d - 1) < n * 2 ^ e - a)%Z).
    { assert (2 ^ 53 * 2 ^ (d - 1) < 2 ^ 53 * (n * 2 ^ e - a))%Z;
        [|nia].
      apply Z.le_lt_trans with a; [exact Hlog|].
      unfold a. nia. }
    assert (Hlt : (q * 2 ^ d < n * 2 ^ e)%Z) by lia.
    destruct (Z.le_gt_cases d e) as [Hde|Hde].
    + rewrite Z.shiftr_div_pow2 by lia. split.
      * apply Z.div_pos; [lia|apply Z.pow_pos_nonneg; lia].
      * apply Z.div_lt_upper_bound; [apply Z.pow_pos_nonneg; lia|].
        assert (He : (2 ^ e = 2 ^ (e - d) * 2 ^ d)%Z).
        { rewrite <- Z.pow_add_r by lia. f_equal. lia. }
        rewrite He in Hlt.
        assert (0 < 2 ^ (e - d))%Z by (apply Z.pow_pos_nonneg; lia).
        nia.
    + replace (e - d)%Z with (- (d - e))%Z by lia.
      rewrite Z.shiftr_opp_r, Z.shiftl_mul_pow2 by lia.
      assert (Hd' : (2 ^ d = 2 ^ (d - e) * 2 ^ e)%Z).
      { rewrite <- Z.pow_add_r by lia. f_equal. lia. }
      rewrite Hd' in Hlt.
      assert (0 < 2 ^ (d - e))%Z by (apply Z.pow_pos_nonneg; lia).
      split; nia.
Qed.

Lemma randomIndex_le r i : unit64 r = true -> randomIndex r i <= i.
Proof.
  intros H. unfold randomIndex.
  pose proof (@multiply_below r (Z.of_nat (i + 1)) H) as Hb. lia.
Qed.

Lemma assign_middle {A} (l1 l2 : list A) y x :
  assign (l1 ++ y :: l2) (length l1) x = l1 ++ x :: l2.
Proof. induction l1 as [|a l1 IH]; simpl; [reflexivity|now rewrite IH]. Qed.

Lemma assign_same {A} (l : list A) : forall i a,
  nth_error l i = Some a -> assign l i a = l.
Proof.
  induction l as [|y l IH]; intros [|i] a H; simpl in *; try discriminate.
  - now injection H as ->.
  - f_equal. now apply IH.
Qed.

(** Exchanging two elements of a list gives a permutation of it. *)
Lemma swap_Permutation {A} (l : list A) i j a b :
  j <= i -> nth_error l i = Some a -> nth_error l j = Some b ->
  Permutation (assign (assign l i b) j a) l.
Proof.
  intros Hji Hi Hj.
  destruct (Nat.eq_dec j i) as [->|Hne].
  { assert (a = b) by congruence. subst b.
    rewrite (assign_same l i Hi). now rewrite (assign_same l i Hi). }
  { assert (Hlt : j < i) by lia.
    apply nth_error_split in Hj as [l1 [rest [-> Hl1]]].
    rewrite nth_error_app2 in Hi by lia.
    replace (i - length l1) with (S (i - j - 1)) in Hi by lia.
    cbn [nth_error] in Hi.
    apply nth_error_split in Hi as [l2 [l3 [-> Hl2]]].
    assert (E1 : assign (l1 ++ b :: l2 ++ a :: l3) i b
                 = l1 ++ b :: l2 ++ b :: l3).
    { replace i with (length (l1 ++ b :: l2))
        by (rewrite length_app; simpl; lia).
      replace (l1 ++ b :: l2 ++ a :: l3) with ((l1 ++ b :: l2) ++ a :: l3)
        by (rewrite <- app_assoc; reflexivity).
      rewrite assign_middle, <- app_assoc. reflexivity. }
    rewrite E1, <- Hl1, assign_middle.
    apply Permutation_app_head.
    transitivity (a :: b :: l2 ++ l3).
    - constructor. symmetry. apply Permutation_middle.
    - rewrite perm_swap. constructor. apply Permutation_middle. }
Qed.

Lemma shuffleFrom_Permutation {A} (random : nat -> Float64) :
  unitInterval random ->
  forall i k (items : list A), i < length items ->
    exists queue, shuffleFrom random k i items = Some queue /\
                  Permutation queue items.
Proof.
  intros Hr. induction i as [|i IH]; intros k items Hi; simpl.
  - exists items. split; reflexivity.
  - pose proof (@randomIndex_le (random k) (S i) (Hr k)) as Hj.
    unfold swap.
    destruct (nth_error items (S i)) as [a|] eqn:Ea;
      [|apply nth_error_None in Ea; lia].
    destruct (nth_error items (randomIndex (random k) (S i))) as [b|] eqn:Eb;
      [|apply nth_error_None in Eb; lia].
    pose proof (swap_Permutation items Hj Ea Eb) as Hp.
    destruct (IH (S k) (assign (assign items (S i) b)
                               (randomIndex (random k) (S i)) a))
      as [queue [Hq Hperm]].
    + rewrite (Permutation_length Hp). lia.
    + exists queue. split; [exact Hq|]. now rewrite Hperm.
Qed.

Lemma shuffle_total {A} (random : nat -> Float64) (items : list A) :
  unitInterval random ->
  exists queue, shuffle random items = Some queue /\ Permutation queue items.
Proof.
  intros Hr. unfold shuffle. destruct items as [|w l].
  - exists []. split; reflexivity.
  - apply shuffleFrom_Permutation; [exact Hr|simpl; lia].
Qed.

(** X18: the shuffle of the flashcards, for any results of
    [Math.random()], binary64 numbers in [[0, 1)]: the index drawn at
    round [i], the floor of the product rounded to binary64, is one of
    [0 .. i], an index of the array, and the queue is a permutation of the
    list, so that no card is lost and none comes twice. *)
Theorem shuffle_permutation (random : nat -> Float64) (cards : list Word) :
  unitInterval random ->
  (forall k i, randomIndex (random k) i <= i) /\
  exists queue,
    shuffle random cards = Some queue /\
    Permutation queue cards /\
    length queue = length cards /\
    (forall w, In w queue <-> In w cards).
Proof.
  intros Hr. split; [intros k i; apply randomIndex_le, Hr|].
  destruct (shuffle_total cards Hr) as [queue [Hq Hp]].
  exists queue. split; [exact Hq|]. split; [exact Hp|].
  split; [now apply Permutation_length|].
  intros w. split; apply Permutation_in; [exact Hp|now symmetry].
Qed.

Lemma half_unit : unitInterval half.
Proof. intros k. reflexivity. Qed.

Lemma shuffle_permutation_witness :
  (forall k i, randomIndex (half k) i <= i) /\
  exists queue,
    shuffle half three = Some queue /\
    Permutation queue three /\
    length queue = length three /\
    (forall w, In w queue <-> In w three).
Proof. apply shuffle_permutation. exact half_unit. Defined.

(** The product is rounded before the floor is taken: seven times
    [belowFourSevenths] is [4 - 2 ^ -52], which is not a binary64 number;
    it lies halfway between two of them and goes to the even one, 4. *)
Example product_rounded :
  unit64 belowFourSevenths = true /\
  multiply belowFourSevenths 7 = {| significand := 2 ^ 53; scale := 51 |} /\
  randomIndex belowFourSevenths 6 = 4.
Proof. repeat split. Qed.

Example shuffle_example :
  option_map (map id) (shuffle half three) = Some [js "1"; js "3"; js "2"].
Proof. reflexivity. Qed.

(** *** The card on display *)

Lemma start_ready random words st :
  unitInterval random -> CardReady words st ->
  exists st', startFlashcardSession random words st = Some st' /\
              CardReady words st'.
Proof.
  intros Hr Hst. unfold startFlashcardSession.
  set (list := if str_eqb (fcGroup st) (js "All") then words
               else filter (inGroup (fcGroup st)) words).
  assert (Hl : forall w, In w list -> In w words).
  { unfold list. destruct (str_eqb (fcGroup st) (js "All")); [trivial|].
    intros w Hw. now apply filter_In in Hw. }
  destruct list as [|w0 l] eqn:El; [now exists st|].
  destruct (fcShuffle st).
  - destruct (shuffle_total (w0 :: l) Hr) as [queue [-> Hp]].
    eexists. split; [reflexivity|]. split; cbn.
    + intros _. rewrite (Permutation_length Hp). simpl. lia.
    + intros w Hw. apply Hl. now apply (Permutation_in w Hp).
  - eexists. split; [reflexivity|]. split; cbn; [lia|exact Hl].
Qed.

Lemma nextCard_ready words st : CardReady words st -> CardReady words (nextCard st).
Proof.
  intros [H1 H2]. unfold nextCard.
  destruct (Z.ltb_spec (Z.of_nat (fcIndex st))
                       (Z.of_nat (length (fcQueue st)) - 1)) as [H|H];
    split; cbn; try exact H2; [lia|discriminate].
Qed.

Lemma fcStep_ready words st e :
  wellFormed e -> CardReady words st ->
  exists st', fcStep words st e = Some st' /\ CardReady words st'.
Proof.
  intros He Hst. destruct e as [g|b|random| | |random|]; simpl.
  - eexists. split; [reflexivity|exact Hst].
  - eexists. split; [reflexivity|exact Hst].
  - now apply start_ready.
  - eexists. split; [reflexivity|exact Hst].
  - eexists. split; [reflexivity|now apply nextCard_ready].
  - now apply start_ready.
  - eexists. split; [reflexivity|]. split; cbn; [discriminate|intros w []].
Qed.

Lemma fcRun_ready words es : forall st,
  Forall wellFormed es -> CardReady words st ->
  exists st', fcRun words st es = Some st' /\ CardReady words st'.
Proof.
  induction es as [|e es IH]; intros st He Hst; simpl.
  - now exists st.
  - inversion He as [|? ? He1 He2]; subst.
    destruct (fcStep_ready e He1 Hst) as [st1 [-> H1]].
    now apply IH.
Qed.

(** X19: whatever the user does in the flashcard mode (choosing a
    group and an order, starting, flipping, going on, restarting, ending),
    with any results of [Math.random()] in [[0, 1)], the state is
    defined, and whenever the phase is [playing] there is a card on
    display, [fcQueue[fcIndex]], which is a word of the vocabulary: the
    guard [fcPhase === 'playing' && flashcardWord] of the view never
    hides a session. *)
Theorem card_on_display (words : list Word) (es : list FcEvent) :
  Forall wellFormed es ->
  exists st,
    fcRun words initial es = Some st /\
    (fcPhase st = playing ->
     exists w, flashcardWord st = Some w /\ In w words).
Proof.
  intros He.
  destruct (@fcRun_ready words es initial He) as [st [Hr [H1 H2]]].
  { split; cbn; [discriminate|intros w []]. }
  exists st. split; [exact Hr|]. intros Hp. specialize (H1 Hp).
  unfold flashcardWord.
  destruct (nth_error (fcQueue st) (fcIndex st)) as [w|] eqn:E.
  - exists w. split; [reflexivity|]. apply H2.
    now apply nth_error_In in E.
  - apply nth_error_None in E. lia.
Qed.

Lemma card_on_display_witness :
  exists st,
    fcRun three initial
          [SetGroup (js "pets"); SetShuffle true; Start half; Next]
    = Some st /\
    (fcPhase st = playing ->
     exists w, flashcardWord st = Some w /\ In w three).
Proof.
  apply card_on_display.
  constructor; [exact I|]. constructor; [exact I|].
  constructor; [exact half_unit|]. constructor; [exact I|]. constructor.
Defined.

(** An empty group: the session does not start. *)
Example empty_group_not_started :
  fcRun three initial [SetGroup (js "none"); Start half]
  = Some {| fcPhase := setup; fcGroup := js "none"; fcShuffle := false;
            fcQueue := []; fcIndex := 0; isFlipped := false |}.
Proof. reflexivity. Qed.

Lemma nextCard_iter st : forall k,
  fcPhase st = playing -> fcIndex st = 0 -> k < length (fcQueue st) ->
  fcPhase (Nat.iter k nextCard st) = playing /\
  fcIndex (Nat.iter k nextCard st) = k /\
  fcQueue (Nat.iter k nextCard st) = fcQueue st.
Proof.
  intros k Hp Hi. induction k as [|k IH]; intros Hk; simpl.
  - auto.
  - destruct IH as [H1 [H2 H3]]; [lia|].
    set (x := Nat.iter k nextCard st) in *. unfold nextCard.
    rewrite H2, H3.
    destruct (Z.ltb_spec (Z.of_nat k)
                         (Z.of_nat (length (fcQueue st)) - 1)) as [H|H];
      [|lia].
    cbn [fcPhase fcIndex fcQueue]. split; [exact H1|]. split; [lia|reflexivity].
Qed.

(** X20: a session goes through its queue once, in order.  From the
    state a start leaves (phase [playing], index 0, a queue that is not
    empty), pressing next [k] times, for [k] below the length of the
    queue, shows card [k] of the queue, and pressing it once more after
    the last card ends the session with phase [complete]. *)
Theorem cards_in_order (st : Flashcards) :
  fcPhase st = playing -> fcIndex st = 0 -> fcQueue st <> [] ->
  (forall k, k < length (fcQueue st) ->
             fcPhase (Nat.iter k nextCard st) = playing /\
             flashcardWord (Nat.iter k nextCard st)
             = nth_error (fcQueue st) k) /\
  fcPhase (Nat.iter (length (fcQueue st)) nextCard st) = complete.
Proof.
  intros Hp Hi Hne. split.
  - intros k Hk. destruct (nextCard_iter st Hp Hi Hk) as [H1 [H2 H3]].
    split; [exact H1|]. unfold flashcardWord. now rewrite H2, H3.
  - destruct (length (fcQueue st)) as [|n] eqn:En.
    + destruct (fcQueue st); [congruence|discriminate].
    + simpl. destruct (@nextCard_iter st n Hp Hi) as [H1 [H2 H3]]; [lia|].
      set (x := Nat.iter n nextCard st) in *. unfold nextCard.
      rewrite H2, H3, En.
      destruct (Z.ltb_spec (Z.of_nat n) (Z.of_nat (S n) - 1)) as [H|H];
        [lia|reflexivity].
Qed.

Lemma cards_in_order_witness :
  let st := {| fcPhase := playing; fcGroup := js "All"; fcShuffle := false;
               fcQueue := three; fcIndex := 0; isFlipped := false |} in
  (forall k, k < length (fcQueue st) ->
             fcPhase (Nat.iter k nextCard st) = playing /\
             flashcardWord (Nat.iter k nextCard st)
             = nth_error (fcQueue st) k) /\
  fcPhase (Nat.iter (length (fcQueue st)) nextCard st) = complete.
Proof.
  apply (@cards_in_order
           {| fcPhase := playing; fcGroup := js "All"; fcShuffle := false;
              fcQueue := three; fcIndex := 0; isFlipped := false |}).
  - reflexivity.
  - reflexivity.
  - discriminate.
Defined.

(** *** The word to pronounce *)

Lemma next_index (words : list Word) i :
  words <> [] ->
  nextPronunciationWord words (Some i) = Some ((i + 1) mod length words).
Proof.
  intros H. unfold nextPronunciationWord.
  destruct words; [congruence|reflexivity].
Qed.

Lemma next_iter (words : list Word) i : forall k,
  words <> [] -> i < length words ->
  Nat.iter k (nextPronunciationWord words) (Some i)
  = Some ((i + k) mod length words).
Proof.
  intros k Hne Hi. induction k as [|k IH]; simpl.
  - now rewrite Nat.add_0_r, Nat.mod_small.
  - rewrite IH, next_index by exact Hne. f_equal.
    rewrite Nat.Div0.add_mod_idemp_l. f_equal. lia.
Qed.

(** X21: the word to pronounce, for a vocabulary that is not empty
    (the mode is rendered only then) and an index inside it, as the
    initial 0 is.  After any number of presses of the skip button there
    is a word on display, [words[currentIndex]]; [k] presses move [k]
    words on, wrapping at the end, so that as many presses as there are
    words bring back the word one started from. *)
Theorem pronunciation_word_cycles (words : list Word) (i k : nat) :
  words <> [] -> i < length words ->
  Nat.iter k (nextPronunciationWord words) (Some i)
  = Some ((i + k) mod length words) /\
  (exists w,
      pronunciationWord words
        (Nat.iter k (nextPronunciationWord words) (Some i)) = Some w) /\
  Nat.iter (length words) (nextPronunciationWord words) (Some i) = Some i.
Proof.
  intros Hne Hi.
  assert (Hl : length words <> 0) by (destruct words; [congruence|discriminate]).
  split; [now apply next_iter|]. split.
  - rewrite next_iter by assumption. cbn [pronunciationWord].
    destruct (nth_error words ((i + k) mod length words)) as [w|] eqn:E;
      [now exists w|].
    apply nth_error_None in E.
    pose proof (Nat.mod_upper_bound (i + k) (length words) Hl). lia.
  - rewrite next_iter by assumption. f_equal.
    rewrite <- Nat.Div0.add_mod_idemp_r, Nat.Div0.mod_same, Nat.add_0_r.
    now apply Nat.mod_small.
Qed.

Lemma pronunciation_word_cycles_witness :
  Nat.iter 4 (nextPronunciationWord three) (Some 1)
  = Some ((1 + 4) mod length three) /\
  (exists w,
      pronunciationWord three
        (Nat.iter 4 (nextPronunciationWord three) (Some 1)) = Some w) /\
  Nat.iter (length three) (nextPronunciationWord three) (Some 1) = Some 1.
Proof.
  apply pronunciation_word_cycles.
  - discriminate.
  - simpl. lia.
Defined.

(** With an empty vocabulary the index would be NaN. *)
Example next_index_empty : nextPronunciationWord [] (Some 0) = None.
Proof. reflexivity. Qed.

(** *** The answers of the quiz *)

Lemma chooseOption_other qa idx opt k :
  k <> idx -> chooseOption qa (idx, opt) k = qa k.
Proof.
  intros H. unfold chooseOption.
  destruct (showResult qa idx); [reflexivity|].
  now replace (k =? idx) with false by (symmetry; now apply Nat.eqb_neq).
Qed.

Lemma chooseOption_kept qa click idx :
  showResult qa idx = true -> chooseOption qa click idx = qa idx.
Proof.
  intros H. destruct click as [i opt].
  destruct (Nat.eq_dec idx i) as [->|Hne].
  - unfold chooseOption. now rewrite H.
  - now apply chooseOption_other.
Qed.

Lemma chooseAll_kept clicks : forall qa idx,
  showResult qa idx = true -> chooseAll qa clicks idx = qa idx.
Proof.
  induction clicks as [|click clicks IH]; intros qa idx H; [reflexivity|].
  cbn [chooseAll fold_left]. fold (chooseAll (chooseOption qa click) clicks).
  rewrite IH.
  - now apply chooseOption_kept.
  - unfold showResult in *. now rewrite chooseOption_kept.
Qed.

(** X26: in the quiz the first answer counts.  Among any clicks on
    options, the first click on an option that is not the empty string,
    for a question not answered before, fixes the answer of that
    question: no later click changes it.  A click never changes the
    answer of another question. *)
Theorem quiz_answer_is_final (before after : list (nat * jsstring))
        (idx : nat) (opt : jsstring) :
  opt <> [] ->
  (forall o, In (idx, o) before -> o = []) ->
  chooseAll noAnswers (before ++ (idx, opt) :: after) idx = Some opt /\
  (forall qa click k,
      k <> fst click -> chooseOption qa click k = qa k).
Proof.
  intros Hopt Hb. split.
  - unfold chooseAll. rewrite fold_left_app. cbn [fold_left].
    fold (chooseAll noAnswers before).
    assert (Hnot : showResult (chooseAll noAnswers before) idx = false).
    { assert (G : forall qa, showResult qa idx = false ->
                  showResult (chooseAll qa before) idx = false).
      { induction before as [|[i o] l IH]; intros qa Hq; [exact Hq|].
        cbn [chooseAll fold_left].
        fold (chooseAll (chooseOption qa (i, o)) l).
        apply IH; [intros o' Ho'; apply Hb; now right|].
        destruct (Nat.eq_dec idx i) as [<-|Hne].
        - unfold chooseOption. rewrite Hq. unfold showResult.
          rewrite Nat.eqb_refl. now rewrite (Hb o (or_introl eq_refl)).
        - unfold showResult. rewrite chooseOption_other by exact Hne.
          exact Hq. }
      now apply G. }
    fold (chooseAll (chooseOption (chooseAll noAnswers before) (idx, opt))
                    after).
    rewrite chooseAll_kept.
    + unfold chooseOption. now rewrite Hnot, Nat.eqb_refl.
    + unfold showResult, chooseOption. rewrite Hnot, Nat.eqb_refl.
      destruct opt; [congruence|reflexivity].
  - intros qa [i o] k Hk. now apply chooseOption_other.
Qed.

Lemma quiz_answer_is_final_witness :
  chooseAll noAnswers
    ([(1, js "cat"); (0, [])] ++ (0, js "dog") :: [(0, js "sun"); (1, js "x")])
    0 = Some (js "dog") /\
  (forall qa click k,
      k <> fst click -> chooseOption qa click k = qa k).
Proof.
  apply quiz_answer_is_final.
  - discriminate.
  - intros o [H|[H|[]]]; [discriminate|now injection H as <-].
Defined.

End PracticeFacts.

(** ** The speaker button *)

Section SpeakerFacts.

Import Segmenter Pcm Speaker.

Lemma decode_mono_cases ctx bytes :
  conforming ctx = true ->
  decodeAudioData bytes ctx 24000 1
  = if Nat.even (length bytes) && negb (length bytes =? 0)
    then Ok {| numberOfChannels := 1; frames := length bytes / 2;
               sampleRate := 24000;
               channels :=
                 [map (fun v => Num (v # 32768)) (int16_view bytes)] |}
    else Throw (if Nat.even (length bytes) then NotSupportedError
                else RangeError).
Proof.
  intros Hc.
  assert (Hs : supports ctx 1 24000 = true)
    by (apply conforming_supports; [exact Hc|lia|lia]).
  destruct (Nat.even (length bytes)) eqn:He.
  - destruct (Nat.eqb_spec (length bytes) 0) as [E0|E0]; cbn [andb negb].
    + destruct bytes; [|discriminate].
      unfold decodeAudioData, newInt16Array, createBuffer. simpl bind.
      now rewrite orb_true_r.
    + apply Nat.even_spec in He as [n Hn].
      rewrite (@decode_mono_value bytes ctx 24000 n Hs) by lia.
      rewrite Hn, Nat.mul_comm, Nat.div_mul by lia. reflexivity.
  - cbn [andb]. apply decode_odd_throws. now rewrite <- Nat.negb_even, He.
Qed.

(** X22: a press of a speaker button of the search view or of the
    practice view, from the answer of the model to what is heard.  When
    the client of the service cannot be built, [generateSpeech] rejects
    and so does the handler, which nobody handles.  A failed request is
    logged by [generateSpeech] and not thrown; without a payload (a link
    of the chain missing, an empty string) nothing happens at all.  With
    a payload a context is built at every press; a source is started
    exactly when that succeeds, [atob] accepts the payload and gives an
    even number of bytes, not zero, and the buffer then has one frame for
    each two bytes.  In every other case [playAudio] logs the error and
    throws it again, into a promise that nobody handles. *)
Theorem speaker_button (atob : jsstring -> result jsstring)
        (device : bool) (ctx : Limits) (client : bool)
        (answer : option Response) :
  conforming ctx = true ->
  handlePlayAudio atob device ctx client answer
  = if client then
      match answer with
      | None => [TtsFailed]
      | Some response =>
          match base64Audio response with
          | None | Some [] => []
          | Some base64 =>
              if device then
                match decodeBase64 atob base64 with
                | Ok bytes =>
                    if Nat.even (length bytes) && negb (length bytes =? 0)
                    then [ContextCreated;
                          SourceStarted
                            {| numberOfChannels := 1;
                               frames := length bytes / 2;
                               sampleRate := 24000;
                               channels :=
                                 [map (fun v => Num (v # 32768))
                                      (int16_view bytes)] |}]
                    else [ContextCreated; PlayFailed; Unhandled]
                | Throw _ => [ContextCreated; PlayFailed; Unhandled]
                end
              else [PlayFailed; Unhandled]
          end
      end
    else [Unhandled].
Proof.
  intros Hc. unfold handlePlayAudio, generateSpeech.
  destruct client; [|reflexivity].
  destruct answer as [response|]; [|reflexivity].
  destruct (base64Audio response) as [[|c base64]|]; try reflexivity.
  cbn [truthy]. unfold playAudio.
  destruct device; [|reflexivity].
  destruct (decodeBase64 atob (c :: base64)) as [bytes|e]; cbn [bind];
    [|reflexivity].
  rewrite decode_mono_cases by exact Hc.
  now destruct (Nat.even (length bytes) && negb (length bytes =? 0)).
Qed.

Lemma speaker_button_witness :
  handlePlayAudio plain true required true (answerWith (Some (js "abcd")))
  = [ContextCreated;
     SourceStarted
       {| numberOfChannels := 1; frames := 2; sampleRate := 24000;
          channels := [[Num (25185 # 32768); Num (25699 # 32768)]] |}].
Proof.
  apply (@speaker_button plain true required true
           (answerWith (Some (js "abcd")))).
  reflexivity.
Defined.

Example speaker_odd_payload :
  handlePlayAudio plain true required true (answerWith (Some (js "abc")))
  = [ContextCreated; PlayFailed; Unhandled].
Proof. reflexivity. Qed.

Example speaker_no_answer :
  handlePlayAudio plain true required true None = [TtsFailed].
Proof. reflexivity. Qed.

Example speaker_no_client :
  handlePlayAudio plain true required false (answerWith (Some (js "abcd")))
  = [Unhandled].
Proof. reflexivity. Qed.

End SpeakerFacts.

(** ** The speech service in the playback loop *)

Section NarratorFacts.

Import Segmenter Pcm Playback Speaker Narrator.

Variable atob : jsstring -> result jsstring.

(** The request is rejected exactly when the client is not built. *)
Lemma settle_rejected call :
  settle atob call = Rejected <-> fst call = false.
Proof.
  destruct call as [client answer]. unfold settle, generateSpeech.
  cbn [fst snd]. destruct client.
  - split; [|discriminate].
    destruct answer as [response|]; cbn [snd]; [|discriminate].
    destruct (base64Audio response) as [s|]; [|discriminate].
    destruct (truthy s); discriminate.
  - now split.
Qed.

Lemma settle_erroneous call :
  erroneous (settle atob call) = true <->
  fst call = false \/
  exists base64,
    snd (generateSpeech (fst call) (snd call)) = Resolves (Some base64) /\
    (failed (decodeBase64 atob base64) = true \/
     exists bytes, decodeBase64 atob base64 = Ok bytes /\
                   (Nat.odd (length bytes) = true \/ bytes = [])).
Proof.
  destruct call as [client answer]. cbn [fst snd].
  destruct client.
  - unfold settle. cbn [fst snd].
    destruct (snd (generateSpeech true answer)) as [[base64|]|] eqn:E.
    + cbn [erroneous]. split.
      * intros H. right. exists base64. split; [reflexivity|].
        destruct (decodeBase64 atob base64) as [bytes|e]; [|now left].
        right. exists bytes. split; [reflexivity|].
        now apply decode_default_fails_iff.
      * intros [H|[x [[= <-] [H|[bytes [Hd H]]]]]]; [discriminate| |].
        -- now destruct (decodeBase64 atob base64).
        -- rewrite Hd. now apply decode_default_fails_iff.
    + cbn [erroneous]. split; [discriminate|].
      intros [H|[x [H _]]]; discriminate.
    + exfalso. unfold generateSpeech in E.
      destruct answer as [response|]; discriminate.
  - split; [now left|reflexivity].
Qed.

Lemma error_logged id sentences os i :
  length os <= length sentences ->
  In (ConsoleError id i) (narration id sentences 0 os) <->
  exists o, nth_error os i = Some o /\ erroneous o = true.
Proof.
  intros Hlen.
  rewrite (narration_spec id sentences (ConsoleError id i) os 0)
    by (simpl; lia).
  split.
  - intros (j & o & s & Hj & _ & [He|He]); [discriminate|].
    assert (j = i) by (eapply outcomeObs_index; eauto 6). subst j.
    exists o. split; [exact Hj|].
    destruct o as [|[data|x]|]; cbn [outcomeObs erroneous] in *;
      try reflexivity.
    + destruct He as [He|[]]. discriminate.
    + destruct (failed (decodeAudioData_default data)); [reflexivity|].
      simpl in He. intuition discriminate.
  - intros [o [Ho He]].
    assert (Hi : i < length sentences).
    { apply Nat.lt_le_trans with (length os); [|exact Hlen].
      apply nth_error_Some. congruence. }
    destruct (nth_error sentences i) as [s|] eqn:Hs;
      [|apply nth_error_None in Hs; lia].
    exists i, o, s. repeat split; auto. right.
    destruct o as [|[data|x]|]; cbn [erroneous outcomeObs] in *;
      try discriminate; try rewrite He; now left.
Qed.

Lemma skipped_logged id sentences os i :
  length os <= length sentences ->
  nth_error os i = Some NoAudio ->
  In (Skipped id i) (narration id sentences 0 os).
Proof.
  intros Hlen Ho.
  assert (Hi : i < length sentences).
  { apply Nat.lt_le_trans with (length os); [|exact Hlen].
    apply nth_error_Some. congruence. }
  destruct (nth_error sentences i) as [s|] eqn:Hs;
    [|apply nth_error_None in Hs; lia].
  apply (narration_spec id sentences (Skipped id i) os 0); [simpl; lia|].
  exists i, NoAudio, s. repeat split; auto. right. now left.
Qed.

(** X23: a session left alone, with the speech service as written.
    [generateSpeech] catches what its request throws and returns [null],
    so for the loop a failed request is a sentence without audio: it is
    skipped, and the [catch] of the loop does not see it.  What
    [generateSpeech] does not catch is a client that cannot be built,
    before its [try]: that rejects, and the loop logs it.  Whatever
    happens to each request, the session goes through all the sentences
    and ends idle; [console.error("Playback error")] is logged for
    sentence [i] exactly when the client of its request is not built, or
    the answer has a payload that [atob] refuses or that has an odd number
    of bytes or none. *)
Theorem failed_request_skips_sentence
        (m : Machine) (text : jsstring)
        (calls : list (bool * option Response)) :
  playbackState m = idle ->
  deviceAvailable m = true ->
  length calls = length (splitSentences text) ->
  let os := map (settle atob) calls in
  let told := narration (nextId m) (splitSentences text) 0 os in
  exists m' setup,
    run m (session m text os) = Some m' /\
    playbackState m' = idle /\
    currentSentenceIdx m' = (-1)%Z /\
    log m' = rev told ++ setup ++ log m /\
    (forall i, nth_error calls i = Some (true, None) ->
               In (Skipped (nextId m) i) told /\
               ~ In (ConsoleError (nextId m) i) told) /\
    (forall i,
        In (ConsoleError (nextId m) i) told <->
        exists client answer,
          nth_error calls i = Some (client, answer) /\
          (client = false \/
           exists base64,
             snd (generateSpeech client answer) = Resolves (Some base64) /\
             (failed (decodeBase64 atob base64) = true \/
              exists bytes, decodeBase64 atob base64 = Ok bytes /\
                            (Nat.odd (length bytes) = true \/ bytes = [])))).
Proof.
  intros Hidle Hdev Hlen os told.
  assert (Hlo : length os = length (splitSentences text))
    by (unfold os; now rewrite length_map).
  destruct (play_runs m text os Hidle Hdev Hlo)
    as (m' & setup & Hrun & H1 & H2 & _ & H4 & _).
  exists m', setup.
  split; [exact Hrun|]. split; [exact H1|]. split; [exact H2|].
  split; [exact H4|].
  assert (Herr : forall i,
             In (ConsoleError (nextId m) i) told <->
             exists call, nth_error calls i = Some call /\
                          erroneous (settle atob call) = true).
  { intros i. unfold told. rewrite error_logged by lia. unfold os.
    split.
    - intros [o [Ho He]]. rewrite nth_error_map in Ho.
      destruct (nth_error calls i) as [a|]; [|discriminate].
      injection Ho as <-. now exists a.
    - intros [a [Ha He]]. exists (settle atob a). split; [|exact He].
      now rewrite nth_error_map, Ha. }
  split.
  - intros i Hi. split.
    + apply skipped_logged; [lia|]. unfold os.
      now rewrite nth_error_map, Hi.
    + intros Hin. apply Herr in Hin as [a [Ha He]].
      rewrite Hi in Ha. injection Ha as <-. discriminate.
  - intros i. rewrite Herr. split.
    + intros [[client answer] [Ha He]].
      apply settle_erroneous in He. now exists client, answer.
    + intros [client [answer [Ha H]]]. exists (client, answer).
      split; [exact Ha|]. now apply settle_erroneous.
Qed.

End NarratorFacts.

Section NarratorExamples.

Import Segmenter Pcm Playback Speaker Narrator.

Lemma failed_request_skips_sentence_witness :
  let m := init true in
  let text := js "Hello world. How are you?" in
  let calls := [(true, None); (true, answerWith (Some (js "abc")))] in
  let os := map (settle plain) calls in
  let told := narration (nextId m) (splitSentences text) 0 os in
  exists m' setup,
    run m (session m text os) = Some m' /\
    playbackState m' = idle /\
    currentSentenceIdx m' = (-1)%Z /\
    log m' = rev told ++ setup ++ log m /\
    (forall i, nth_error calls i = Some (true, None) ->
               In (Skipped (nextId m) i) told /\
               ~ In (ConsoleError (nextId m) i) told) /\
    (forall i,
        In (ConsoleError (nextId m) i) told <->
        exists client answer,
          nth_error calls i = Some (client, answer) /\
          (client = false \/
           exists base64,
             snd (generateSpeech client answer) = Resolves (Some base64) /\
             (failed (decodeBase64 plain base64) = true \/
              exists bytes, decodeBase64 plain base64 = Ok bytes /\
                            (Nat.odd (length bytes) = true \/ bytes = [])))).
Proof.
  apply (@failed_request_skips_sentence plain (init true)
           (js "Hello world. How are you?")
           [(true, None); (true, answerWith (Some (js "abc")))]).
  - reflexivity.
  - reflexivity.
  - reflexivity.
Defined.

Example failed_request_log :
  option_map (fun m => rev (log m))
    (run (init true)
         (session (init true) (js "Hello world. How are you?")
                  (map (settle plain)
                       [(true, None); (true, answerWith (Some (js "abc")))])))
  = Some [DeviceCreated; Request 0 0 (js "Hello world."); Skipped 0 0;
          Request 0 1 (js "How are you?"); ConsoleError 0 1].
Proof. vm_compute. reflexivity. Qed.

(** Without a client every sentence is requested and every request is
    logged as a playback error. *)
Example no_client_log :
  option_map (fun m => rev (log m))
    (run (init true)
         (session (init true) (js "Hello world. How are you?")
                  (map (settle plain)
                       [(false, answerWith (Some (js "abcd")));
                        (false, None)])))
  = Some [DeviceCreated; Request 0 0 (js "Hello world."); ConsoleError 0 0;
          Request 0 1 (js "How are you?"); ConsoleError 0 1].
Proof. vm_compute. reflexivity. Qed.

End NarratorExamples.
